(** * EffectsManager: the control-side effects coordinator

    A shallow embedding of [EffectsManager] (effects/effectsmanager.cpp):
    the manifest catalogue and its ordering, the visible-effect list and its
    cyclic traversal, the loading of effects and chain presets into chain
    slots, and the lookup of slots by group name.

    Conventions.
    - C++ [int] values are [Z]; every list handled here is far shorter than
      2^31, so no wrap-around is written out.
    - A [QList] is a [list]; [QList::at] outside of [0 <= i < size()] is a
      fault ([IndexOutOfRange]).
    - A [QString] is either the null string or a sequence of characters; Qt's
      [operator==] does not tell the null string from the empty one, while
      [isNull] does.
    - [VERIFY_OR_DEBUG_ASSERT(c) { block }] is modelled as in a release
      build: [block] runs when [c] is false.
    - Shared pointers that the code dereferences without a test are
      references to objects; pointers that the code tests are [option]s. *)

From Stdlib Require Import List ZArith String Ascii Bool Lia Arith.
From Stdlib Require Import Permutation Sorted.
Import ListNotations.

Set Implicit Arguments.

Open Scope Z_scope.

(** ** Outcomes of code that can fault *)

Inductive fault : Type :=
| IndexOutOfRange   (* QList::at / first / last outside of the list *)
| NullDereference.  (* operator-> on a null shared pointer *)

Inductive outcome (A : Type) : Type :=
| Done (a : A)
| Fault (f : fault).

Arguments Done {A} a.
Arguments Fault {A} f.

Definition bind {A B : Type} (o : outcome A) (k : A -> outcome B) : outcome B :=
  match o with
  | Done a => k a
  | Fault f => Fault f
  end.

Notation "x <- o ;; k" := (bind o (fun x => k))
  (at level 61, o at next level, right associativity).

(** ** QString *)

Inductive QString : Type :=
| QNull
| QStr (s : string).

Definition qchars (q : QString) : string :=
  match q with
  | QNull => EmptyString
  | QStr s => s
  end.

Definition isNull (q : QString) : bool :=
  match q with
  | QNull => true
  | QStr _ => false
  end.

(** [operator==(QString, QString)]: compares the characters. *)
Definition QString_eqb (a b : QString) : bool := String.eqb (qchars a) (qchars b).

(** [operator+(QString, QString)]. *)
Definition QString_append (a b : QString) : QString :=
  QStr (String.append (qchars a) (qchars b)).

(** ** QList *)

Definition QList_size {A : Type} (l : list A) : Z := Z.of_nat (List.length l).

Definition QList_isEmpty {A : Type} (l : list A) : bool :=
  match l with
  | [] => true
  | _ :: _ => false
  end.

Definition QList_at {A : Type} (l : list A) (i : Z) : outcome A :=
  if (0 <=? i) && (i <? QList_size l)
  then match nth_error l (Z.to_nat i) with
       | Some x => Done x
       | None => Fault IndexOutOfRange
       end
  else Fault IndexOutOfRange.

Definition QList_first {A : Type} (l : list A) : outcome A := QList_at l 0.

Definition QList_last {A : Type} (l : list A) : outcome A :=
  QList_at l (QList_size l - 1).

(** [QList::insert(iterator before, value)], the iterator given as an offset
    from [begin()]. *)
Definition QList_insert {A : Type} (l : list A) (before : nat) (x : A) : list A :=
  firstn before l ++ x :: skipn before l.

(** ** Manifests *)

(** Modelled from the spec: the declaration of [EffectBackendType] is in a
    header that is not part of the sources; the enumerators are the ones the
    code names, in the order that makes built-in effects sort before external
    plugins. *)
Inductive EffectBackendType : Type :=
| BuiltIn
| LV2
| Unknown.

(** [static_cast<int>(EffectBackendType)] *)
Definition backendTypeToInt (t : EffectBackendType) : Z :=
  match t with
  | BuiltIn => 0
  | LV2 => 1
  | Unknown => 2
  end.

Definition EffectBackendType_eqb (a b : EffectBackendType) : bool :=
  backendTypeToInt a =? backendTypeToInt b.

Record EffectManifest : Type := {
  manifest_id : QString;
  manifest_backendType : EffectBackendType;
  manifest_displayName : QString
}.

(** A non-null [EffectManifestPointer] is the address of a manifest object;
    two pointers are equal when they hold the same address. *)
Definition ManifestRef : Type := nat.

Definition EffectManifestPointer : Type := option ManifestRef.

Definition EffectManifestPointer_eqb (p q : EffectManifestPointer) : bool :=
  match p, q with
  | None, None => true
  | Some a, Some b => Nat.eqb a b
  | _, _ => false
  end.

(** What the code reads from its environment: the manifest objects behind
    the pointers (immutable once a backend has published them) and Qt's
    locale-dependent string comparison. *)
Class Runtime : Type := {
  manifestAt : ManifestRef -> EffectManifest;
  localeAwareCompare : QString -> QString -> Z
}.

(** ** The data of the coordinator *)

Section Model.

(** [double] values are only stored and handed on; processors are opaque
    objects made by a backend; the mix-mode enumeration is declared in a
    header that is not part of the sources. *)
Context {double EffectProcessor EffectChainMixMode : Type}.
Context {RT : Runtime}.

(** An effect preset: which effect it is for, whether it stands for an
    unloaded slot, and the parameter values it stores. *)
Record EffectPreset : Type := {
  preset_id : QString;
  preset_backendType : EffectBackendType;
  preset_isEmpty : bool;
  preset_parameters : list (QString * double)
}.

Definition EffectPresetPointer : Type := option EffectPreset.

Record EffectChainPreset : Type := {
  effectPresets : list EffectPreset;
  mixMode : EffectChainMixMode;
  superKnob : double;
  name : QString
}.

(** The capability interface of a backend. *)
Record EffectsBackend : Type := {
  getType : EffectBackendType;
  getEffectIds : list QString;
  getManifest : QString -> EffectManifestPointer;
  backend_createProcessor : EffectManifestPointer -> option EffectProcessor
}.

Definition EffectsBackendPointer : Type := option EffectsBackend.

(** The methods of [EffectChainSlot] that the coordinator calls on a chain
    slot, as the record of a call. *)
Inductive ChainSlotCall : Type :=
| slotControlClear (v : Z)
| ChainSlot_loadEffect (iEffectSlotNumber : Z)
                       (pManifest : EffectManifestPointer)
                       (pProcessor : option EffectProcessor)
                       (pPreset : EffectPresetPointer)
                       (adoptMetaknobFromPreset : bool)
| setMixMode (mode : EffectChainMixMode)
| setSuperParameterDefaultValue (v : double)
| setSuperParameter (v : double)
| setPresetName (n : QString)
| setLoadedPresetIndex (i : Z).

(** Modelled from the spec: [EffectSlot] and [EffectChainSlot] are classes of
    this repository whose sources are not part of the sources at hand. An
    effect slot holds at most one loaded effect: an optional manifest, the
    processor derived from it, and parameter values; a slot with no manifest
    has no processor and no parameter values. *)
Record EffectSlot : Type := {
  slot_manifest : EffectManifestPointer;
  slot_processor : option EffectProcessor;
  slot_parameters : list (QString * double)
}.

Definition EffectSlotPointer : Type := option EffectSlot.

(** Modelled from the spec: a chain slot is a stable group name, an ordered
    fixed-length sequence of effect slots, and the chain-level state (mix
    mode, super-parameter default and value, bound preset name and index). *)
Record EffectChainSlot : Type := {
  group : QString;
  effectSlots : list EffectSlot;
  chain_mixMode : EffectChainMixMode;
  chain_superParameterDefault : double;
  chain_superParameter : double;
  presetName : QString;
  loadedPresetIndex : Z
}.

Definition EffectChainSlotPointer : Type := option EffectChainSlot.

Record EffectChainPresetManager : Type := {
  presetIndex : EffectChainPreset -> Z
}.

Inductive Signal : Type :=
| visibleEffectsUpdated.

(** The members of [EffectsManager] that the modelled methods touch. A
    [QHash] is read through [value(key)] only, which yields a null pointer
    for an absent key: it is the function from keys to pointers. *)
Record EffectsManager : Type := {
  m_effectsBackends : EffectBackendType -> EffectsBackendPointer;
  m_availableEffectManifests : list ManifestRef;
  m_visibleEffectManifests : list ManifestRef;
  m_pNumEffectsAvailable : Z;
  m_defaultPresets : EffectManifestPointer -> EffectPresetPointer;
  m_standardEffectChainSlots : list EffectChainSlot;
  m_effectChainSlotsByGroup : QString -> EffectChainSlotPointer;
  m_pChainPresetManager : EffectChainPresetManager;
  emitted : list Signal
}.

(** [QHash::insert(key, value)] *)
Definition QHash_insert {V : Type} (h : EffectBackendType -> V)
    (k : EffectBackendType) (v : V) : EffectBackendType -> V :=
  fun k' => if EffectBackendType_eqb k' k then v else h k'.

(** ** The catalogue order *)

Definition id (p : ManifestRef) : QString := manifest_id (manifestAt p).
Definition backendType (p : ManifestRef) : EffectBackendType :=
  manifest_backendType (manifestAt p).
Definition displayName (p : ManifestRef) : QString :=
  manifest_displayName (manifestAt p).

Definition alphabetizeEffectManifests (pManifest1 pManifest2 : ManifestRef) : bool :=
  let backendNameComparision :=
    backendTypeToInt (backendType pManifest1) - backendTypeToInt (backendType pManifest2) in
  let displayNameComparision :=
    localeAwareCompare (displayName pManifest1) (displayName pManifest2) in
  if backendNameComparision =? 0
  then displayNameComparision <? 0
  else backendNameComparision <? 0.

(** [std::sort(first, last, comp)]. The standard fixes the result up to the
    order of equivalent elements; the model sorts by insertion, and the
    theorems use no more than that the result is an ordered permutation. *)
Fixpoint sort_insert {A : Type} (comp : A -> A -> bool) (x : A) (l : list A) : list A :=
  match l with
  | [] => [x]
  | y :: t => if comp x y then x :: y :: t else y :: sort_insert comp x t
  end.

Definition std_sort {A : Type} (comp : A -> A -> bool) (l : list A) : list A :=
  fold_right (sort_insert comp) [] l.

(** [std::lower_bound(first, last, value, comp)]: the binary search of the
    standard library, over offsets from [begin()]; [len] halves in each
    round, so [fuel = size] rounds are enough. *)
Fixpoint lower_bound_loop {A : Type} (fuel : nat) (l : list A) (value : A)
    (comp : A -> A -> bool) (first len : nat) : nat :=
  match fuel with
  | O => first
  | S fuel' =>
      if Nat.eqb len 0 then first
      else
        let half := Nat.div2 len in
        let middle := (first + half)%nat in
        match nth_error l middle with
        | Some x =>
            if comp x value
            then lower_bound_loop fuel' l value comp (S middle) (len - half - 1)%nat
            else lower_bound_loop fuel' l value comp first half
        | None => first
        end
  end.

Definition std_lower_bound {A : Type} (l : list A) (value : A)
    (comp : A -> A -> bool) : nat :=
  lower_bound_loop (List.length l) l value comp 0%nat (List.length l).

(** [QList::contains] and [QList::removeOne] on manifest pointers. *)
Definition QList_contains (l : list ManifestRef) (p : ManifestRef) : bool :=
  existsb (Nat.eqb p) l.

Fixpoint QList_removeOne (l : list ManifestRef) (p : ManifestRef) : list ManifestRef :=
  match l with
  | [] => []
  | q :: t => if Nat.eqb q p then t else q :: QList_removeOne t p
  end.

(** ** Registering a backend *)

(** The manifests a backend hands out for its own effect ids, in the order
    of [getEffectIds()]. A null one among them is dereferenced by
    [alphabetizeEffectManifests] as soon as the catalogue is sorted or
    searched; the model reports that fault here. *)
Fixpoint backendManifests (b : EffectsBackend) (ids : list QString)
    : outcome (list ManifestRef) :=
  match ids with
  | [] => Done []
  | effectId :: rest =>
      match getManifest b effectId with
      | None => Fault NullDereference
      | Some p => ps <- backendManifests b rest ;; Done (p :: ps)
      end
  end.

Definition addEffectsBackend (m : EffectsManager) (pBackend : EffectsBackendPointer)
    : outcome EffectsManager :=
  match pBackend with
  | None => Done m
  | Some b =>
      let backends := QHash_insert (m_effectsBackends m) (getType b) (Some b) in
      appended <- backendManifests b (getEffectIds b) ;;
      let available := m_availableEffectManifests m ++ appended in
      Done {| m_effectsBackends := backends;
              m_availableEffectManifests :=
                std_sort alphabetizeEffectManifests available;
              m_visibleEffectManifests := m_visibleEffectManifests m;
              m_pNumEffectsAvailable := QList_size available;
              m_defaultPresets := m_defaultPresets m;
              m_standardEffectChainSlots := m_standardEffectChainSlots m;
              m_effectChainSlotsByGroup := m_effectChainSlotsByGroup m;
              m_pChainPresetManager := m_pChainPresetManager m;
              emitted := emitted m |}
  end.

(** ** Loading effects and chain presets *)

Definition createProcessor (m : EffectsManager) (pManifest : EffectManifestPointer)
    : option EffectProcessor :=
  match pManifest with
  | None => None
  | Some p =>
      match m_effectsBackends m (backendType p) with
      | None => None
      | Some pBackend => backend_createProcessor pBackend pManifest
      end
  end.

(** [loadEffect]: the call it makes on [pChainSlot]. A null [pPreset] is the
    default argument of the declaration. *)
Definition loadEffect (m : EffectsManager) (iEffectSlotNumber : Z)
    (pManifest : EffectManifestPointer) (pPreset : EffectPresetPointer)
    (adoptMetaknobFromPreset : bool) : ChainSlotCall :=
  let pPreset' :=
    match pPreset with
    | None => m_defaultPresets m pManifest
    | Some _ => pPreset
    end in
  ChainSlot_loadEffect iEffectSlotNumber pManifest (createProcessor m pManifest)
                       pPreset' adoptMetaknobFromPreset.

(** The loop of [loadEffectChainPreset] over [pPreset->effectPresets()],
    with its counter [effectSlot]: the calls it makes on the chain slot. *)
Fixpoint loadEffectPresets (m : EffectsManager) (effectSlot : Z)
    (presets : list EffectPreset) : list ChainSlotCall :=
  match presets with
  | [] => []
  | pEffectPreset :: rest =>
      if preset_isEmpty pEffectPreset
      then ChainSlot_loadEffect effectSlot None None None true
             :: loadEffectPresets m (effectSlot + 1) rest
      else
        match m_effectsBackends m (preset_backendType pEffectPreset) with
        | None => loadEffectPresets m (effectSlot + 1) rest
        | Some pBackend =>
            let pManifest := getManifest pBackend (preset_id pEffectPreset) in
            ChainSlot_loadEffect effectSlot pManifest (createProcessor m pManifest)
                                 (Some pEffectPreset) true
              :: loadEffectPresets m (effectSlot + 1) rest
        end
  end.

(** [loadEffectChainPreset(EffectChainSlot*, EffectChainPresetPointer)]: the
    calls made on the chain slot, in order. [hasChainSlot] is false for a
    null [pChainSlot]. *)
Definition loadEffectChainPreset (m : EffectsManager) (hasChainSlot : bool)
    (pPreset : option EffectChainPreset) : list ChainSlotCall :=
  if negb hasChainSlot then []
  else
    match pPreset with
    | None => []
    | Some preset =>
        slotControlClear 1
          :: loadEffectPresets m 0 (effectPresets preset)
          ++ [ setMixMode (mixMode preset);
               setSuperParameterDefaultValue (superKnob preset);
               setSuperParameter (superKnob preset);
               setPresetName (name preset);
               setLoadedPresetIndex (presetIndex (m_pChainPresetManager m) preset) ]
    end.

(** ** Walking the visible effects *)

(** The search loop shared by [getNextEffectId] and [getPrevEffectId]:
    [index] when the loop is left. *)
Fixpoint searchEffectId (effectId : QString) (rest : list ManifestRef) (index : Z) : Z :=
  match rest with
  | [] => index
  | p :: rest' =>
      if QString_eqb effectId (id p) then index
      else searchEffectId effectId rest' (index + 1)
  end.

Definition getNextEffectId (m : EffectsManager) (effectId : QString) : outcome QString :=
  let visible := m_visibleEffectManifests m in
  if QList_isEmpty visible then Done QNull
  else if isNull effectId then p <- QList_first visible ;; Done (id p)
  else
    let index := searchEffectId effectId visible 0 in
    let index := index + 1 in
    let index := if index >=? QList_size visible then 0 else index in
    p <- QList_at visible index ;; Done (id p).

Definition getPrevEffectId (m : EffectsManager) (effectId : QString) : outcome QString :=
  let visible := m_visibleEffectManifests m in
  if QList_isEmpty visible then Done QNull
  else if isNull effectId then p <- QList_last visible ;; Done (id p)
  else
    let index := searchEffectId effectId visible 0 in
    let index := index - 1 in
    let index := if index <? 0 then QList_size visible - 1 else index in
    p <- QList_at visible index ;; Done (id p).

(** ** Visibility *)

Definition setEffectVisibility (m : EffectsManager) (pManifest : ManifestRef)
    (visible : bool) : EffectsManager :=
  let update (l : list ManifestRef) :=
    {| m_effectsBackends := m_effectsBackends m;
       m_availableEffectManifests := m_availableEffectManifests m;
       m_visibleEffectManifests := l;
       m_pNumEffectsAvailable := m_pNumEffectsAvailable m;
       m_defaultPresets := m_defaultPresets m;
       m_standardEffectChainSlots := m_standardEffectChainSlots m;
       m_effectChainSlotsByGroup := m_effectChainSlotsByGroup m;
       m_pChainPresetManager := m_pChainPresetManager m;
       emitted := emitted m ++ [visibleEffectsUpdated] |} in
  if visible && negb (QList_contains (m_visibleEffectManifests m) pManifest)
  then
    let insertion_point :=
      std_lower_bound (m_visibleEffectManifests m) pManifest alphabetizeEffectManifests in
    update (QList_insert (m_visibleEffectManifests m) insertion_point pManifest)
  else if negb visible
  then update (QList_removeOne (m_visibleEffectManifests m) pManifest)
  else m.

Definition getEffectVisibility (m : EffectsManager) (pManifest : ManifestRef) : bool :=
  QList_contains (m_visibleEffectManifests m) pManifest.

(** ** Looking slots up *)

Definition kEffectGroupSeparator : ascii := "_"%char.
Definition kGroupClose : QString := QStr "]".

(** [QString::split(sep)] for a separator of one character, keeping empty
    parts. *)
Fixpoint split_chars (sep : ascii) (s : string) : list string :=
  match s with
  | EmptyString => [EmptyString]
  | String c t =>
      if Ascii.eqb c sep then EmptyString :: split_chars sep t
      else
        match split_chars sep t with
        | [] => [String c EmptyString]
        | part :: parts => String c part :: parts
        end
  end.

Definition QString_split (q : QString) (sep : ascii) : list QString :=
  map QStr (split_chars sep (qchars q)).

Definition isDigit (c : ascii) : bool :=
  let n := Z.of_nat (nat_of_ascii c) in (48 <=? n) && (n <=? 57).

(** The longest prefix of [s] made of decimal digits. *)
Fixpoint digitRun (s : string) : string :=
  match s with
  | EmptyString => EmptyString
  | String c t => if isDigit c then String c (digitRun t) else EmptyString
  end.

Fixpoint firstDigitRun (s : string) : string :=
  match s with
  | EmptyString => EmptyString
  | String c t => if isDigit c then String c (digitRun t) else firstDigitRun t
  end.

(** [intRegEx.indexIn(s); intRegEx.cap(1)] for the pattern [.*(\d+).*]. The
    pattern is in QRegExp's default syntax, which does not match by
    backtracking: of the ways the pattern matches [s], QRegExp keeps the one
    whose capture starts earliest and, of these, the one whose capture ends
    latest. So the group captures the first run of decimal digits of [s],
    the whole of it, and nothing when [s] has no digit. *)
Definition intRegEx_cap1 (s : QString) : QString :=
  QStr (firstDigitRun (qchars s)).

(** [QString::toInt()] on what the capture can be, a run of decimal digits:
    0 when the conversion fails. *)
Fixpoint parseDigits (s : string) (acc : Z) : option Z :=
  match s with
  | EmptyString => Some acc
  | String c t =>
      if isDigit c
      then parseDigits t (10 * acc + (Z.of_nat (nat_of_ascii c) - 48))
      else None
  end.

Definition toInt (q : QString) : Z :=
  match qchars q with
  | EmptyString => 0
  | s => match parseDigits s 0 with
         | Some n => if n <=? 2147483647 then n else 0
         | None => 0
         end
  end.

(** Modelled from the spec: [EffectChainSlot::getEffectSlot(index)] is
    bounds-checked and returns empty on out-of-range. *)
Definition ChainSlot_getEffectSlot (c : EffectChainSlot) (i : Z) : EffectSlotPointer :=
  if (0 <=? i) && (i <? QList_size (effectSlots c))
  then nth_error (effectSlots c) (Z.to_nat i)
  else None.

Definition getEffectChainSlot (m : EffectsManager) (g : QString) : EffectChainSlotPointer :=
  m_effectChainSlotsByGroup m g.

Definition getEffectSlot (m : EffectsManager) (g : QString) : outcome EffectSlotPointer :=
  let parts := QString_split g kEffectGroupSeparator in
  part0 <- QList_at parts 0 ;;
  part1 <- QList_at parts 1 ;;
  let chainGroup :=
    QString_append
      (QString_append
         (QString_append part0 (QStr (String kEffectGroupSeparator EmptyString)))
         part1)
      kGroupClose in
  match getEffectChainSlot m chainGroup with
  | None => Done None
  | Some pChainSlot =>
      part2 <- QList_at parts 2 ;;
      Done (ChainSlot_getEffectSlot pChainSlot (toInt (intRegEx_cap1 part2) - 1))
  end.

Definition getStandardEffectChainSlot (m : EffectsManager) (unitNumber : Z)
    : outcome EffectChainSlotPointer :=
  if (0 <=? unitNumber) || (unitNumber <? QList_size (m_standardEffectChainSlots m))
  then
    pChainSlot <- QList_at (m_standardEffectChainSlots m) unitNumber ;;
    Done (Some pChainSlot)
  else Done None.

(** ** The chain slot, as far as the spec describes it *)

(** The parameter defaults in a manifest's ordered parameter descriptors. *)
Variable parameterDefaults : ManifestRef -> list (QString * double).

(** The value that [adoptMetaknobFromPreset] asks the chain to adopt from
    an effect preset. *)
Variable presetSuperValue : EffectPreset -> double.

Definition emptyEffectSlot : EffectSlot :=
  {| slot_manifest := None; slot_processor := None; slot_parameters := [] |}.

Definition loadedEffectSlot (pManifest : EffectManifestPointer)
    (pProcessor : option EffectProcessor) (pPreset : EffectPresetPointer) : EffectSlot :=
  match pManifest with
  | None => emptyEffectSlot
  | Some p =>
      {| slot_manifest := pManifest;
         slot_processor := pProcessor;
         slot_parameters :=
           match pPreset with
           | Some preset => preset_parameters preset
           | None => parameterDefaults p
           end |}
  end.

Fixpoint replaceSlot (slots : list EffectSlot) (i : nat) (s : EffectSlot) : list EffectSlot :=
  match slots, i with
  | [], _ => []
  | _ :: rest, O => s :: rest
  | s0 :: rest, S i' => s0 :: replaceSlot rest i' s
  end.

(** Modelled from the spec: what each call does to a chain slot. Clearing
    empties every slot; loading swaps manifest, processor and parameter
    values of one slot together (a null manifest unloads it, an index out of
    range is a no-op) and, when asked to, adopts the preset's stored
    super-parameter value; the setters overwrite one chain-level field. *)
Definition ChainSlot_call (c : EffectChainSlot) (call : ChainSlotCall) : EffectChainSlot :=
  let chain slots mode superDefault super pname pindex :=
    {| group := group c; effectSlots := slots; chain_mixMode := mode;
       chain_superParameterDefault := superDefault; chain_superParameter := super;
       presetName := pname; loadedPresetIndex := pindex |} in
  match call with
  | slotControlClear _ =>
      chain (map (fun _ => emptyEffectSlot) (effectSlots c)) (chain_mixMode c)
            (chain_superParameterDefault c) (chain_superParameter c)
            (presetName c) (loadedPresetIndex c)
  | ChainSlot_loadEffect i pManifest pProcessor pPreset adopt =>
      if (0 <=? i) && (i <? QList_size (effectSlots c))
      then
        chain (replaceSlot (effectSlots c) (Z.to_nat i)
                           (loadedEffectSlot pManifest pProcessor pPreset))
              (chain_mixMode c) (chain_superParameterDefault c)
              (match pPreset with
               | Some preset => if adopt then presetSuperValue preset
                                else chain_superParameter c
               | None => chain_superParameter c
               end)
              (presetName c) (loadedPresetIndex c)
      else c
  | setMixMode mode =>
      chain (effectSlots c) mode (chain_superParameterDefault c)
            (chain_superParameter c) (presetName c) (loadedPresetIndex c)
  | setSuperParameterDefaultValue v =>
      chain (effectSlots c) (chain_mixMode c) v (chain_superParameter c)
            (presetName c) (loadedPresetIndex c)
  | setSuperParameter v =>
      chain (effectSlots c) (chain_mixMode c) (chain_superParameterDefault c) v
            (presetName c) (loadedPresetIndex c)
  | setPresetName n =>
      chain (effectSlots c) (chain_mixMode c) (chain_superParameterDefault c)
            (chain_superParameter c) n (loadedPresetIndex c)
  | setLoadedPresetIndex i =>
      chain (effectSlots c) (chain_mixMode c) (chain_superParameterDefault c)
            (chain_superParameter c) (presetName c) i
  end.

Definition ChainSlot_calls (c : EffectChainSlot) (calls : list ChainSlotCall)
    : EffectChainSlot :=
  fold_left ChainSlot_call calls c.

(** Applying a chain preset to a chain slot: the calls of
    [loadEffectChainPreset], run on the chain slot. *)
Definition applyChainPreset (m : EffectsManager) (c : EffectChainSlot)
    (preset : EffectChainPreset) : EffectChainSlot :=
  ChainSlot_calls c (loadEffectChainPreset m true (Some preset)).

(** What is observable of a chain slot: per slot the manifest and the
    parameter values, then mix mode, super-parameter value, preset name and
    loaded-preset index. *)
Definition observableState (c : EffectChainSlot)
    : list (EffectManifestPointer * list (QString * double))
      * EffectChainMixMode * double * QString * Z :=
  (map (fun s => (slot_manifest s, slot_parameters s)) (effectSlots c),
   chain_mixMode c, chain_superParameter c, presetName c, loadedPresetIndex c).

End Model.

(** * Vocabulary of the statements *)

Section Vocabulary.

Context {double EffectProcessor EffectChainMixMode : Type}.
Context {RT : Runtime}.

(** Positions in a cycle of [n] elements. *)
Definition nextPosition (n i : nat) : nat := (S i mod n)%nat.
Definition prevPosition (n i : nat) : nat := ((i + n - 1) mod n)%nat.

(** [effectId] occurs in [visible], and position [i] is where it occurs
    first. *)
Definition firstOccurrence (effectId : QString) (visible : list ManifestRef)
    (i : nat) : Prop :=
  (i < List.length visible)%nat
  /\ QString_eqb effectId (id (nth i visible 0%nat)) = true
  /\ forall j, (j < i)%nat -> QString_eqb effectId (id (nth j visible 0%nat)) = false.

(** No two manifests of the list have the same id. *)
Definition distinctIds (visible : list ManifestRef) : Prop :=
  forall i j, (i < List.length visible)%nat -> (j < List.length visible)%nat ->
    QString_eqb (id (nth i visible 0%nat)) (id (nth j visible 0%nat)) = true -> i = j.

(** [getNextEffectId], [k] times in a row. *)
Fixpoint iterateNextEffectId (m : @EffectsManager double EffectProcessor EffectChainMixMode)
    (k : nat) (effectId : QString) : outcome QString :=
  match k with
  | O => Done effectId
  | S k' => next <- getNextEffectId m effectId ;; iterateNextEffectId m k' next
  end.

(** A list is in catalogue order when no element sorts before an earlier
    one. *)
Definition catalogueOrdered (l : list ManifestRef) : Prop :=
  forall i j, (i < j)%nat -> (j < List.length l)%nat ->
    alphabetizeEffectManifests (nth j l 0%nat) (nth i l 0%nat) = false.

(** The order of the catalogue in the words of its description: going
    down the list, the backend type never goes back from external to
    built-in, and among manifests of one backend type a later display name
    never compares less than an earlier one. *)
Definition builtInFirstThenByName (l : list ManifestRef) : Prop :=
  forall i j, (i < j)%nat -> (j < List.length l)%nat ->
    backendTypeToInt (backendType (nth i l 0%nat))
      <= backendTypeToInt (backendType (nth j l 0%nat))
    /\ (backendType (nth i l 0%nat) = backendType (nth j l 0%nat) ->
        0 <= localeAwareCompare (displayName (nth j l 0%nat))
                                (displayName (nth i l 0%nat))).

(** Two chain slots with the same group and the same effect slots. *)
Definition sameSlots (c c' : @EffectChainSlot double EffectProcessor EffectChainMixMode)
    : Prop :=
  group c = group c' /\ effectSlots c = effectSlots c'.

(** The slot number a [loadEffect] call is made for. *)
Definition slotNumberOf (call : @ChainSlotCall double EffectProcessor EffectChainMixMode) : Z :=
  match call with
  | ChainSlot_loadEffect i _ _ _ _ => i
  | _ => -1
  end.

(** The call is a [loadEffect] that adopts the metaknob value. *)
Definition isLoadEffect (call : @ChainSlotCall double EffectProcessor EffectChainMixMode) : Prop :=
  exists pManifest pProcessor pPreset,
    call = ChainSlot_loadEffect (slotNumberOf call) pManifest pProcessor pPreset true.

End Vocabulary.

Section OrderVocabulary.

Variable A : Type.
Variable comp : A -> A -> bool.

(** [b] does not sort before [a]. *)
Definition notBeforeBy (a b : A) : Prop := comp b a = false.

(** No element of the list sorts before an earlier one. *)
Definition orderedBy (l : list A) : Prop := StronglySorted notBeforeBy l.

End OrderVocabulary.

(** The part has no decimal digit. *)
Fixpoint noDigit (s : string) : bool :=
  match s with
  | EmptyString => true
  | String c t => negb (isDigit c) && noDigit t
  end.

(** The part begins with a decimal digit. *)
Definition startsWithDigit (s : string) : bool :=
  match s with
  | EmptyString => false
  | String c _ => isDigit c
  end.

(** The largest [int]. *)
Definition INT_MAX : Z := 2147483647.

(** * More of QString *)

(** [QString::isEmpty] and [QString::size] *)
Definition isEmpty (q : QString) : bool :=
  match qchars q with
  | EmptyString => true
  | String _ _ => false
  end.

Definition QString_size (q : QString) : Z := Z.of_nat (String.length (qchars q)).

(** [QString::indexOf] and [QString::lastIndexOf] for a string of one
    character: the position of its first (last) occurrence, -1 when there is
    none. *)
Fixpoint indexOfChar (c : ascii) (s : string) : option nat :=
  match s with
  | EmptyString => None
  | String x t =>
      if Ascii.eqb x c then Some 0%nat
      else match indexOfChar c t with
           | Some i => Some (S i)
           | None => None
           end
  end.

Fixpoint lastIndexOfChar (c : ascii) (s : string) : option nat :=
  match s with
  | EmptyString => None
  | String x t =>
      match lastIndexOfChar c t with
      | Some i => Some (S i)
      | None => if Ascii.eqb x c then Some 0%nat else None
      end
  end.

Definition QString_indexOf (q : QString) (c : ascii) : Z :=
  match indexOfChar c (qchars q) with
  | Some i => Z.of_nat i
  | None => -1
  end.

Definition QString_lastIndexOf (q : QString) (c : ascii) : Z :=
  match lastIndexOfChar c (qchars q) with
  | Some i => Z.of_nat i
  | None => -1
  end.

(** [QString::left(n)]: the entire string when [n] is negative or not less
    than the size. *)
Definition QString_left (q : QString) (n : Z) : QString :=
  if (n <? 0) || (n >=? QString_size q) then q
  else QStr (substring 0 (Z.to_nat n) (qchars q)).

(** [QString::mid(position, n)] as Qt 5 computes it: a position past the
    end gives the null string; a negative position shortens [n] by as much
    and starts at 0; a negative or too large [n] takes all that is left. *)
Definition QString_mid (q : QString) (position n : Z) : QString :=
  let size := QString_size q in
  let subset (position' length : Z) : QString :=
    if (position' =? 0) && (length =? size) then q
    else if 0 <? length
         then QStr (substring (Z.to_nat position') (Z.to_nat length) (qchars q))
         else QStr EmptyString in
  if size <? position then QNull
  else if position <? 0 then
    if (n <? 0) || (size <=? n + position) then q
    else if n + position <=? 0 then QNull
    else subset 0 (n + position)
  else if (n <? 0) || (size - position <? n) then subset position (size - position)
  else subset position n.

(** [QString::replace(before, after)] and [QString::remove(s)] for strings
    of one character: every occurrence is replaced (removed). *)
Fixpoint replaceChar (before after : ascii) (s : string) : string :=
  match s with
  | EmptyString => EmptyString
  | String x t =>
      String (if Ascii.eqb x before then after else x) (replaceChar before after t)
  end.

Fixpoint removeChar (c : ascii) (s : string) : string :=
  match s with
  | EmptyString => EmptyString
  | String x t => if Ascii.eqb x c then removeChar c t else String x (removeChar c t)
  end.

(** [QList::value(i)]: the default-constructed value, a null pointer here,
    when [i] is out of bounds. *)
Definition QList_value {A : Type} (l : list A) (i : Z) : option A :=
  if (0 <=? i) && (i <? QList_size l) then nth_error l (Z.to_nat i) else None.

(** ** ControllerPresetFileHandler *)

(** [rootDeviceName]: everything before the first space. *)
Definition rootDeviceName (deviceName : QString) : QString :=
  QString_left deviceName (QString_indexOf deviceName " "%char).

(** * More of the coordinator *)

Section Sequences.

Context {double EffectProcessor EffectChainMixMode : Type}.
Context {RT : Runtime}.

(** A run of [setEffectVisibility] calls, one per pair of the list. *)
Definition setEffectVisibilities
    (m : @EffectsManager double EffectProcessor EffectChainMixMode)
    (requests : list (ManifestRef * bool))
    : @EffectsManager double EffectProcessor EffectChainMixMode :=
  fold_left (fun m' request => setEffectVisibility m' (fst request) (snd request))
            requests m.

(** What the last request of a run asks for a manifest, if any request
    names it. *)
Fixpoint lastRequest (p : ManifestRef) (requests : list (ManifestRef * bool))
    : option bool :=
  match requests with
  | [] => None
  | (q, visible) :: rest =>
      match lastRequest p rest with
      | Some later => Some later
      | None => if Nat.eqb q p then Some visible else None
      end
  end.

(** [getAvailableEffectManifestsFiltered]: a null [filter] is [None]; the
    filter function is handed the manifest object. *)
Definition getAvailableEffectManifestsFiltered
    (m : @EffectsManager double EffectProcessor EffectChainMixMode)
    (filter : option (EffectManifest -> bool)) : list ManifestRef :=
  match filter with
  | None => m_availableEffectManifests m
  | Some accepts =>
      fold_left (fun list pManifest =>
                   if accepts (manifestAt pManifest) then list ++ [pManifest] else list)
                (m_availableEffectManifests m) []
  end.

End Sequences.

Section Coordinator.

Context {double EffectProcessor EffectChainMixMode : Type}.
Context {RT : Runtime}.

Local Notation "'Manager'" := (@EffectsManager double EffectProcessor EffectChainMixMode).

(** [EffectManifest::backendTypeFromString] is declared in a header that is
    not part of the sources. *)
Variable backendTypeFromString : QString -> EffectBackendType.

(** The default value of [adoptMetaknobFromPreset] in the declaration of
    [loadEffect], which is in a header that is not part of the sources. *)
Variable adoptMetaknobFromPreset_default : bool.

(** [operator->] on an [EffectsBackendPointer] *)
Definition derefBackend (pBackend : @EffectsBackendPointer EffectProcessor)
    : outcome (@EffectsBackend EffectProcessor) :=
  match pBackend with
  | Some b => Done b
  | None => Fault NullDereference
  end.

(** [EffectsManager::getManifest(id, backendType)] *)
Definition EffectsManager_getManifest (m : Manager) (effectId : QString)
    (type : EffectBackendType) : outcome EffectManifestPointer :=
  pBackend <- derefBackend (m_effectsBackends m type) ;;
  Done (getManifest pBackend effectId).

Definition getManifestFromUniqueId (m : Manager) (uid : QString)
    : outcome EffectManifestPointer :=
  if isEmpty uid then Done None
  else
    let delimiterIndex := QString_lastIndexOf uid " "%char in
    let type := backendTypeFromString (QString_mid uid (delimiterIndex + 1) (-1)) in
    if EffectBackendType_eqb type Unknown
    then
      pBackend <- derefBackend (m_effectsBackends m BuiltIn) ;;
      Done (getManifest pBackend uid)
    else
      pBackend <- derefBackend (m_effectsBackends m type) ;;
      Done (getManifest pBackend (QString_mid uid (-1) (delimiterIndex + 1))).

(** [loadStandardEffect]: the chain slot it calls and the call, if any. *)
Definition loadStandardEffect (m : Manager) (iChainSlotNumber iEffectSlotNumber : Z)
    (pManifest : EffectManifestPointer)
    : outcome (option (@EffectChainSlot double EffectProcessor EffectChainMixMode
                       * @ChainSlotCall double EffectProcessor EffectChainMixMode)) :=
  pChainSlot <- getStandardEffectChainSlot m iChainSlotNumber ;;
  match pChainSlot with
  | Some chainSlot =>
      Done (Some (chainSlot,
                  loadEffect m iEffectSlotNumber pManifest None
                             adoptMetaknobFromPreset_default))
  | None => Done None
  end.

(** [loadPresetToStandardChain]: the chain slot it calls and the calls. *)
Definition loadPresetToStandardChain (m : Manager) (chainNumber : Z)
    (pPreset : option (@EffectChainPreset double EffectChainMixMode))
    : outcome (@EffectChainSlot double EffectProcessor EffectChainMixMode
               * list (@ChainSlotCall double EffectProcessor EffectChainMixMode)) :=
  chainSlot <- QList_at (m_standardEffectChainSlots m) chainNumber ;;
  Done (chainSlot, loadEffectChainPreset m true pPreset).

(** The loop of [readEffectsXml] over [data.standardEffectChainPresets],
    with its counter [i]: per preset the chain slot that
    [m_standardEffectChainSlots.value(i)] yields and the calls made on it. *)
Fixpoint readStandardEffectChainPresets (m : Manager) (i : Z)
    (presets : list (option (@EffectChainPreset double EffectChainMixMode)))
    : list (option (@EffectChainSlot double EffectProcessor EffectChainMixMode)
            * list (@ChainSlotCall double EffectProcessor EffectChainMixMode)) :=
  match presets with
  | [] => []
  | pPreset :: rest =>
      let pChainSlot := QList_value (m_standardEffectChainSlots m) i in
      (pChainSlot,
       loadEffectChainPreset m (match pChainSlot with Some _ => true | None => false end)
                             pPreset)
        :: readStandardEffectChainPresets m (i + 1) rest
  end.

(** [QHash::insert] on [m_defaultPresets], keyed by manifest pointer. *)
Definition defaultPresets_insert
    (h : EffectManifestPointer -> @EffectPresetPointer double)
    (pManifest : EffectManifestPointer) (pPreset : @EffectPresetPointer double)
    : EffectManifestPointer -> @EffectPresetPointer double :=
  fun key => if EffectManifestPointer_eqb key pManifest then pPreset else h key.

Definition kEffectDefaultsDirectory : QString := QStr "/effects/defaults".

(** The characters that [saveDefaultForEffect] removes from a file name:
    less-than, greater-than, colon, double quote, single quote, bar,
    question mark, asterisk and backslash. *)
Definition forbiddenCharacters : list ascii :=
  map ascii_of_nat [60; 62; 58; 34; 39; 124; 63; 42; 92]%nat.

(** The local [fileName] of [saveDefaultForEffect] once the loop over the
    forbidden characters is done. *)
Definition defaultFileName (effectId : QString) : string :=
  fold_left (fun fileName character => removeChar character fileName)
            forbiddenCharacters
            (replaceChar "/"%char "-"%char (qchars effectId)).

(** The file that [saveDefaultForEffect] writes, for the settings path of
    the configuration. *)
Definition defaultFilePath (settingsPath : QString) (effectId : QString) : QString :=
  QString_append
    (QString_append
       (QString_append (QString_append settingsPath kEffectDefaultsDirectory) (QStr "/"))
       (QStr (defaultFileName effectId)))
    (QStr ".xml").

(** [saveDefaultForEffect(EffectPresetPointer)]: what it does to the
    coordinator, and the file it then writes (none for an empty preset).
    Creating the directory and writing the document are outside of the
    model. *)
Definition saveDefaultForEffect (m : Manager) (settingsPath : QString)
    (pEffectPreset : @EffectPreset double) : outcome (Manager * option QString) :=
  if preset_isEmpty pEffectPreset then Done (m, None)
  else
    pBackend <- derefBackend (m_effectsBackends m (preset_backendType pEffectPreset)) ;;
    let pManifest := getManifest pBackend (preset_id pEffectPreset) in
    Done ({| m_effectsBackends := m_effectsBackends m;
             m_availableEffectManifests := m_availableEffectManifests m;
             m_visibleEffectManifests := m_visibleEffectManifests m;
             m_pNumEffectsAvailable := m_pNumEffectsAvailable m;
             m_defaultPresets :=
               defaultPresets_insert (m_defaultPresets m) pManifest (Some pEffectPreset);
             m_standardEffectChainSlots := m_standardEffectChainSlots m;
             m_effectChainSlotsByGroup := m_effectChainSlotsByGroup m;
             m_pChainPresetManager := m_pChainPresetManager m;
             emitted := emitted m |},
          Some (defaultFilePath settingsPath (preset_id pEffectPreset))).

End Coordinator.

(** ** Registered channels *)

Section Channels.

(** [ChannelHandleAndGroup] and its [operator==] are declared in a header
    that is not part of the sources. *)
Context {ChannelHandleAndGroup : Type}.
Variable ChannelHandleAndGroup_eqb : ChannelHandleAndGroup -> ChannelHandleAndGroup -> bool.

(** The two [QSet]s of the coordinator, as lists that the code keeps free
    of repetitions. *)
Record RegisteredChannels : Type := {
  m_registeredInputChannels : list ChannelHandleAndGroup;
  m_registeredOutputChannels : list ChannelHandleAndGroup
}.

Definition QSet_contains (set : list ChannelHandleAndGroup) (x : ChannelHandleAndGroup)
    : bool :=
  existsb (ChannelHandleAndGroup_eqb x) set.

(** The [foreach] of [registerInputChannel] over the standard chain slots,
    [chain] counting them: which chain slot is handed which channel. *)
Fixpoint notifyChainSlots {C : Type} (chainSlots : list C) (chain : nat)
    (handle_group : ChannelHandleAndGroup) : list (nat * ChannelHandleAndGroup) :=
  match chainSlots with
  | [] => []
  | _ :: rest => (chain, handle_group) :: notifyChainSlots rest (S chain) handle_group
  end.

(** [registerInputChannel]: the sets afterwards and the
    [registerInputChannel] calls made on the standard chain slots. *)
Definition registerInputChannel {C : Type} (standardEffectChainSlots : list C)
    (r : RegisteredChannels) (handle_group : ChannelHandleAndGroup)
    : RegisteredChannels * list (nat * ChannelHandleAndGroup) :=
  if QSet_contains (m_registeredInputChannels r) handle_group then (r, [])
  else
    ({| m_registeredInputChannels := handle_group :: m_registeredInputChannels r;
        m_registeredOutputChannels := m_registeredOutputChannels r |},
     notifyChainSlots standardEffectChainSlots 0 handle_group).

Definition registerOutputChannel (r : RegisteredChannels)
    (handle_group : ChannelHandleAndGroup) : RegisteredChannels :=
  if QSet_contains (m_registeredOutputChannels r) handle_group then r
  else
    {| m_registeredInputChannels := m_registeredInputChannels r;
       m_registeredOutputChannels := handle_group :: m_registeredOutputChannels r |}.

(** A run of [registerInputChannel] calls: the sets afterwards and all the
    calls made on the standard chain slots, in order. *)
Fixpoint registerInputChannels {C : Type} (standardEffectChainSlots : list C)
    (r : RegisteredChannels) (channels : list ChannelHandleAndGroup)
    : RegisteredChannels * list (nat * ChannelHandleAndGroup) :=
  match channels with
  | [] => (r, [])
  | handle_group :: rest =>
      let (r1, calls1) := registerInputChannel standardEffectChainSlots r handle_group in
      let (r2, calls2) := registerInputChannels standardEffectChainSlots r1 rest in
      (r2, calls1 ++ calls2)
  end.

End Channels.

(** ** The slot a preset entry stands for *)

Section PresetVocabulary.

Context {double EffectProcessor EffectChainMixMode : Type}.
Context {RT : Runtime}.

Variable parameterDefaults : ManifestRef -> list (QString * double).

(** The effect slot that an entry of a chain preset asks for: an empty slot
    for an empty entry and for an entry whose backend is not registered,
    otherwise the slot loaded with the manifest the backend has for the
    entry's id, a processor for it, and the entry's parameter values. *)
Definition entrySlot (m : @EffectsManager double EffectProcessor EffectChainMixMode)
    (e : @EffectPreset double) : @EffectSlot double EffectProcessor :=
  if preset_isEmpty e then emptyEffectSlot
  else
    match m_effectsBackends m (preset_backendType e) with
    | None => emptyEffectSlot
    | Some pBackend =>
        loadedEffectSlot parameterDefaults
          (getManifest pBackend (preset_id e))
          (createProcessor m (getManifest pBackend (preset_id e)))
          (Some e)
    end.

End PresetVocabulary.

(** * A small studio to run the code on *)

Module Studio.

(** Comparison by code points, as [localeAwareCompare] does in the C
    locale. *)
Fixpoint codePointCompare (a b : string) : Z :=
  match a, b with
  | EmptyString, EmptyString => 0
  | EmptyString, String _ _ => -1
  | String _ _, EmptyString => 1
  | String x a', String y b' =>
      let d := Z.of_nat (nat_of_ascii x) - Z.of_nat (nat_of_ascii y) in
      if d =? 0 then codePointCompare a' b' else d
  end.

Definition manifests (p : ManifestRef) : EffectManifest :=
  match p with
  | 0%nat => {| manifest_id := QStr "filter"; manifest_backendType := BuiltIn;
                manifest_displayName := QStr "Filter" |}
  | 1%nat => {| manifest_id := QStr "echo"; manifest_backendType := BuiltIn;
                manifest_displayName := QStr "Echo" |}
  | 2%nat => {| manifest_id := QStr "reverb"; manifest_backendType := BuiltIn;
                manifest_displayName := QStr "Reverb" |}
  | 3%nat => {| manifest_id := QStr "filter"; manifest_backendType := LV2;
                manifest_displayName := QStr "Filter" |}
  | 4%nat => {| manifest_id := QNull; manifest_backendType := BuiltIn;
                manifest_displayName := QStr "Bypass" |}
  | _ => {| manifest_id := QStr "unknown"; manifest_backendType := Unknown;
            manifest_displayName := QStr "Unknown" |}
  end.

#[global] Instance runtime : Runtime :=
  {| manifestAt := manifests;
     localeAwareCompare := fun a b => codePointCompare (qchars a) (qchars b) |}.

Inductive MixMode : Type :=
| DrySlashWet
| DryPlusWet.

Definition Manager : Type := @EffectsManager Z nat MixMode.
Definition Backend : Type := @EffectsBackend nat.
Definition Chain : Type := @EffectChainSlot Z nat MixMode.
Definition Preset : Type := @EffectPreset Z.
Definition ChainPreset : Type := @EffectChainPreset Z MixMode.

(** The built-in backend: two effects, processors numbered by manifest. *)
Definition builtIn : Backend :=
  {| getType := BuiltIn;
     getEffectIds := [QStr "filter"; QStr "echo"];
     getManifest := fun effectId =>
       if QString_eqb effectId (QStr "filter") then Some 0%nat
       else if QString_eqb effectId (QStr "echo") then Some 1%nat
       else None;
     backend_createProcessor := fun pManifest =>
       match pManifest with
       | Some p => Some (100 + p)%nat
       | None => None
       end |}.

Definition echoSlot : @EffectSlot Z nat :=
  {| slot_manifest := Some 1%nat; slot_processor := Some 101%nat; slot_parameters := [] |}.

(** The chain slot of the first effect unit, with three effect slots. *)
Definition unit1 : Chain :=
  {| group := QStr "[EffectRack1_EffectUnit1]";
     effectSlots := [emptyEffectSlot; echoSlot; emptyEffectSlot];
     chain_mixMode := DrySlashWet;
     chain_superParameterDefault := 0;
     chain_superParameter := 0;
     presetName := QNull;
     loadedPresetIndex := -1 |}.

(** A coordinator right after construction, before any backend is added. *)
Definition fresh : Manager :=
  {| m_effectsBackends := fun _ => None;
     m_availableEffectManifests := [];
     m_visibleEffectManifests := [];
     m_pNumEffectsAvailable := 0;
     m_defaultPresets := fun _ => None;
     m_standardEffectChainSlots := [];
     m_effectChainSlotsByGroup := fun _ => None;
     m_pChainPresetManager := {| presetIndex := fun _ => 0 |};
     emitted := [] |}.

(** A coordinator with the built-in backend, four standard chain slots and
    the given visible effects. *)
Definition studio (visible : list ManifestRef) : Manager :=
  {| m_effectsBackends := fun t => if EffectBackendType_eqb t BuiltIn then Some builtIn else None;
     m_availableEffectManifests := [1; 0]%nat;
     m_visibleEffectManifests := visible;
     m_pNumEffectsAvailable := 2;
     m_defaultPresets := fun _ => None;
     m_standardEffectChainSlots := [unit1; unit1; unit1; unit1];
     m_effectChainSlotsByGroup := fun g =>
       if QString_eqb g (QStr "[EffectRack1_EffectUnit1]") then Some unit1 else None;
     m_pChainPresetManager := {| presetIndex := fun _ => 0 |};
     emitted := [] |}.

Definition echoPreset : Preset :=
  {| preset_id := QStr "echo"; preset_backendType := BuiltIn;
     preset_isEmpty := false; preset_parameters := [(QStr "delay_time", 2)] |}.

Definition lv2Preset : Preset :=
  {| preset_id := QStr "filter"; preset_backendType := LV2;
     preset_isEmpty := false; preset_parameters := [] |}.

Definition emptyPreset : Preset :=
  {| preset_id := QNull; preset_backendType := Unknown;
     preset_isEmpty := true; preset_parameters := [] |}.

Definition chainPreset : ChainPreset :=
  {| effectPresets := [emptyPreset; lv2Preset; echoPreset];
     mixMode := DryPlusWet;
     superKnob := 1;
     name := QStr "Echo chamber" |}.

(** The chain slot of a second effect unit, with twelve effect slots, the
    last of them loaded. *)
Definition unit2 : Chain :=
  {| group := QStr "[EffectRack1_EffectUnit2]";
     effectSlots := repeat emptyEffectSlot 11 ++ [echoSlot];
     chain_mixMode := DrySlashWet;
     chain_superParameterDefault := 0;
     chain_superParameter := 0;
     presetName := QNull;
     loadedPresetIndex := -1 |}.

(** The studio with both effect units registered by group. *)
Definition rack : Manager :=
  {| m_effectsBackends := m_effectsBackends (studio []);
     m_availableEffectManifests := m_availableEffectManifests (studio []);
     m_visibleEffectManifests := m_visibleEffectManifests (studio []);
     m_pNumEffectsAvailable := m_pNumEffectsAvailable (studio []);
     m_defaultPresets := m_defaultPresets (studio []);
     m_standardEffectChainSlots := [unit1; unit2];
     m_effectChainSlotsByGroup := fun g =>
       if QString_eqb g (QStr "[EffectRack1_EffectUnit1]") then Some unit1
       else if QString_eqb g (QStr "[EffectRack1_EffectUnit2]") then Some unit2
       else None;
     m_pChainPresetManager := m_pChainPresetManager (studio []);
     emitted := [] |}.

(** The names of the backend types in unique ids. *)
Definition backendTypeFromString (typeName : QString) : EffectBackendType :=
  if QString_eqb typeName (QStr "BuiltIn") then BuiltIn
  else if QString_eqb typeName (QStr "LV2") then LV2
  else Unknown.

End Studio.

(** * Properties *)

(** ** Lists and faults *)

Lemma QList_at_nth (A : Type) (l : list A) (i : nat) (d : A) :
  (i < List.length l)%nat -> QList_at l (Z.of_nat i) = Done (nth i l d).
Proof.
  intros Hi. unfold QList_at, QList_size.
  replace (0 <=? Z.of_nat i) with true by (symmetry; apply Z.leb_le; lia).
  replace (Z.of_nat i <? Z.of_nat (List.length l)) with true
    by (symmetry; apply Z.ltb_lt; lia).
  simpl. rewrite Nat2Z.id.
  rewrite (nth_error_nth' l d Hi). reflexivity.
Qed.

Lemma QList_at_outside (A : Type) (l : list A) (i : Z) :
  i < 0 \/ QList_size l <= i -> QList_at l i = Fault IndexOutOfRange.
Proof.
  intros H. unfold QList_at.
  destruct (0 <=? i) eqn:H0; simpl; [| reflexivity].
  destruct (i <? QList_size l) eqn:H1; [| reflexivity].
  apply Z.leb_le in H0. apply Z.ltb_lt in H1. lia.
Qed.

Lemma QList_at_0 (A : Type) (x : A) (l : list A) : QList_at (x :: l) 0 = Done x.
Proof.
  apply (@QList_at_nth A (x :: l) 0%nat x). simpl. lia.
Qed.

Lemma QList_at_1 (A : Type) (x y : A) (l : list A) : QList_at (x :: y :: l) 1 = Done y.
Proof.
  apply (@QList_at_nth A (x :: y :: l) 1%nat x). simpl. lia.
Qed.

Lemma QList_at_2 (A : Type) (x y z : A) (l : list A) :
  QList_at (x :: y :: z :: l) 2 = Done z.
Proof.
  apply (@QList_at_nth A (x :: y :: z :: l) 2%nat x). simpl. lia.
Qed.

Lemma QList_isEmpty_false (A : Type) (l : list A) :
  l <> [] -> QList_isEmpty l = false /\ (0 < List.length l)%nat.
Proof.
  destruct l as [| x t]; [congruence |]. intros _. simpl. split; [reflexivity | lia].
Qed.

Lemma last_is_nth (A : Type) (l : list A) (d : A) :
  last l d = nth (List.length l - 1) l d.
Proof.
  induction l as [| x t IH]; [reflexivity |].
  destruct t as [| y t']; [reflexivity |].
  change (last (x :: y :: t') d) with (last (y :: t') d). rewrite IH.
  simpl. rewrite Nat.sub_0_r. reflexivity.
Qed.

Lemma nextPosition_cases (n i : nat) :
  (i < n)%nat -> nextPosition n i = if Nat.eqb (S i) n then 0%nat else S i.
Proof.
  intros Hi. unfold nextPosition.
  destruct (Nat.eqb (S i) n) eqn:E.
  - apply Nat.eqb_eq in E. rewrite E. apply Nat.Div0.mod_same.
  - apply Nat.eqb_neq in E. apply Nat.mod_small. lia.
Qed.

Lemma prevPosition_cases (n i : nat) :
  (i < n)%nat -> prevPosition n i = if Nat.eqb i 0 then (n - 1)%nat else (i - 1)%nat.
Proof.
  intros Hi. unfold prevPosition.
  destruct (Nat.eqb i 0) eqn:E.
  - apply Nat.eqb_eq in E. subst i. apply Nat.mod_small. lia.
  - apply Nat.eqb_neq in E.
    replace (i + n - 1)%nat with ((i - 1) + 1 * n)%nat by lia.
    rewrite Nat.Div0.mod_add. apply Nat.mod_small. lia.
Qed.

Lemma prevPosition_nextPosition (n i : nat) :
  (i < n)%nat -> prevPosition n (nextPosition n i) = i.
Proof.
  intros Hi.
  assert (Hn : (nextPosition n i < n)%nat) by (apply Nat.mod_upper_bound; lia).
  rewrite (prevPosition_cases Hn). rewrite (nextPosition_cases Hi).
  destruct (Nat.eqb (S i) n) eqn:E; simpl.
  - apply Nat.eqb_eq in E. lia.
  - lia.
Qed.

Lemma nextPosition_prevPosition (n i : nat) :
  (i < n)%nat -> nextPosition n (prevPosition n i) = i.
Proof.
  intros Hi.
  assert (Hn : (prevPosition n i < n)%nat) by (apply Nat.mod_upper_bound; lia).
  rewrite (nextPosition_cases Hn). rewrite (prevPosition_cases Hi).
  destruct (Nat.eqb i 0) eqn:E.
  - apply Nat.eqb_eq in E. subst i.
    replace (Nat.eqb (S (n - 1)) n) with true by (symmetry; apply Nat.eqb_eq; lia).
    reflexivity.
  - apply Nat.eqb_neq in E.
    replace (Nat.eqb (S (i - 1)) n) with false by (symmetry; apply Nat.eqb_neq; lia).
    lia.
Qed.

(** ** Cyclic traversal of the visible effects *)

Section Traversal.

Context {double EffectProcessor EffectChainMixMode : Type}.
Context {RT : Runtime}.

Local Notation "'Manager'" := (@EffectsManager double EffectProcessor EffectChainMixMode).

Lemma searchEffectId_absent (effectId : QString) (l : list ManifestRef) :
  forall k,
    (forall p, In p l -> QString_eqb effectId (id p) = false) ->
    searchEffectId effectId l k = k + Z.of_nat (List.length l).
Proof.
  induction l as [| p t IH]; intros k Habs; simpl.
  - lia.
  - rewrite (Habs p (or_introl eq_refl)).
    rewrite IH by (intros q Hq; apply Habs; right; exact Hq). lia.
Qed.

Lemma searchEffectId_first (effectId : QString) (l : list ManifestRef) :
  forall i k,
    firstOccurrence effectId l i ->
    searchEffectId effectId l k = k + Z.of_nat i.
Proof.
  induction l as [| p t IH]; intros i k (Hi & Hhit & Hmiss); simpl in Hi.
  - lia.
  - destruct i as [| i'].
    + simpl in Hhit. simpl. rewrite Hhit. lia.
    + assert (H0 := Hmiss 0%nat ltac:(lia)). simpl in H0.
      simpl. rewrite H0.
      rewrite (IH i' (k + 1)).
      * lia.
      * repeat split.
        -- lia.
        -- exact Hhit.
        -- intros j Hj. apply (Hmiss (S j)). lia.
Qed.

Lemma getNextEffectId_at (m : Manager) (effectId : QString) (i : nat) :
  isNull effectId = false ->
  firstOccurrence effectId (m_visibleEffectManifests m) i ->
  getNextEffectId m effectId =
    Done (id (nth (nextPosition (List.length (m_visibleEffectManifests m)) i)
                  (m_visibleEffectManifests m) 0%nat)).
Proof.
  intros Hnull Hocc. unfold getNextEffectId.
  destruct Hocc as (Hi & Hrest).
  assert (Hne : m_visibleEffectManifests m <> []).
  { intros E. rewrite E in Hi. simpl in Hi. lia. }
  destruct (QList_isEmpty_false Hne) as [-> _]. rewrite Hnull.
  rewrite (@searchEffectId_first effectId _ i 0) by (split; assumption).
  rewrite (nextPosition_cases Hi). unfold QList_size.
  destruct (Nat.eqb (S i) (List.length (m_visibleEffectManifests m))) eqn:E.
  - apply Nat.eqb_eq in E.
    replace (0 + Z.of_nat i + 1 >=? Z.of_nat (List.length (m_visibleEffectManifests m)))
      with true by (symmetry; apply Z.geb_le; lia).
    rewrite (@QList_at_nth ManifestRef _ 0%nat 0%nat) by lia. reflexivity.
  - apply Nat.eqb_neq in E.
    replace (0 + Z.of_nat i + 1 >=? Z.of_nat (List.length (m_visibleEffectManifests m)))
      with false by (symmetry; rewrite Z.geb_leb; apply Z.leb_gt; lia).
    replace (0 + Z.of_nat i + 1) with (Z.of_nat (S i)) by lia.
    rewrite (@QList_at_nth ManifestRef _ (S i) 0%nat) by lia. reflexivity.
Qed.

Lemma getPrevEffectId_at (m : Manager) (effectId : QString) (i : nat) :
  isNull effectId = false ->
  firstOccurrence effectId (m_visibleEffectManifests m) i ->
  getPrevEffectId m effectId =
    Done (id (nth (prevPosition (List.length (m_visibleEffectManifests m)) i)
                  (m_visibleEffectManifests m) 0%nat)).
Proof.
  intros Hnull Hocc. unfold getPrevEffectId.
  destruct Hocc as (Hi & Hrest).
  assert (Hne : m_visibleEffectManifests m <> []).
  { intros E. rewrite E in Hi. simpl in Hi. lia. }
  destruct (QList_isEmpty_false Hne) as [-> _]. rewrite Hnull.
  rewrite (@searchEffectId_first effectId _ i 0) by (split; assumption).
  rewrite (prevPosition_cases Hi). unfold QList_size.
  destruct (Nat.eqb i 0) eqn:E.
  - apply Nat.eqb_eq in E. subst i.
    replace (0 + Z.of_nat 0 - 1 <? 0) with true by reflexivity.
    replace (Z.of_nat (List.length (m_visibleEffectManifests m)) - 1)
      with (Z.of_nat (List.length (m_visibleEffectManifests m) - 1)) by lia.
    rewrite (@QList_at_nth ManifestRef _ _ 0%nat) by lia. reflexivity.
  - apply Nat.eqb_neq in E.
    replace (0 + Z.of_nat i - 1 <? 0) with false by (symmetry; apply Z.ltb_ge; lia).
    replace (0 + Z.of_nat i - 1) with (Z.of_nat (i - 1)) by lia.
    rewrite (@QList_at_nth ManifestRef _ _ 0%nat) by lia. reflexivity.
Qed.

Lemma getNextEffectId_null (m : Manager) :
  m_visibleEffectManifests m <> [] ->
  getNextEffectId m QNull = Done (id (hd 0%nat (m_visibleEffectManifests m))).
Proof.
  intros Hne. unfold getNextEffectId, QList_first.
  destruct (m_visibleEffectManifests m) as [| p t]; [congruence |]. reflexivity.
Qed.

Lemma getPrevEffectId_null (m : Manager) :
  m_visibleEffectManifests m <> [] ->
  getPrevEffectId m QNull = Done (id (last (m_visibleEffectManifests m) 0%nat)).
Proof.
  intros Hne. unfold getPrevEffectId, QList_last, QList_size.
  destruct (QList_isEmpty_false Hne) as [-> Hlen]. simpl isNull. cbv iota.
  replace (Z.of_nat (List.length (m_visibleEffectManifests m)) - 1)
    with (Z.of_nat (List.length (m_visibleEffectManifests m) - 1)) by lia.
  rewrite (@QList_at_nth ManifestRef _ _ 0%nat) by lia.
  rewrite last_is_nth. reflexivity.
Qed.

Lemma distinctIds_firstOccurrence (visible : list ManifestRef) (i : nat) :
  distinctIds visible ->
  (i < List.length visible)%nat ->
  firstOccurrence (id (nth i visible 0%nat)) visible i.
Proof.
  intros Hdist Hi. repeat split.
  - exact Hi.
  - unfold QString_eqb. apply String.eqb_refl.
  - intros j Hj.
    destruct (QString_eqb (id (nth i visible 0%nat)) (id (nth j visible 0%nat))) eqn:E;
      [| reflexivity].
    apply Hdist in E; lia.
Qed.

Lemma iterateNextEffectId_position (m : Manager) :
  distinctIds (m_visibleEffectManifests m) ->
  (forall p, In p (m_visibleEffectManifests m) -> isNull (id p) = false) ->
  forall k i,
    (i < List.length (m_visibleEffectManifests m))%nat ->
    iterateNextEffectId m k (id (nth i (m_visibleEffectManifests m) 0%nat)) =
      Done (id (nth ((i + k) mod List.length (m_visibleEffectManifests m))
                    (m_visibleEffectManifests m) 0%nat)).
Proof.
  intros Hdist Hnn. induction k as [| k IH]; intros i Hi.
  - simpl. rewrite Nat.add_0_r. rewrite Nat.mod_small by exact Hi. reflexivity.
  - simpl.
    rewrite (@getNextEffectId_at m _ i).
    + simpl. rewrite IH by (apply Nat.mod_upper_bound; lia).
      unfold nextPosition. rewrite Nat.Div0.add_mod_idemp_l.
      replace (S i + k)%nat with (i + S k)%nat by lia. reflexivity.
    + apply Hnn. apply nth_In. exact Hi.
    + apply distinctIds_firstOccurrence; assumption.
Qed.

(** C10. When the visible list is not empty and [effectId] is a non-null
    id that no visible manifest has, [getNextEffectId] returns the id of the
    first visible manifest and [getPrevEffectId] the id of the last one:
    the search runs off the end of the list and the index wraps. *)
Theorem unknown_effect_id_selects_the_ends (m : Manager) (effectId : QString) :
  m_visibleEffectManifests m <> [] ->
  isNull effectId = false ->
  (forall p, In p (m_visibleEffectManifests m) -> QString_eqb effectId (id p) = false) ->
  getNextEffectId m effectId = Done (id (hd 0%nat (m_visibleEffectManifests m)))
  /\ getPrevEffectId m effectId = Done (id (last (m_visibleEffectManifests m) 0%nat)).
Proof.
  intros Hne Hnull Habs.
  destruct (QList_isEmpty_false Hne) as [Hemp Hlen].
  unfold getNextEffectId, getPrevEffectId.
  rewrite Hemp, Hnull, (@searchEffectId_absent effectId _ 0 Habs). unfold QList_size.
  split.
  - replace (0 + Z.of_nat (List.length (m_visibleEffectManifests m)) + 1
               >=? Z.of_nat (List.length (m_visibleEffectManifests m)))
      with true by (symmetry; apply Z.geb_le; lia).
    rewrite (@QList_at_nth ManifestRef _ 0%nat 0%nat) by lia.
    destruct (m_visibleEffectManifests m); [congruence | reflexivity].
  - replace (0 + Z.of_nat (List.length (m_visibleEffectManifests m)) - 1 <? 0)
      with false by (symmetry; apply Z.ltb_ge; lia).
    replace (0 + Z.of_nat (List.length (m_visibleEffectManifests m)) - 1)
      with (Z.of_nat (List.length (m_visibleEffectManifests m) - 1)) by lia.
    rewrite (@QList_at_nth ManifestRef _ _ 0%nat) by lia.
    rewrite last_is_nth. reflexivity.
Qed.

(** C6, as the code has it. [getNextEffectId] and [getPrevEffectId] walk the
    visible list cyclically in its order: on an empty visible list both
    return the null id; a null id argument makes [getNextEffectId] return
    the id of the first visible manifest and [getPrevEffectId] the id of the
    last one; for a non-null id whose first occurrence in the list is at
    position [i], [getNextEffectId] returns the id at position [i+1]
    (wrapping from the last position to the first) and [getPrevEffectId]
    the id at position [i-1] (wrapping from the first position to the
    last). *)
Theorem traversal_follows_first_occurrence (m : Manager) :
  (m_visibleEffectManifests m = [] ->
     forall effectId,
       getNextEffectId m effectId = Done QNull
       /\ getPrevEffectId m effectId = Done QNull)
  /\ (m_visibleEffectManifests m <> [] ->
        getNextEffectId m QNull = Done (id (hd 0%nat (m_visibleEffectManifests m)))
        /\ getPrevEffectId m QNull = Done (id (last (m_visibleEffectManifests m) 0%nat)))
  /\ (forall effectId i,
        isNull effectId = false ->
        firstOccurrence effectId (m_visibleEffectManifests m) i ->
        getNextEffectId m effectId =
          Done (id (nth (nextPosition (List.length (m_visibleEffectManifests m)) i)
                        (m_visibleEffectManifests m) 0%nat))
        /\ getPrevEffectId m effectId =
             Done (id (nth (prevPosition (List.length (m_visibleEffectManifests m)) i)
                           (m_visibleEffectManifests m) 0%nat))).
Proof.
  split; [| split].
  - intros Hempty effectId. unfold getNextEffectId, getPrevEffectId.
    rewrite Hempty. split; reflexivity.
  - intros Hne. split.
    + apply getNextEffectId_null; exact Hne.
    + apply getPrevEffectId_null; exact Hne.
  - intros effectId i Hnull Hocc. split.
    + apply getNextEffectId_at; assumption.
    + apply getPrevEffectId_at; assumption.
Qed.

(** C7, as the code has it. When the ids of the visible manifests are
    pairwise distinct and none of them is null, then for the id [x] at any
    position of the list: [getNextEffectId] applied as many times as the
    list is long leads from [x] back to [x], and [getPrevEffectId] undoes
    [getNextEffectId] and the other way round. *)
Theorem traversal_is_a_cycle (m : Manager) (i : nat) :
  distinctIds (m_visibleEffectManifests m) ->
  (forall p, In p (m_visibleEffectManifests m) -> isNull (id p) = false) ->
  (i < List.length (m_visibleEffectManifests m))%nat ->
  iterateNextEffectId m (List.length (m_visibleEffectManifests m))
                      (id (nth i (m_visibleEffectManifests m) 0%nat))
    = Done (id (nth i (m_visibleEffectManifests m) 0%nat))
  /\ (next <- getNextEffectId m (id (nth i (m_visibleEffectManifests m) 0%nat)) ;;
      getPrevEffectId m next)
       = Done (id (nth i (m_visibleEffectManifests m) 0%nat))
  /\ (prev <- getPrevEffectId m (id (nth i (m_visibleEffectManifests m) 0%nat)) ;;
      getNextEffectId m prev)
       = Done (id (nth i (m_visibleEffectManifests m) 0%nat)).
Proof.
  intros Hdist Hnn Hi.
  assert (Hpos : forall j, (j < List.length (m_visibleEffectManifests m))%nat ->
            isNull (id (nth j (m_visibleEffectManifests m) 0%nat)) = false
            /\ firstOccurrence (id (nth j (m_visibleEffectManifests m) 0%nat))
                               (m_visibleEffectManifests m) j).
  { intros j Hj. split.
    - apply Hnn. apply nth_In. exact Hj.
    - apply distinctIds_firstOccurrence; assumption. }
  split; [| split].
  - rewrite (@iterateNextEffectId_position m Hdist Hnn _ i Hi).
    replace (i + List.length (m_visibleEffectManifests m))%nat
      with (i + 1 * List.length (m_visibleEffectManifests m))%nat by lia.
    rewrite Nat.Div0.mod_add. rewrite Nat.mod_small by exact Hi. reflexivity.
  - destruct (Hpos i Hi) as [Hn Ho].
    rewrite (@getNextEffectId_at m _ _ Hn Ho). simpl.
    assert (Hi' : (nextPosition (List.length (m_visibleEffectManifests m)) i
                   < List.length (m_visibleEffectManifests m))%nat)
      by (apply Nat.mod_upper_bound; lia).
    destruct (Hpos _ Hi') as [Hn' Ho'].
    rewrite (@getPrevEffectId_at m _ _ Hn' Ho').
    rewrite prevPosition_nextPosition by exact Hi. reflexivity.
  - destruct (Hpos i Hi) as [Hn Ho].
    rewrite (@getPrevEffectId_at m _ _ Hn Ho). simpl.
    assert (Hi' : (prevPosition (List.length (m_visibleEffectManifests m)) i
                   < List.length (m_visibleEffectManifests m))%nat)
      by (apply Nat.mod_upper_bound; lia).
    destruct (Hpos _ Hi') as [Hn' Ho'].
    rewrite (@getNextEffectId_at m _ _ Hn' Ho').
    rewrite nextPosition_prevPosition by exact Hi. reflexivity.
Qed.

End Traversal.

(** ** Sorting and binary search under a strict weak order *)

Section Ordering.

Variable A : Type.
Variable comp : A -> A -> bool.

Hypothesis comp_asym : forall x y, comp x y = true -> comp y x = false.
Hypothesis comp_negtrans :
  forall x y z, comp x y = false -> comp y z = false -> comp x z = false.

Local Notation "'notBefore'" := (notBeforeBy comp).
Local Notation "'ordered'" := (orderedBy comp).

Lemma sort_insert_perm (x : A) (l : list A) : Permutation (x :: l) (sort_insert comp x l).
Proof.
  induction l as [| y t IH]; simpl.
  - apply Permutation_refl.
  - destruct (comp x y).
    + apply Permutation_refl.
    + eapply perm_trans; [apply perm_swap |]. apply perm_skip. exact IH.
Qed.

Lemma std_sort_perm (l : list A) : Permutation l (std_sort comp l).
Proof.
  induction l as [| x t IH]; simpl.
  - apply perm_nil.
  - eapply perm_trans; [apply perm_skip; exact IH |]. apply sort_insert_perm.
Qed.

Lemma sort_insert_ordered (x : A) (l : list A) :
  ordered l -> ordered (sort_insert comp x l).
Proof.
  unfold orderedBy. induction l as [| y t IH]; intros Hs; simpl.
  - constructor; constructor.
  - apply StronglySorted_inv in Hs. destruct Hs as [Ht Hy].
    destruct (comp x y) eqn:E.
    + constructor.
      * constructor; assumption.
      * constructor.
        -- apply comp_asym; exact E.
        -- rewrite Forall_forall in *. intros z Hz.
           unfold notBeforeBy. apply comp_negtrans with y.
           ++ apply Hy; exact Hz.
           ++ apply comp_asym; exact E.
    + constructor.
      * apply IH; exact Ht.
      * rewrite Forall_forall in *. intros z Hz.
        apply Permutation_in with (l' := x :: t) in Hz;
          [| apply Permutation_sym; apply sort_insert_perm].
        destruct Hz as [<- | Hz]; [exact E | apply Hy; exact Hz].
Qed.

Lemma std_sort_ordered (l : list A) : ordered (std_sort comp l).
Proof.
  induction l as [| x t IH]; simpl.
  - constructor.
  - apply sort_insert_ordered; exact IH.
Qed.

Lemma ordered_app (l1 l2 : list A) :
  ordered l1 -> ordered l2 ->
  (forall x y, In x l1 -> In y l2 -> notBefore x y) ->
  ordered (l1 ++ l2).
Proof.
  unfold orderedBy. induction l1 as [| a t IH]; intros H1 H2 Hx; simpl.
  - exact H2.
  - apply StronglySorted_inv in H1. destruct H1 as [Ht Ha].
    constructor.
    + apply IH; [exact Ht | exact H2 |].
      intros x y Hin Hy. apply Hx; [right; exact Hin | exact Hy].
    + apply Forall_app. split; [exact Ha |].
      rewrite Forall_forall. intros y Hy. apply Hx; [left; reflexivity | exact Hy].
Qed.

Lemma ordered_app_inv (l1 l2 : list A) :
  ordered (l1 ++ l2) ->
  ordered l1 /\ ordered l2 /\ (forall x y, In x l1 -> In y l2 -> notBefore x y).
Proof.
  unfold orderedBy. induction l1 as [| a t IH]; simpl; intros Hs.
  - repeat split; [constructor | exact Hs | intros x y []].
  - apply StronglySorted_inv in Hs. destruct Hs as [Ht Ha].
    destruct (IH Ht) as (H1 & H2 & Hx).
    apply Forall_app in Ha. destruct Ha as [Ha1 Ha2].
    repeat split.
    + constructor; assumption.
    + exact H2.
    + intros x y [<- | Hin] Hy.
      * rewrite Forall_forall in Ha2. apply Ha2; exact Hy.
      * apply Hx; assumption.
Qed.

(** An ordered list splits, for any [value], into the elements that sort
    before [value] and the rest. *)
Lemma ordered_partition (value : A) (l : list A) :
  ordered l ->
  exists l1 l2,
    l = l1 ++ l2
    /\ Forall (fun x => comp x value = true) l1
    /\ Forall (fun x => comp x value = false) l2.
Proof.
  unfold orderedBy. induction l as [| a t IH]; intros Hs.
  - exists [], []. repeat split; constructor.
  - apply StronglySorted_inv in Hs. destruct Hs as [Ht Ha].
    destruct (comp a value) eqn:E.
    + destruct (IH Ht) as (l1 & l2 & -> & H1 & H2).
      exists (a :: l1), l2. repeat split; [constructor; assumption | exact H2].
    + exists [], (a :: t). repeat split; [constructor |].
      constructor; [exact E |].
      rewrite Forall_forall in *. intros z Hz.
      apply comp_negtrans with a; [apply Ha; exact Hz | exact E].
Qed.

(** The binary search finds the end of the part that sorts before [value]. *)
Lemma lower_bound_loop_partition (value : A) (l1 l2 : list A) :
  Forall (fun x => comp x value = true) l1 ->
  Forall (fun x => comp x value = false) l2 ->
  forall fuel first len,
    (len <= fuel)%nat ->
    (first <= List.length l1)%nat ->
    (List.length l1 <= first + len)%nat ->
    (first + len <= List.length (l1 ++ l2))%nat ->
    lower_bound_loop fuel (l1 ++ l2) value comp first len = List.length l1.
Proof.
  intros H1 H2. induction fuel as [| fuel IH]; intros first len Hfuel Hlo Hhi Hend; simpl.
  - lia.
  - destruct (Nat.eqb len 0) eqn:E0.
    + apply Nat.eqb_eq in E0. lia.
    + apply Nat.eqb_neq in E0.
      assert (Hhalf : (Nat.div2 len < len)%nat) by (apply Nat.lt_div2; lia).
      set (half := Nat.div2 len) in *. clearbody half.
      destruct (nth_error (l1 ++ l2) (first + half)) as [x |] eqn:Ex.
      * destruct (comp x value) eqn:Ec.
        -- apply IH; try lia.
           destruct (Nat.lt_ge_cases (first + half) (List.length l1)) as [Hlt | Hge];
             [lia |].
           rewrite nth_error_app2 in Ex by exact Hge.
           apply nth_error_In in Ex. rewrite Forall_forall in H2.
           rewrite (H2 x Ex) in Ec. discriminate.
        -- apply IH; try lia.
           destruct (Nat.lt_ge_cases (first + half) (List.length l1)) as [Hlt | Hge];
             [| lia].
           rewrite nth_error_app1 in Ex by exact Hlt.
           apply nth_error_In in Ex. rewrite Forall_forall in H1.
           rewrite (H1 x Ex) in Ec. discriminate.
      * apply nth_error_None in Ex. lia.
Qed.

Lemma std_lower_bound_partition (value : A) (l1 l2 : list A) :
  Forall (fun x => comp x value = true) l1 ->
  Forall (fun x => comp x value = false) l2 ->
  std_lower_bound (l1 ++ l2) value comp = List.length l1.
Proof.
  intros H1 H2. unfold std_lower_bound.
  apply lower_bound_loop_partition; try assumption; try lia.
  rewrite length_app. lia.
Qed.

(** Inserting at the lower bound keeps an ordered list ordered. *)
Lemma insert_at_lower_bound (value : A) (l : list A) :
  ordered l ->
  exists l1 l2,
    l = l1 ++ l2
    /\ QList_insert l (std_lower_bound l value comp) value = l1 ++ value :: l2
    /\ ordered (l1 ++ value :: l2).
Proof.
  intros Hs. destruct (ordered_partition value Hs) as (l1 & l2 & -> & H1 & H2).
  exists l1, l2. split; [reflexivity |].
  rewrite (std_lower_bound_partition H1 H2).
  unfold QList_insert. rewrite firstn_app, skipn_app, firstn_all, skipn_all.
  rewrite Nat.sub_diag. simpl. rewrite app_nil_r. split; [reflexivity |].
  destruct (ordered_app_inv _ _ Hs) as (Ho1 & Ho2 & Hx).
  apply ordered_app.
  - exact Ho1.
  - constructor; [exact Ho2 |]. exact H2.
  - intros x y Hin [<- | Hy].
    + unfold notBeforeBy. apply comp_asym. rewrite Forall_forall in H1. apply H1; exact Hin.
    + apply Hx; assumption.
Qed.

(** The positional reading of [ordered]. *)
Lemma ordered_nth (d : A) (l : list A) :
  ordered l <->
  (forall i j, (i < j)%nat -> (j < List.length l)%nat -> comp (nth j l d) (nth i l d) = false).
Proof.
  unfold orderedBy. split.
  - intros Hs. induction Hs as [| a t Ht IH Ha]; intros i j Hij Hj; simpl in Hj.
    + lia.
    + destruct j as [| j']; [lia |]. destruct i as [| i']; simpl.
      * rewrite Forall_forall in Ha. apply Ha. apply nth_In. lia.
      * apply IH; lia.
  - induction l as [| a t IH]; intros Hn.
    + constructor.
    + constructor.
      * apply IH. intros i j Hij Hj. apply (Hn (S i) (S j)); simpl; lia.
      * rewrite Forall_forall. intros z Hz.
        destruct (In_nth t z d Hz) as (k & Hk & <-).
        apply (Hn 0%nat (S k)); simpl; lia.
Qed.

End Ordering.

(** ** The catalogue and the visible list *)

Section Catalogue.

Context {double EffectProcessor EffectChainMixMode : Type}.
Context {RT : Runtime}.

Local Notation "'Manager'" := (@EffectsManager double EffectProcessor EffectChainMixMode).

(** What is assumed of Qt's [localeAwareCompare]: it compares by a total
    preorder, as a collation does. *)
Hypothesis localeAwareCompare_asym :
  forall a b, localeAwareCompare a b < 0 -> 0 <= localeAwareCompare b a.
Hypothesis localeAwareCompare_negtrans :
  forall a b c,
    0 <= localeAwareCompare a b -> 0 <= localeAwareCompare b c ->
    0 <= localeAwareCompare a c.

Lemma alphabetize_asym (x y : ManifestRef) :
  alphabetizeEffectManifests x y = true -> alphabetizeEffectManifests y x = false.
Proof.
  unfold alphabetizeEffectManifests.
  destruct (backendTypeToInt (backendType x) - backendTypeToInt (backendType y) =? 0) eqn:E;
    destruct (backendTypeToInt (backendType y) - backendTypeToInt (backendType x) =? 0) eqn:E';
    rewrite ?Z.eqb_eq, ?Z.eqb_neq in *; rewrite ?Z.ltb_lt, ?Z.ltb_ge; try lia.
  apply localeAwareCompare_asym.
Qed.

Lemma alphabetize_negtrans (x y z : ManifestRef) :
  alphabetizeEffectManifests x y = false ->
  alphabetizeEffectManifests y z = false ->
  alphabetizeEffectManifests x z = false.
Proof.
  unfold alphabetizeEffectManifests.
  destruct (backendTypeToInt (backendType x) - backendTypeToInt (backendType y) =? 0) eqn:E;
    destruct (backendTypeToInt (backendType y) - backendTypeToInt (backendType z) =? 0) eqn:E';
    destruct (backendTypeToInt (backendType x) - backendTypeToInt (backendType z) =? 0) eqn:E'';
    rewrite ?Z.eqb_eq, ?Z.eqb_neq in *; rewrite ?Z.ltb_ge; try lia.
  apply localeAwareCompare_negtrans.
Qed.

Lemma catalogueOrdered_ordered (l : list ManifestRef) :
  catalogueOrdered l <-> orderedBy alphabetizeEffectManifests l.
Proof.
  unfold catalogueOrdered. symmetry. apply ordered_nth.
Qed.

Lemma backendTypeToInt_inj (a b : EffectBackendType) :
  backendTypeToInt a = backendTypeToInt b -> a = b.
Proof.
  destruct a, b; simpl; intros E; try reflexivity; discriminate.
Qed.

(** The comparator orders the catalogue as its description says. *)
Lemma catalogueOrdered_reading (l : list ManifestRef) :
  catalogueOrdered l <-> builtInFirstThenByName l.
Proof.
  unfold catalogueOrdered, builtInFirstThenByName, alphabetizeEffectManifests.
  split; intros H i j Hij Hj; specialize (H i j Hij Hj).
  - destruct (Z.eqb_spec (backendTypeToInt (backendType (nth j l 0%nat))
                          - backendTypeToInt (backendType (nth i l 0%nat))) 0) as [E | E].
    + apply Z.ltb_ge in H. split; [lia | intros _; exact H].
    + apply Z.ltb_ge in H. split; [lia |].
      intros Et. rewrite Et in E. lia.
  - destruct H as [Hle Hname].
    destruct (Z.eqb_spec (backendTypeToInt (backendType (nth j l 0%nat))
                          - backendTypeToInt (backendType (nth i l 0%nat))) 0) as [E | E].
    + apply Z.ltb_ge. apply Hname. apply backendTypeToInt_inj. lia.
    + apply Z.ltb_ge. lia.
Qed.

Lemma QList_contains_In (l : list ManifestRef) (p : ManifestRef) :
  QList_contains l p = true <-> In p l.
Proof.
  unfold QList_contains. rewrite existsb_exists. split.
  - intros (q & Hq & E). apply Nat.eqb_eq in E. subst q. exact Hq.
  - intros Hin. exists p. split; [exact Hin | apply Nat.eqb_refl].
Qed.

Lemma QList_removeOne_In (l : list ManifestRef) (p q : ManifestRef) :
  In q (QList_removeOne l p) -> In q l.
Proof.
  induction l as [| a t IH]; simpl; [tauto |].
  destruct (Nat.eqb a p); simpl; [tauto |].
  intros [<- | H]; [left; reflexivity | right; apply IH; exact H].
Qed.

Lemma QList_removeOne_ordered (l : list ManifestRef) (p : ManifestRef) :
  orderedBy alphabetizeEffectManifests l ->
  orderedBy alphabetizeEffectManifests (QList_removeOne l p).
Proof.
  unfold orderedBy. induction l as [| a t IH]; intros Hs; simpl.
  - constructor.
  - apply StronglySorted_inv in Hs. destruct Hs as [Ht Ha].
    destruct (Nat.eqb a p); [exact Ht |].
    constructor; [apply IH; exact Ht |].
    rewrite Forall_forall in *. intros z Hz. apply Ha.
    apply QList_removeOne_In with p. exact Hz.
Qed.

Lemma QList_removeOne_count (l : list ManifestRef) (p q : ManifestRef) :
  count_occ Nat.eq_dec (QList_removeOne l p) q =
    if Nat.eqb q p then Nat.pred (count_occ Nat.eq_dec l q) else count_occ Nat.eq_dec l q.
Proof.
  induction l as [| a t IH]; simpl.
  - destruct (Nat.eqb q p); reflexivity.
  - destruct (Nat.eqb a p) eqn:Eap.
    + apply Nat.eqb_eq in Eap. subst a.
      destruct (Nat.eq_dec p q) as [-> | Hne].
      * rewrite Nat.eqb_refl. reflexivity.
      * replace (Nat.eqb q p) with false by (symmetry; apply Nat.eqb_neq; congruence).
        reflexivity.
    + apply Nat.eqb_neq in Eap. simpl. rewrite IH.
      destruct (Nat.eq_dec a q) as [-> | Hne].
      * replace (Nat.eqb q p) with false by (symmetry; apply Nat.eqb_neq; congruence).
        reflexivity.
      * reflexivity.
Qed.

(** What [setEffectVisibility] does to the visible list and to the signals,
    whatever the list was: a manifest that is to be shown and is not in the
    list yet is put at its lower bound, a manifest that is to be hidden
    loses its first occurrence, and [visibleEffectsUpdated] is emitted on
    every call except the one that shows a manifest already in the list. *)
Lemma setEffectVisibility_cases (m : Manager) (pManifest : ManifestRef) (visible : bool) :
  let old := m_visibleEffectManifests m in
  let m' := setEffectVisibility m pManifest visible in
  (visible = true -> In pManifest old -> m' = m)
  /\ (visible = true -> ~ In pManifest old ->
        m_visibleEffectManifests m' =
          QList_insert old (std_lower_bound old pManifest alphabetizeEffectManifests) pManifest
        /\ emitted m' = emitted m ++ [visibleEffectsUpdated])
  /\ (visible = false ->
        m_visibleEffectManifests m' = QList_removeOne old pManifest
        /\ emitted m' = emitted m ++ [visibleEffectsUpdated]).
Proof.
  cbv zeta. unfold setEffectVisibility. split; [| split].
  - intros -> Hin. apply QList_contains_In in Hin. rewrite Hin. reflexivity.
  - intros -> Hnin.
    destruct (QList_contains (m_visibleEffectManifests m) pManifest) eqn:E.
    + apply QList_contains_In in E. contradiction.
    + simpl. split; reflexivity.
  - intros ->. simpl. split; reflexivity.
Qed.

(** On an ordered visible list without repetitions, [setEffectVisibility]
    makes the manifest a member exactly when [visible] is set, and the list
    stays ordered and without repetitions. *)
Lemma setEffectVisibility_keeps_order (m : Manager) (pManifest : ManifestRef)
    (visible : bool) :
  builtInFirstThenByName (m_visibleEffectManifests m) ->
  NoDup (m_visibleEffectManifests m) ->
  let m' := setEffectVisibility m pManifest visible in
  builtInFirstThenByName (m_visibleEffectManifests m')
  /\ NoDup (m_visibleEffectManifests m')
  /\ (In pManifest (m_visibleEffectManifests m') <-> visible = true)
  /\ (forall q, q <> pManifest ->
        (In q (m_visibleEffectManifests m') <-> In q (m_visibleEffectManifests m))).
Proof.
  intros Hord Hnd. cbv zeta.
  destruct (setEffectVisibility_cases m pManifest visible) as (Hkeep & Hshow & Hhide).
  cbv zeta in Hkeep, Hshow, Hhide.
  assert (Hback : forall l, orderedBy alphabetizeEffectManifests l ->
                            builtInFirstThenByName l)
    by (intros l Hl; apply catalogueOrdered_reading, catalogueOrdered_ordered; exact Hl).
  apply catalogueOrdered_reading, catalogueOrdered_ordered in Hord.
  destruct visible.
  - destruct (in_dec Nat.eq_dec pManifest (m_visibleEffectManifests m)) as [Hin | Hnin].
    + rewrite (Hkeep eq_refl Hin).
      split; [apply Hback; exact Hord |]. split; [exact Hnd |].
      split; [tauto |]. intros q _. tauto.
    + destruct (Hshow eq_refl Hnin) as [-> _].
      destruct (insert_at_lower_bound alphabetize_asym alphabetize_negtrans pManifest Hord)
        as (l1 & l2 & El & -> & Hord').
      rewrite El in Hnd, Hnin. rewrite El.
      split; [apply Hback; exact Hord' |]. split; [| split].
      * apply Permutation_NoDup with (l := pManifest :: l1 ++ l2);
          [apply Permutation_middle |].
        constructor; assumption.
      * split; [reflexivity | intros _; apply in_elt].
      * intros q Hq. split; intros Hin.
        -- apply in_app_or in Hin. apply in_or_app.
           destruct Hin as [Hin | [Hin | Hin]];
             [left; exact Hin | congruence | right; exact Hin].
        -- apply in_app_or in Hin. apply in_or_app.
           destruct Hin as [Hin | Hin]; [left; exact Hin | right; right; exact Hin].
  - destruct (Hhide eq_refl) as [-> _].
    assert (Hcount : forall q,
              count_occ Nat.eq_dec (QList_removeOne (m_visibleEffectManifests m) pManifest) q
              = if Nat.eqb q pManifest
                then Nat.pred (count_occ Nat.eq_dec (m_visibleEffectManifests m) q)
                else count_occ Nat.eq_dec (m_visibleEffectManifests m) q)
      by (intros q; apply QList_removeOne_count).
    assert (Hone : forall q, (count_occ Nat.eq_dec (m_visibleEffectManifests m) q <= 1)%nat)
      by (apply NoDup_count_occ; exact Hnd).
    split; [apply Hback; apply QList_removeOne_ordered; exact Hord |].
    split; [| split].
    + apply (NoDup_count_occ Nat.eq_dec). intros q. rewrite Hcount.
      specialize (Hone q). destruct (Nat.eqb q pManifest); lia.
    + split; [| discriminate].
      intros Hin. apply (count_occ_In Nat.eq_dec) in Hin. rewrite Hcount in Hin.
      rewrite Nat.eqb_refl in Hin. specialize (Hone pManifest). lia.
    + intros q Hq. split; [apply QList_removeOne_In |].
      intros Hin. apply (count_occ_In Nat.eq_dec). rewrite Hcount.
      replace (Nat.eqb q pManifest) with false by (symmetry; apply Nat.eqb_neq; exact Hq).
      apply (count_occ_In Nat.eq_dec). exact Hin.
Qed.

Lemma std_sort_count (l : list ManifestRef) (p : ManifestRef) :
  count_occ Nat.eq_dec (std_sort alphabetizeEffectManifests l) p = count_occ Nat.eq_dec l p.
Proof.
  symmetry. apply Permutation_count_occ. apply std_sort_perm.
Qed.

(** C5, as the code has it. For a backend whose effect ids all have a
    manifest, pairwise different ones of which none is in the catalogue yet,
    [addEffectsBackend] returns with each of these manifests exactly once in
    the catalogue; the catalogue is the old one and the new manifests put in
    order, built-in effects before external ones and then by
    locale-aware display name; the published count is the size of the
    catalogue; the backend is registered under its type. A null backend
    changes nothing. *)
Theorem addEffectsBackend_extends_catalogue (m : Manager)
    (b : @EffectsBackend EffectProcessor) (manifests : list ManifestRef) :
  backendManifests b (getEffectIds b) = Done manifests ->
  NoDup manifests ->
  (forall p, In p manifests -> ~ In p (m_availableEffectManifests m)) ->
  (exists m',
     addEffectsBackend m (Some b) = Done m'
     /\ (forall p, In p manifests ->
           count_occ Nat.eq_dec (m_availableEffectManifests m') p = 1%nat)
     /\ Permutation (m_availableEffectManifests m ++ manifests)
                    (m_availableEffectManifests m')
     /\ builtInFirstThenByName (m_availableEffectManifests m')
     /\ m_pNumEffectsAvailable m' = QList_size (m_availableEffectManifests m')
     /\ m_effectsBackends m' (getType b) = Some b)
  /\ addEffectsBackend m None = Done m.
Proof.
  intros Hman Hnd Hfresh. split; [| reflexivity].
  unfold addEffectsBackend. rewrite Hman. simpl.
  eexists. split; [reflexivity |]. simpl.
  split; [| split; [| split; [| split]]].
  - intros p Hp. rewrite std_sort_count, count_occ_app.
    unfold ManifestRef in *.
    assert (H0 := Hfresh p Hp). apply (count_occ_not_In Nat.eq_dec) in H0. rewrite H0.
    assert (H1 := proj1 (NoDup_count_occ' Nat.eq_dec manifests) Hnd p Hp).
    rewrite H1. reflexivity.
  - apply std_sort_perm.
  - apply catalogueOrdered_reading. apply catalogueOrdered_ordered.
    apply std_sort_ordered; [exact alphabetize_asym | exact alphabetize_negtrans].
  - unfold QList_size. f_equal. apply Permutation_length. apply std_sort_perm.
  - unfold QHash_insert, EffectBackendType_eqb. rewrite Z.eqb_refl. reflexivity.
Qed.

Lemma QList_removeOne_absent (l : list ManifestRef) (p : ManifestRef) :
  ~ In p l -> QList_removeOne l p = l.
Proof.
  induction l as [| a t IH]; intros Hnin; simpl; [reflexivity |].
  destruct (Nat.eqb a p) eqn:E.
  - apply Nat.eqb_eq in E. exfalso. apply Hnin. left. exact E.
  - f_equal. apply IH. intros Hin. apply Hnin. right. exact Hin.
Qed.

(** C3, where the code departs from it. Hiding a manifest that is not in
    the visible list leaves the list as it is, and [visibleEffectsUpdated]
    is emitted all the same: the branch for [visible = false] emits without
    looking at what [removeOne] did, while the branch for [visible = true]
    emits only after it has found the manifest missing. *)
Theorem hiding_a_hidden_manifest_still_notifies (m : Manager) (pManifest : ManifestRef) :
  ~ In pManifest (m_visibleEffectManifests m) ->
  m_visibleEffectManifests (setEffectVisibility m pManifest false)
    = m_visibleEffectManifests m
  /\ emitted (setEffectVisibility m pManifest false)
     = emitted m ++ [visibleEffectsUpdated].
Proof.
  intros Hnin.
  destruct (setEffectVisibility_cases m pManifest false) as (_ & _ & Hhide).
  destruct (Hhide eq_refl) as [Hlist Hsig].
  rewrite Hlist, Hsig, (@QList_removeOne_absent _ _ Hnin). split; reflexivity.
Qed.

End Catalogue.

(** ** Loading effects and chain presets *)

Section Presets.

Context {double EffectProcessor EffectChainMixMode : Type}.
Context {RT : Runtime}.

Local Notation "'Manager'" := (@EffectsManager double EffectProcessor EffectChainMixMode).
Local Notation "'Preset'" := (@EffectPreset double).
Local Notation "'Call'" := (@ChainSlotCall double EffectProcessor EffectChainMixMode).

(** C9. [loadEffect] without an explicit preset forwards to the chain slot
    the slot number, the manifest, the default preset cached for the
    manifest and the adopt flag as given, together with a processor that is
    none for a null manifest, none when no backend is registered for the
    manifest's backend type, and otherwise what that backend creates for
    the manifest. *)
Theorem loadEffect_forwards_cached_default (m : Manager) (iEffectSlotNumber : Z)
    (pManifest : EffectManifestPointer) (adoptMetaknobFromPreset : bool) :
  exists pProcessor,
    loadEffect m iEffectSlotNumber pManifest None adoptMetaknobFromPreset =
      ChainSlot_loadEffect iEffectSlotNumber pManifest pProcessor
                           (m_defaultPresets m pManifest) adoptMetaknobFromPreset
    /\ (pManifest = None -> pProcessor = None)
    /\ (forall p, pManifest = Some p ->
          m_effectsBackends m (backendType p) = None -> pProcessor = None)
    /\ (forall p pBackend, pManifest = Some p ->
          m_effectsBackends m (backendType p) = Some pBackend ->
          pProcessor = backend_createProcessor pBackend pManifest).
Proof.
  exists (createProcessor m pManifest). split; [reflexivity |].
  split; [| split].
  - intros ->. reflexivity.
  - intros p -> Hnone. simpl. rewrite Hnone. reflexivity.
  - intros p pBackend -> Hsome. simpl. rewrite Hsome. reflexivity.
Qed.

Lemma loadEffectPresets_calls (m : Manager) (presets : list Preset) :
  forall effectSlot,
    Forall (fun call : Call =>
              isLoadEffect call
              /\ effectSlot <= slotNumberOf call
                 < effectSlot + Z.of_nat (List.length presets))
           (loadEffectPresets m effectSlot presets)
    /\ StronglySorted Z.lt (map slotNumberOf (loadEffectPresets m effectSlot presets)).
Proof.
  induction presets as [| e rest IH]; intros effectSlot.
  - simpl. split; constructor.
  - destruct (IH (effectSlot + 1)) as [Hall Hsorted].
    assert (Hall' : Forall (fun call : Call =>
                      isLoadEffect call
                      /\ effectSlot <= slotNumberOf call
                         < effectSlot + Z.of_nat (List.length (e :: rest)))
                      (loadEffectPresets m (effectSlot + 1) rest)).
    { eapply Forall_impl; [| exact Hall]. simpl List.length.
      intros call [Hload Hrange]. split; [exact Hload | lia]. }
    assert (Hlater : Forall (Z.lt effectSlot)
                       (map slotNumberOf (loadEffectPresets m (effectSlot + 1) rest))).
    { rewrite Forall_map. eapply Forall_impl; [| exact Hall].
      intros call [_ Hrange]. lia. }
    assert (Hhead : forall pManifest (pProcessor : option EffectProcessor)
                           (pPreset : option Preset),
              isLoadEffect (ChainSlot_loadEffect effectSlot pManifest pProcessor
                                                 pPreset true : Call)
              /\ effectSlot <= effectSlot < effectSlot + Z.of_nat (List.length (e :: rest))).
    { intros pManifest pProcessor pPreset. split.
      - exists pManifest, pProcessor, pPreset. reflexivity.
      - simpl List.length. lia. }
    simpl loadEffectPresets.
    destruct (preset_isEmpty e).
    + split; [constructor; [apply Hhead | exact Hall'] |].
      simpl. constructor; assumption.
    + destruct (m_effectsBackends m (preset_backendType e)) as [pBackend |].
      * split; [constructor; [apply Hhead | exact Hall'] |].
        simpl. constructor; assumption.
      * split; assumption.
Qed.

Lemma loadEffectPresets_entry (m : Manager) (presets : list Preset) :
  forall effectSlot i e,
    nth_error presets i = Some e ->
    let calls := loadEffectPresets m effectSlot presets in
    let slot := effectSlot + Z.of_nat i in
    (preset_isEmpty e = true ->
       In (ChainSlot_loadEffect slot None None None true) calls)
    /\ (preset_isEmpty e = false ->
        m_effectsBackends m (preset_backendType e) = None ->
        forall call, In call calls -> slotNumberOf call <> slot)
    /\ (preset_isEmpty e = false ->
        forall pBackend,
          m_effectsBackends m (preset_backendType e) = Some pBackend ->
          In (ChainSlot_loadEffect slot (getManifest pBackend (preset_id e))
                (createProcessor m (getManifest pBackend (preset_id e))) (Some e) true)
             calls).
Proof.
  induction presets as [| e0 rest IH]; intros effectSlot i e Hnth; cbv zeta.
  - destruct i; discriminate.
  - destruct i as [| i'].
    + simpl in Hnth. injection Hnth as ->.
      replace (effectSlot + Z.of_nat 0) with effectSlot by lia.
      destruct (loadEffectPresets_calls m rest (effectSlot + 1)) as [Hall _].
      rewrite Forall_forall in Hall.
      simpl loadEffectPresets. split; [| split].
      * intros ->. left. reflexivity.
      * intros -> ->. intros call Hin. apply Hall in Hin. lia.
      * intros -> pBackend ->. left. reflexivity.
    + simpl in Hnth.
      destruct (IH (effectSlot + 1) i' e Hnth) as (Hempty & Hskip & Hload).
      cbv zeta in Hempty, Hskip, Hload.
      replace (effectSlot + Z.of_nat (S i')) with (effectSlot + 1 + Z.of_nat i') by lia.
      assert (Hsub : forall call : Call,
                In call (loadEffectPresets m (effectSlot + 1) rest) ->
                In call (loadEffectPresets m effectSlot (e0 :: rest))).
      { intros call Hin. simpl.
        destruct (preset_isEmpty e0); [right; exact Hin |].
        destruct (m_effectsBackends m (preset_backendType e0)); [right |]; exact Hin. }
      split; [| split].
      * intros He. apply Hsub. apply Hempty. exact He.
      * intros He Hnone call Hin.
        assert (Hcases : slotNumberOf call = effectSlot
                         \/ In call (loadEffectPresets m (effectSlot + 1) rest)).
        { simpl in Hin. destruct (preset_isEmpty e0).
          - destruct Hin as [<- | Hin]; [left; reflexivity | right; exact Hin].
          - destruct (m_effectsBackends m (preset_backendType e0)).
            + destruct Hin as [<- | Hin]; [left; reflexivity | right; exact Hin].
            + right; exact Hin. }
        destruct Hcases as [-> | Hin']; [lia |].
        apply Hskip; assumption.
      * intros He pBackend Hsome. apply Hsub. apply Hload; assumption.
Qed.

(** C4. Applying a chain preset makes, on the chain slot and in this order:
    the call that clears the slots; then [loadEffect] calls with strictly
    increasing slot numbers, where entry [i] of the preset's effect presets
    accounts for the call with slot number [i] -- an empty entry unloads
    slot [i], an entry whose backend is not registered makes no call for
    slot [i] and does not shift the entries after it, any other entry loads
    its manifest, a processor for it and the entry itself into slot [i];
    and last the five calls that set mix mode, super-parameter default and
    value, preset name and loaded-preset index from the preset. Nothing
    ends the sequence early. *)
Theorem loadEffectChainPreset_sequence (m : Manager)
    (preset : @EffectChainPreset double EffectChainMixMode) :
  exists loads : list Call,
    loadEffectChainPreset m true (Some preset) =
      slotControlClear 1
        :: loads
        ++ [ setMixMode (mixMode preset);
             setSuperParameterDefaultValue (superKnob preset);
             setSuperParameter (superKnob preset);
             setPresetName (name preset);
             setLoadedPresetIndex (presetIndex (m_pChainPresetManager m) preset) ]
    /\ Forall (fun call =>
                 isLoadEffect call
                 /\ 0 <= slotNumberOf call
                      < Z.of_nat (List.length (effectPresets preset))) loads
    /\ StronglySorted Z.lt (map slotNumberOf loads)
    /\ (forall i e,
          nth_error (effectPresets preset) i = Some e ->
          (preset_isEmpty e = true ->
             In (ChainSlot_loadEffect (Z.of_nat i) None None None true) loads)
          /\ (preset_isEmpty e = false ->
              m_effectsBackends m (preset_backendType e) = None ->
              forall call, In call loads -> slotNumberOf call <> Z.of_nat i)
          /\ (preset_isEmpty e = false ->
              forall pBackend,
                m_effectsBackends m (preset_backendType e) = Some pBackend ->
                In (ChainSlot_loadEffect (Z.of_nat i)
                      (getManifest pBackend (preset_id e))
                      (createProcessor m (getManifest pBackend (preset_id e)))
                      (Some e) true)
                   loads)).
Proof.
  exists (loadEffectPresets m 0 (effectPresets preset)).
  split; [reflexivity |].
  destruct (loadEffectPresets_calls m (effectPresets preset) 0) as [Hall Hsorted].
  split; [exact Hall |]. split; [exact Hsorted |].
  intros i e Hnth.
  exact (loadEffectPresets_entry m (effectPresets preset) 0 i Hnth).
Qed.

(** *** Applying a chain preset twice *)

Variable parameterDefaults : ManifestRef -> list (QString * double).
Variable presetSuperValue : Preset -> double.

Local Notation "'Chain'" := (@EffectChainSlot double EffectProcessor EffectChainMixMode).
Local Notation "'call'" := (ChainSlot_call parameterDefaults presetSuperValue).
Local Notation "'calls'" := (ChainSlot_calls parameterDefaults presetSuperValue).

Lemma replaceSlot_length (slots : list (@EffectSlot double EffectProcessor))
    (i : nat) (s : EffectSlot) :
  List.length (replaceSlot slots i s) = List.length slots.
Proof.
  revert i. induction slots as [| s0 rest IH]; intros i; simpl.
  - reflexivity.
  - destruct i; simpl; [reflexivity | rewrite IH; reflexivity].
Qed.

Lemma call_shape (c : Chain) (x : Call) :
  group (call c x) = group c
  /\ List.length (effectSlots (call c x)) = List.length (effectSlots c).
Proof.
  destruct x; simpl; try (split; reflexivity).
  - split; [reflexivity | apply length_map].
  - destruct ((0 <=? iEffectSlotNumber)
              && (iEffectSlotNumber <? QList_size (effectSlots c))); simpl.
    + split; [reflexivity | apply replaceSlot_length].
    + split; reflexivity.
Qed.

Lemma calls_shape (l : list Call) :
  forall c : Chain,
    group (calls c l) = group c
    /\ List.length (effectSlots (calls c l)) = List.length (effectSlots c).
Proof.
  induction l as [| x rest IH]; intros c; simpl.
  - split; reflexivity.
  - destruct (IH (call c x)) as [Hg Hl]. destruct (call_shape c x) as [Hg' Hl'].
    unfold ChainSlot_calls in *. simpl. split; congruence.
Qed.

Lemma call_sameSlots (c c' : Chain) (x : Call) :
  sameSlots c c' -> sameSlots (call c x) (call c' x).
Proof.
  intros [Hg Hs]. unfold sameSlots.
  destruct x; simpl; rewrite ?Hs, ?Hg; try (split; reflexivity).
  destruct ((0 <=? iEffectSlotNumber)
            && (iEffectSlotNumber <? QList_size (effectSlots c'))); simpl;
    rewrite ?Hs, ?Hg; split; reflexivity.
Qed.

Lemma calls_sameSlots (l : list Call) :
  forall c c' : Chain, sameSlots c c' -> sameSlots (calls c l) (calls c' l).
Proof.
  induction l as [| x rest IH]; intros c c' H; simpl.
  - exact H.
  - apply IH. apply call_sameSlots. exact H.
Qed.

Lemma clear_sameSlots (c c' : Chain) (v : Z) :
  group c = group c' ->
  List.length (effectSlots c) = List.length (effectSlots c') ->
  sameSlots (call c (slotControlClear v)) (call c' (slotControlClear v)).
Proof.
  intros Hg Hl. split; simpl; [exact Hg |].
  revert Hl. generalize (effectSlots c') as l'. generalize (effectSlots c) as l.
  induction l as [| s t IH]; intros [| s' t'] Hl; simpl in *; try discriminate.
  - reflexivity.
  - f_equal. apply IH. lia.
Qed.

Lemma calls_cons_app (c : Chain) (x : Call) (l t : list Call) :
  calls c (x :: l ++ t) = calls (calls (call c x) l) t.
Proof.
  unfold ChainSlot_calls. simpl. apply fold_left_app.
Qed.

Lemma setters_sameSlots (s s' : Chain) (mode : EffectChainMixMode) (v v' : double)
    (n : QString) (i : Z) :
  sameSlots s s' ->
  calls s [setMixMode mode; setSuperParameterDefaultValue v; setSuperParameter v';
           setPresetName n; setLoadedPresetIndex i]
  = calls s' [setMixMode mode; setSuperParameterDefaultValue v; setSuperParameter v';
              setPresetName n; setLoadedPresetIndex i].
Proof.
  intros [Hg Hs]. unfold ChainSlot_calls. simpl. rewrite Hg, Hs. reflexivity.
Qed.

(** After a chain preset has been applied, nothing of the chain slot's
    earlier state is left but its group and its number of slots. *)
Lemma applyChainPreset_determined (m : Manager) (c c' : Chain)
    (preset : @EffectChainPreset double EffectChainMixMode) :
  group c = group c' ->
  List.length (effectSlots c) = List.length (effectSlots c') ->
  applyChainPreset parameterDefaults presetSuperValue m c preset =
    applyChainPreset parameterDefaults presetSuperValue m c' preset.
Proof.
  intros Hg Hl. unfold applyChainPreset, loadEffectChainPreset. simpl negb. cbv iota.
  rewrite !calls_cons_app.
  apply setters_sameSlots. apply calls_sameSlots. apply clear_sameSlots; assumption.
Qed.

(** C8. Applying the same chain preset to a chain slot twice in a row
    leaves the chain slot in the same observable state -- per slot the
    manifest and the parameter values, mix mode, super-parameter value,
    preset name and loaded-preset index -- as applying it once. *)
Theorem applyChainPreset_idempotent (m : Manager) (c : Chain)
    (preset : @EffectChainPreset double EffectChainMixMode) :
  observableState
    (applyChainPreset parameterDefaults presetSuperValue m
       (applyChainPreset parameterDefaults presetSuperValue m c preset) preset)
  = observableState (applyChainPreset parameterDefaults presetSuperValue m c preset).
Proof.
  f_equal. apply applyChainPreset_determined.
  - apply calls_shape.
  - apply calls_shape.
Qed.

End Presets.

(** ** Looking up chain slots and effect slots *)

Section Lookup.

Context {double EffectProcessor EffectChainMixMode : Type}.

Local Notation "'Manager'" := (@EffectsManager double EffectProcessor EffectChainMixMode).

(** The test in [getStandardEffectChainSlot] joins its two comparisons
    with [||]: it holds for every [unitNumber], and the list is read at
    [unitNumber] whatever it is. *)
Lemma getStandardEffectChainSlot_unguarded (m : Manager) (unitNumber : Z) :
  getStandardEffectChainSlot m unitNumber =
    (pChainSlot <- QList_at (m_standardEffectChainSlots m) unitNumber ;;
     Done (Some pChainSlot)).
Proof.
  unfold getStandardEffectChainSlot.
  replace ((0 <=? unitNumber)
           || (unitNumber <? QList_size (m_standardEffectChainSlots m))) with true;
    [reflexivity |].
  symmetry. apply orb_true_iff.
  destruct (Z.leb_spec 0 unitNumber) as [H | H]; [left; reflexivity | right].
  apply Z.ltb_lt. unfold QList_size. lia.
Qed.

(** C1, what the code does instead. For every [unitNumber] outside of the
    list of standard chain slots, [getStandardEffectChainSlot] reads the
    list out of bounds; it does not return an empty pointer. *)
Theorem getStandardEffectChainSlot_reads_out_of_bounds (m : Manager) (unitNumber : Z) :
  unitNumber < 0 \/ QList_size (m_standardEffectChainSlots m) <= unitNumber ->
  getStandardEffectChainSlot m unitNumber = Fault IndexOutOfRange.
Proof.
  intros Hout. rewrite getStandardEffectChainSlot_unguarded.
  rewrite (QList_at_outside _ Hout). reflexivity.
Qed.

Lemma parseDigits_bounds (s : string) (acc n : Z) :
  0 <= acc -> parseDigits s acc = Some n -> 0 <= n.
Proof.
  revert acc. induction s as [| c t IH]; cbn [parseDigits]; intros acc Hacc.
  - intros E. injection E as <-. exact Hacc.
  - destruct (isDigit c) eqn:Ec; [| discriminate].
    apply IH. unfold isDigit in Ec. cbv zeta in Ec. apply andb_true_iff in Ec.
    destruct Ec as [Hlo _]. apply Z.leb_le in Hlo. lia.
Qed.

(** [toInt] yields a number from 0 to the largest [int]. *)
Lemma toInt_range (q : QString) : 0 <= toInt q <= INT_MAX.
Proof.
  unfold toInt, INT_MAX. destruct (qchars q) as [| c t]; [lia |].
  destruct (parseDigits (String c t) 0) as [n |] eqn:E; [| lia].
  destruct (Z.leb_spec n 2147483647) as [Hle | Hgt]; [| lia].
  split; [| exact Hle]. apply (@parseDigits_bounds (String c t) 0 n); [lia | exact E].
Qed.

Lemma firstDigitRun_noDigit (s : string) :
  noDigit s = true -> firstDigitRun s = EmptyString.
Proof.
  induction s as [| c t IH]; simpl; [reflexivity |].
  destruct (isDigit c); simpl; [discriminate | exact IH].
Qed.

Lemma parseDigits_digitRun (digits after : string) (acc n : Z) :
  parseDigits digits acc = Some n -> startsWithDigit after = false ->
  digitRun (String.append digits after) = digits.
Proof.
  revert acc. induction digits as [| c t IH]; simpl; intros acc Hparse Hafter.
  - destruct after as [| x rest]; simpl; [reflexivity |].
    simpl in Hafter. rewrite Hafter. reflexivity.
  - destruct (isDigit c); [| discriminate].
    rewrite (IH _ Hparse Hafter). reflexivity.
Qed.

(** What the group captures: when the part is made of a stretch without
    digit, then a run of digits, then a rest that does not go on with a
    digit, it is this run. *)
Lemma firstDigitRun_run (before digits after : string) (d : ascii) (n : Z) :
  noDigit before = true ->
  parseDigits (String d digits) 0 = Some n ->
  startsWithDigit after = false ->
  firstDigitRun (String.append before (String.append (String d digits) after))
  = String d digits.
Proof.
  intros Hbefore Hparse Hafter.
  induction before as [| c t IH]; simpl.
  - simpl in Hparse. destruct (isDigit d); [| discriminate].
    rewrite (@parseDigits_digitRun digits after _ _ Hparse Hafter). reflexivity.
  - simpl in Hbefore. apply andb_true_iff in Hbefore. destruct Hbefore as [Hc Ht].
    apply negb_true_iff in Hc. rewrite Hc. apply IH. exact Ht.
Qed.

(** Of the ways the pattern matches a part -- anything, then one digit or
    more in the group, then anything -- none has a group that starts before
    the first run of digits, and none that starts with it has a longer
    group. *)
Lemma firstDigitRun_earliest_longest (s before digits after : string) :
  s = String.append before (String.append digits after) ->
  digits <> EmptyString ->
  forallb isDigit (list_ascii_of_string digits) = true ->
  exists before0 after0,
    s = String.append before0 (String.append (firstDigitRun s) after0)
    /\ noDigit before0 = true
    /\ (String.length before0 <= String.length before)%nat
    /\ (String.length before0 = String.length before ->
        (String.length digits <= String.length (firstDigitRun s))%nat).
Proof.
  revert before. induction s as [| c t IH]; intros before Hs Hne Hdigits.
  - destruct before; [| discriminate]. destruct digits; [| discriminate].
    contradiction.
  - simpl firstDigitRun. destruct (isDigit c) eqn:Ec.
    + assert (Hrest : exists after0, t = String.append (digitRun t) after0).
      { clear. induction t as [| x r IHr]; simpl; [exists EmptyString; reflexivity |].
        destruct (isDigit x); [| exists (String x r); reflexivity].
        destruct IHr as [after0 Hr]. exists after0. simpl. f_equal. exact Hr. }
      destruct Hrest as [after0 Hrest].
      exists EmptyString, after0. simpl.
      split; [f_equal; exact Hrest |]. split; [reflexivity |]. split; [lia |].
      intros Hlen. destruct before; [| discriminate]. simpl in Hs.
      clear - Hs Hdigits.
      revert c t Hs. induction digits as [| x r IHr]; intros c t Hs; simpl; [lia |].
      simpl in Hs. injection Hs as <- Ht. simpl in Hdigits.
      apply andb_true_iff in Hdigits. destruct Hdigits as [_ Hr].
      destruct r as [| y r'].
      * simpl. lia.
      * simpl in Ht. destruct t as [| c' t']; [discriminate |].
        specialize (IHr Hr c' t' Ht). simpl in IHr.
        simpl in Hr. apply andb_true_iff in Hr. destruct Hr as [Hy _].
        injection Ht as -> _. simpl digitRun. rewrite Hy. simpl. simpl in IHr. lia.
    + destruct before as [| b before'].
      * simpl in Hs. destruct digits as [| x r]; [contradiction |].
        simpl in Hs. injection Hs as <- _. simpl in Hdigits.
        rewrite Ec in Hdigits. discriminate.
      * simpl in Hs. injection Hs as <- Ht.
        destruct (IH before' Ht Hne Hdigits) as [before0 [after0 [H1 [H2 [H3 H4]]]]].
        exists (String c before0), after0. simpl.
        split; [f_equal; exact H1 |]. split; [rewrite Ec; simpl; exact H2 |].
        split; [lia |]. intros Hlen. apply H4. lia.
Qed.

(** The slot number that [getEffectSlot] reads off a part: one less than
    the number its first run of decimal digits writes, where no digit and a
    number beyond the largest [int] both count as 0. *)
Lemma slot_number_of_part (part : QString) :
  -1 <= toInt (intRegEx_cap1 part) - 1 <= INT_MAX - 1
  /\ (noDigit (qchars part) = true -> toInt (intRegEx_cap1 part) - 1 = -1)
  /\ (forall before d digits after number,
        qchars part = String.append before (String.append (String d digits) after) ->
        noDigit before = true ->
        parseDigits (String d digits) 0 = Some number ->
        startsWithDigit after = false ->
        toInt (intRegEx_cap1 part) = if number <=? INT_MAX then number else 0).
Proof.
  split; [| split].
  - pose proof (toInt_range (intRegEx_cap1 part)). lia.
  - intros Hnone. unfold intRegEx_cap1. rewrite (@firstDigitRun_noDigit _ Hnone).
    reflexivity.
  - intros before d digits after number Hpart Hbefore Hparse Hafter.
    unfold intRegEx_cap1. rewrite Hpart.
    rewrite (@firstDigitRun_run before digits after d number Hbefore Hparse Hafter).
    unfold toInt. cbn [qchars]. rewrite Hparse. reflexivity.
Qed.

(** C2, as the code has it. [getEffectSlot] reads the first two parts of the
    group string, and the third one once it has found a chain slot, each
    without looking at the number of parts. So for a group string with at
    least two parts whose chain group (the first two parts joined by the
    separator and closed by a bracket) is not registered, it returns an
    empty effect-slot pointer; and for a group string with at least three
    parts whose chain group is registered, it returns what the bounds-checked
    [getEffectSlot] of that chain slot gives for a slot number taken from
    the third part: one less than the number that the first run of decimal
    digits of the part writes, the run taken whole, where a part without
    digit and a number beyond the largest [int] count as 0. The slot number
    is between -1 and the largest [int] less one, and -1 is no slot. In both
    cases no part is read out of bounds. *)
Theorem getEffectSlot_on_split_parts (m : Manager) (g : QString) :
  (forall part0 part1 rest,
     QString_split g kEffectGroupSeparator = part0 :: part1 :: rest ->
     getEffectChainSlot m
       (QString_append
          (QString_append
             (QString_append part0 (QStr (String kEffectGroupSeparator EmptyString)))
             part1) kGroupClose) = None ->
     getEffectSlot m g = Done None)
  /\ (forall part0 part1 part2 rest pChainSlot,
        QString_split g kEffectGroupSeparator = part0 :: part1 :: part2 :: rest ->
        getEffectChainSlot m
          (QString_append
             (QString_append
                (QString_append part0 (QStr (String kEffectGroupSeparator EmptyString)))
                part1) kGroupClose) = Some pChainSlot ->
        getEffectSlot m g =
          Done (ChainSlot_getEffectSlot pChainSlot (toInt (intRegEx_cap1 part2) - 1))
        /\ -1 <= toInt (intRegEx_cap1 part2) - 1 <= INT_MAX - 1
        /\ (noDigit (qchars part2) = true -> getEffectSlot m g = Done None)
        /\ (forall before d digits after number,
              qchars part2
              = String.append before (String.append (String d digits) after) ->
              noDigit before = true ->
              parseDigits (String d digits) 0 = Some number ->
              startsWithDigit after = false ->
              getEffectSlot m g =
                Done (ChainSlot_getEffectSlot pChainSlot
                        ((if number <=? INT_MAX then number else 0) - 1)))).
Proof.
  split.
  - intros part0 part1 rest Hsplit Hchain. unfold getEffectSlot.
    rewrite Hsplit, QList_at_0, QList_at_1.
    cbv beta iota zeta delta [bind]. rewrite Hchain. reflexivity.
  - intros part0 part1 part2 rest pChainSlot Hsplit Hchain.
    assert (Hget : getEffectSlot m g =
              Done (ChainSlot_getEffectSlot pChainSlot (toInt (intRegEx_cap1 part2) - 1))).
    { unfold getEffectSlot. rewrite Hsplit, QList_at_0, QList_at_1, QList_at_2.
      cbv beta iota zeta delta [bind]. rewrite Hchain. reflexivity. }
    destruct (slot_number_of_part part2) as [Hrange [Hnone Hrun]].
    split; [exact Hget |]. split; [exact Hrange |]. split.
    + intros Hnodigit. rewrite Hget, (Hnone Hnodigit). reflexivity.
    + intros before d digits after number Hpart Hbefore Hparse Hafter.
      rewrite Hget, (Hrun before d digits after number Hpart Hbefore Hparse Hafter).
      reflexivity.
Qed.

End Lookup.

(** * Further properties of the code *)

(** ** Visibility *)

Section VisibilityMore.

Context {double EffectProcessor EffectChainMixMode : Type}.
Context {RT : Runtime}.

Local Notation "'Manager'" := (@EffectsManager double EffectProcessor EffectChainMixMode).

Lemma QList_contains_insert (l : list ManifestRef) (k : nat) (p q : ManifestRef) :
  QList_contains (QList_insert l k p) q = Nat.eqb q p || QList_contains l q.
Proof.
  apply eq_true_iff_eq.
  rewrite orb_true_iff, !QList_contains_In, Nat.eqb_eq.
  assert (Hl : In q l <-> In q (firstn k l) \/ In q (skipn k l)).
  { rewrite <- in_app_iff, firstn_skipn. tauto. }
  unfold QList_insert. rewrite in_app_iff. simpl. rewrite Hl.
  split; intros H; [| destruct H as [H | [H | H]]]; auto.
  destruct H as [H | [H | H]]; auto.
Qed.

Lemma QList_contains_removeOne (l : list ManifestRef) (p q : ManifestRef) :
  q <> p -> QList_contains (QList_removeOne l p) q = QList_contains l q.
Proof.
  intros Hne. unfold QList_contains.
  induction l as [| a t IH]; simpl; [reflexivity |].
  destruct (Nat.eqb a p) eqn:E.
  - apply Nat.eqb_eq in E. subst a.
    replace (Nat.eqb q p) with false by (symmetry; apply Nat.eqb_neq; exact Hne).
    reflexivity.
  - simpl. rewrite IH. reflexivity.
Qed.

Lemma QList_removeOne_app_absent (l1 l2 : list ManifestRef) (p : ManifestRef) :
  ~ In p l1 -> QList_removeOne (l1 ++ p :: l2) p = l1 ++ l2.
Proof.
  induction l1 as [| a t IH]; intros Hnin; simpl.
  - rewrite Nat.eqb_refl. reflexivity.
  - destruct (Nat.eqb a p) eqn:E.
    + apply Nat.eqb_eq in E. exfalso. apply Hnin. left. exact E.
    + f_equal. apply IH. intros Hin. apply Hnin. right. exact Hin.
Qed.

(** The binary search stays inside the list, whatever the list and the
    comparator are. *)
Lemma lower_bound_loop_bound (A : Type) (comp : A -> A -> bool) (value : A) (l : list A) :
  forall fuel first len,
    (first + len <= List.length l)%nat ->
    (lower_bound_loop fuel l value comp first len <= List.length l)%nat.
Proof.
  induction fuel as [| fuel IH]; intros first len Hend; simpl.
  - lia.
  - destruct (Nat.eqb len 0) eqn:E0; [lia |].
    apply Nat.eqb_neq in E0.
    assert (Hhalf : (Nat.div2 len < len)%nat) by (apply Nat.lt_div2; lia).
    set (half := Nat.div2 len) in *. clearbody half.
    destruct (nth_error l (first + half)) as [x |]; [| lia].
    destruct (comp x value); apply IH; lia.
Qed.

Lemma std_lower_bound_bound (A : Type) (comp : A -> A -> bool) (value : A) (l : list A) :
  (std_lower_bound l value comp <= List.length l)%nat.
Proof.
  unfold std_lower_bound. apply lower_bound_loop_bound. lia.
Qed.

(** X1. Reading the visibility back: after [setEffectVisibility] for a
    manifest that is in the visible list at most once,
    [getEffectVisibility] of that manifest is the value that was set, and
    the visibility of every other manifest is what it was. *)
Theorem getEffectVisibility_reads_back (m : Manager) (pManifest : ManifestRef)
    (visible : bool) :
  (count_occ Nat.eq_dec (m_visibleEffectManifests m) pManifest <= 1)%nat ->
  getEffectVisibility (setEffectVisibility m pManifest visible) pManifest = visible
  /\ (forall q, q <> pManifest ->
        getEffectVisibility (setEffectVisibility m pManifest visible) q
        = getEffectVisibility m q).
Proof.
  intros Hone. unfold getEffectVisibility.
  destruct (setEffectVisibility_cases m pManifest visible) as (Hkeep & Hshow & Hhide).
  cbv zeta in Hkeep, Hshow, Hhide.
  destruct visible.
  - destruct (in_dec Nat.eq_dec pManifest (m_visibleEffectManifests m)) as [Hin | Hnin].
    + rewrite (Hkeep eq_refl Hin). split; [| reflexivity].
      apply QList_contains_In. exact Hin.
    + destruct (Hshow eq_refl Hnin) as [-> _]. split.
      * rewrite QList_contains_insert, Nat.eqb_refl. reflexivity.
      * intros q Hq. rewrite QList_contains_insert.
        replace (Nat.eqb q pManifest) with false by (symmetry; apply Nat.eqb_neq; exact Hq).
        reflexivity.
  - destruct (Hhide eq_refl) as [-> _]. split.
    + destruct (QList_contains (QList_removeOne (m_visibleEffectManifests m) pManifest)
                               pManifest) eqn:E; [| reflexivity].
      apply QList_contains_In in E. apply (count_occ_In Nat.eq_dec) in E.
      rewrite QList_removeOne_count, Nat.eqb_refl in E. lia.
    + intros q Hq. apply QList_contains_removeOne. exact Hq.
Qed.

(** X3. Showing a manifest that is not visible and hiding it again gives
    the visible list back as it was, whatever its order; the signal has
    been emitted twice. *)
Theorem show_then_hide_restores_list (m : Manager) (pManifest : ManifestRef) :
  ~ In pManifest (m_visibleEffectManifests m) ->
  m_visibleEffectManifests
    (setEffectVisibility (setEffectVisibility m pManifest true) pManifest false)
    = m_visibleEffectManifests m
  /\ emitted (setEffectVisibility (setEffectVisibility m pManifest true) pManifest false)
     = emitted m ++ [visibleEffectsUpdated; visibleEffectsUpdated].
Proof.
  intros Hnin.
  destruct (setEffectVisibility_cases m pManifest true) as (_ & Hshow & _).
  destruct (Hshow eq_refl Hnin) as [Hlist Hsig].
  destruct (setEffectVisibility_cases (setEffectVisibility m pManifest true) pManifest false)
    as (_ & _ & Hhide).
  destruct (Hhide eq_refl) as [Hlist' Hsig'].
  rewrite Hlist', Hsig', Hlist, Hsig. split.
  - unfold QList_insert. rewrite QList_removeOne_app_absent.
    + apply firstn_skipn.
    + intros Hin. apply Hnin.
      rewrite <- (firstn_skipn
                    (std_lower_bound (m_visibleEffectManifests m) pManifest
                                     alphabetizeEffectManifests)
                    (m_visibleEffectManifests m)).
      apply in_or_app. left. exact Hin.
  - rewrite <- app_assoc. reflexivity.
Qed.

(** X4. Showing a manifest twice is the same as showing it once: the second
    call changes nothing in the coordinator and emits nothing. *)
Theorem showing_twice_is_showing_once (m : Manager) (pManifest : ManifestRef) :
  setEffectVisibility (setEffectVisibility m pManifest true) pManifest true
  = setEffectVisibility m pManifest true.
Proof.
  destruct (setEffectVisibility_cases (setEffectVisibility m pManifest true) pManifest true)
    as (Hkeep & _ & _).
  apply Hkeep; [reflexivity |].
  destruct (setEffectVisibility_cases m pManifest true) as (Hkeep0 & Hshow0 & _).
  destruct (in_dec Nat.eq_dec pManifest (m_visibleEffectManifests m)) as [Hin | Hnin].
  - rewrite (Hkeep0 eq_refl Hin). exact Hin.
  - destruct (Hshow0 eq_refl Hnin) as [-> _]. unfold QList_insert.
    apply in_or_app. right. left. reflexivity.
Qed.

(** X5. Showing a manifest that is not visible puts it between two parts of
    the old list and moves nothing else, also when the list is not in
    catalogue order or the comparison is inconsistent: the binary search
    never leaves the list. *)
Theorem showing_inserts_in_place (m : Manager) (pManifest : ManifestRef) :
  ~ In pManifest (m_visibleEffectManifests m) ->
  exists before after,
    m_visibleEffectManifests m = before ++ after
    /\ m_visibleEffectManifests (setEffectVisibility m pManifest true)
       = before ++ pManifest :: after
    /\ List.length before
       = std_lower_bound (m_visibleEffectManifests m) pManifest alphabetizeEffectManifests.
Proof.
  intros Hnin.
  destruct (setEffectVisibility_cases m pManifest true) as (_ & Hshow & _).
  destruct (Hshow eq_refl Hnin) as [Hlist _]. rewrite Hlist. unfold QList_insert.
  set (k := std_lower_bound (m_visibleEffectManifests m) pManifest
                            alphabetizeEffectManifests).
  exists (firstn k (m_visibleEffectManifests m)), (skipn k (m_visibleEffectManifests m)).
  split; [symmetry; apply firstn_skipn |]. split; [reflexivity |].
  apply firstn_length_le. apply std_lower_bound_bound.
Qed.

End VisibilityMore.

(** ** The catalogue order, once more *)

Section CatalogueMore.

Context {double EffectProcessor EffectChainMixMode : Type}.
Context {RT : Runtime}.

Local Notation "'Manager'" := (@EffectsManager double EffectProcessor EffectChainMixMode).

Hypothesis compare_asym :
  forall a b, localeAwareCompare a b < 0 -> 0 <= localeAwareCompare b a.
Hypothesis compare_negtrans :
  forall a b c,
    0 <= localeAwareCompare a b -> 0 <= localeAwareCompare b c ->
    0 <= localeAwareCompare a c.

(** X7. [alphabetizeEffectManifests] is a strict weak ordering, as
    [std::sort] and [std::lower_bound] require of their comparator, when
    [localeAwareCompare] compares by a total preorder: no manifest sorts
    before itself, sorting before is transitive, and so is being sorted
    neither before nor after. Whatever the names are, a built-in manifest
    sorts before an LV2 one and never after it. *)
Theorem alphabetizeEffectManifests_strict_weak_order :
  (forall x, alphabetizeEffectManifests x x = false)
  /\ (forall x y z,
        alphabetizeEffectManifests x y = true ->
        alphabetizeEffectManifests y z = true ->
        alphabetizeEffectManifests x z = true)
  /\ (forall x y z,
        alphabetizeEffectManifests x y = false /\ alphabetizeEffectManifests y x = false ->
        alphabetizeEffectManifests y z = false /\ alphabetizeEffectManifests z y = false ->
        alphabetizeEffectManifests x z = false /\ alphabetizeEffectManifests z x = false)
  /\ (forall x y,
        backendType x = BuiltIn -> backendType y = LV2 ->
        alphabetizeEffectManifests x y = true /\ alphabetizeEffectManifests y x = false).
Proof.
  assert (Hasym := alphabetize_asym compare_asym).
  assert (Hneg := alphabetize_negtrans compare_negtrans).
  split; [| split; [| split]].
  - intros x. destruct (alphabetizeEffectManifests x x) eqn:E; [| reflexivity].
    rewrite (Hasym x x E) in E. discriminate.
  - intros x y z Hxy Hyz.
    destruct (alphabetizeEffectManifests x z) eqn:E; [reflexivity |].
    rewrite (Hneg x z y E (Hasym y z Hyz)) in Hxy. discriminate.
  - intros x y z [Hxy Hyx] [Hyz Hzy]. split.
    + apply (Hneg x y z); assumption.
    + apply (Hneg z y x); assumption.
  - intros x y Hx Hy. unfold alphabetizeEffectManifests. rewrite Hx, Hy. split; reflexivity.
Qed.

Lemma setEffectVisibilities_cons (m : Manager) (request : ManifestRef * bool)
    (rest : list (ManifestRef * bool)) :
  setEffectVisibilities m (request :: rest)
  = setEffectVisibilities (setEffectVisibility m (fst request) (snd request)) rest.
Proof. reflexivity. Qed.

(** X2. Any run of [setEffectVisibility] calls on a visible list that is in
    catalogue order and free of repetitions leaves it so; and a manifest is
    visible afterwards exactly when the last call that named it asked to
    show it, or, if no call named it, when it was visible before. *)
Theorem visible_list_follows_last_request (m : Manager)
    (requests : list (ManifestRef * bool)) :
  builtInFirstThenByName (m_visibleEffectManifests m) ->
  NoDup (m_visibleEffectManifests m) ->
  builtInFirstThenByName (m_visibleEffectManifests (setEffectVisibilities m requests))
  /\ NoDup (m_visibleEffectManifests (setEffectVisibilities m requests))
  /\ (forall p,
        In p (m_visibleEffectManifests (setEffectVisibilities m requests))
        <-> match lastRequest p requests with
            | Some visible => visible = true
            | None => In p (m_visibleEffectManifests m)
            end).
Proof.
  revert m. induction requests as [| [q visible] rest IH]; intros m Hord Hnd.
  - simpl. split; [exact Hord |]. split; [exact Hnd |]. intros p. tauto.
  - rewrite setEffectVisibilities_cons. simpl fst. simpl snd.
    destruct (setEffectVisibility_keeps_order compare_asym compare_negtrans
                m q visible Hord Hnd) as (Hord1 & Hnd1 & Hq & Hother).
    destruct (IH _ Hord1 Hnd1) as (Hord' & Hnd' & Hmem).
    split; [exact Hord' |]. split; [exact Hnd' |].
    intros p. rewrite Hmem. simpl lastRequest.
    destruct (lastRequest p rest) as [later |]; [tauto |].
    destruct (Nat.eqb q p) eqn:E.
    + apply Nat.eqb_eq in E. subst p. exact Hq.
    + apply Nat.eqb_neq in E. apply Hother. congruence.
Qed.

End CatalogueMore.

Section FilteredCatalogue.

Context {double EffectProcessor EffectChainMixMode : Type}.
Context {RT : Runtime}.

Local Notation "'Manager'" := (@EffectsManager double EffectProcessor EffectChainMixMode).

Lemma filter_loop (accepts : EffectManifest -> bool) (l : list ManifestRef) :
  forall acc,
    fold_left (fun list pManifest =>
                 if accepts (manifestAt pManifest) then list ++ [pManifest] else list)
              l acc
    = acc ++ List.filter (fun p => accepts (manifestAt p)) l.
Proof.
  induction l as [| p t IH]; intros acc; simpl.
  - rewrite app_nil_r. reflexivity.
  - rewrite IH. destruct (accepts (manifestAt p)).
    + rewrite <- app_assoc. reflexivity.
    + reflexivity.
Qed.

Lemma filter_orderedBy (A : Type) (comp : A -> A -> bool) (keep : A -> bool) (l : list A) :
  orderedBy comp l -> orderedBy comp (List.filter keep l).
Proof.
  unfold orderedBy. induction l as [| a t IH]; intros Hs; simpl.
  - constructor.
  - apply StronglySorted_inv in Hs. destruct Hs as [Ht Ha].
    destruct (keep a); [| apply IH; exact Ht].
    constructor; [apply IH; exact Ht |].
    rewrite Forall_forall in *. intros z Hz. apply Ha.
    apply filter_In in Hz. tauto.
Qed.

(** X6. [getAvailableEffectManifestsFiltered] with a null filter returns
    the catalogue. With a filter it returns the manifests of the catalogue
    that the filter accepts, each as often as the catalogue has it, and in
    the order of the catalogue: a catalogue in catalogue order gives a
    filtered list in catalogue order. *)
Theorem filtered_catalogue_keeps_order (m : Manager) (accepts : EffectManifest -> bool) :
  getAvailableEffectManifestsFiltered m None = m_availableEffectManifests m
  /\ (forall p,
        count_occ Nat.eq_dec (getAvailableEffectManifestsFiltered m (Some accepts)) p
        = if accepts (manifestAt p)
          then count_occ Nat.eq_dec (m_availableEffectManifests m) p
          else 0%nat)
  /\ (builtInFirstThenByName (m_availableEffectManifests m) ->
      builtInFirstThenByName (getAvailableEffectManifestsFiltered m (Some accepts))).
Proof.
  split; [reflexivity |].
  unfold getAvailableEffectManifestsFiltered. rewrite filter_loop. simpl app.
  split.
  - intros p. induction (m_availableEffectManifests m) as [| a t IH]; simpl.
    + destruct (accepts (manifestAt p)); reflexivity.
    + destruct (accepts (manifestAt a)) eqn:Ea; simpl; destruct (Nat.eq_dec a p) as [-> | Hne].
      * rewrite IH, Ea. reflexivity.
      * exact IH.
      * rewrite IH, Ea. reflexivity.
      * exact IH.
  - intros Hord.
    apply catalogueOrdered_reading, catalogueOrdered_ordered.
    apply filter_orderedBy.
    apply catalogueOrdered_ordered, catalogueOrdered_reading. exact Hord.
Qed.

End FilteredCatalogue.

(** ** Traversal, once more *)

Section TraversalMore.

Context {double EffectProcessor EffectChainMixMode : Type}.
Context {RT : Runtime}.

Local Notation "'Manager'" := (@EffectsManager double EffectProcessor EffectChainMixMode).

Lemma searchEffectId_range (effectId : QString) (l : list ManifestRef) :
  forall k, k <= searchEffectId effectId l k <= k + Z.of_nat (List.length l).
Proof.
  induction l as [| p t IH]; intros k; simpl.
  - lia.
  - destruct (QString_eqb effectId (id p)); [lia |].
    specialize (IH (k + 1)). lia.
Qed.

Lemma QList_at_in_range (l : list ManifestRef) (i : Z) :
  0 <= i < Z.of_nat (List.length l) ->
  exists p, In p l /\ QList_at l i = Done p.
Proof.
  intros Hi. exists (nth (Z.to_nat i) l 0%nat). split.
  - apply nth_In. lia.
  - rewrite <- (Z2Nat.id i) at 1 by lia.
    apply (@QList_at_nth ManifestRef l (Z.to_nat i) 0%nat). lia.
Qed.

(** X12. [getNextEffectId] and [getPrevEffectId] never read the visible
    list out of bounds: for every id, known or not, null or not, they
    return, and when the visible list is not empty what they return is the
    id of a visible manifest. *)
Theorem traversal_stays_in_the_list (m : Manager) (effectId : QString) :
  m_visibleEffectManifests m <> [] ->
  (exists p, In p (m_visibleEffectManifests m)
             /\ getNextEffectId m effectId = Done (id p))
  /\ (exists p, In p (m_visibleEffectManifests m)
                /\ getPrevEffectId m effectId = Done (id p)).
Proof.
  intros Hne. destruct (QList_isEmpty_false Hne) as [Hemp Hlen].
  unfold getNextEffectId, getPrevEffectId, QList_first, QList_last, QList_size.
  rewrite Hemp.
  assert (Hrange := searchEffectId_range effectId (m_visibleEffectManifests m) 0).
  set (n := Z.of_nat (List.length (m_visibleEffectManifests m))) in *.
  assert (Hn : 0 < n) by (unfold n; lia).
  set (index := searchEffectId effectId (m_visibleEffectManifests m) 0) in *.
  split.
  - destruct (isNull effectId).
    + destruct (@QList_at_in_range (m_visibleEffectManifests m) 0) as (p & Hin & ->);
        [fold n; lia |].
      exists p. split; [exact Hin | reflexivity].
    + destruct (index + 1 >=? n) eqn:E.
      * destruct (@QList_at_in_range (m_visibleEffectManifests m) 0) as (p & Hin & ->);
          [fold n; lia |].
        exists p. split; [exact Hin | reflexivity].
      * rewrite Z.geb_leb in E. apply Z.leb_gt in E.
        destruct (@QList_at_in_range (m_visibleEffectManifests m) (index + 1))
          as (p & Hin & ->); [fold n; lia |].
        exists p. split; [exact Hin | reflexivity].
  - destruct (isNull effectId).
    + destruct (@QList_at_in_range (m_visibleEffectManifests m) (n - 1)) as (p & Hin & ->);
        [fold n; lia |].
      exists p. split; [exact Hin | reflexivity].
    + destruct (index - 1 <? 0) eqn:E.
      * destruct (@QList_at_in_range (m_visibleEffectManifests m) (n - 1))
          as (p & Hin & ->); [fold n; lia |].
        exists p. split; [exact Hin | reflexivity].
      * apply Z.ltb_ge in E.
        destruct (@QList_at_in_range (m_visibleEffectManifests m) (index - 1))
          as (p & Hin & ->); [fold n; lia |].
        exists p. split; [exact Hin | reflexivity].
Qed.

End TraversalMore.

(** ** Strings *)

Lemma substring_0_0 (s : string) : substring 0 0 s = EmptyString.
Proof. destruct s; reflexivity. Qed.

Lemma substring_0_length (s : string) : substring 0 (String.length s) s = s.
Proof.
  induction s as [| x t IH]; simpl; [reflexivity | rewrite IH; reflexivity].
Qed.

Lemma substring_0_app (a b : string) :
  substring 0 (String.length a) (String.append a b) = a.
Proof.
  induction a as [| x t IH]; simpl.
  - apply substring_0_0.
  - rewrite IH. reflexivity.
Qed.

Lemma substring_skip_app (a b : string) (n : nat) :
  substring (String.length a) n (String.append a b) = substring 0 n b.
Proof.
  induction a as [| x t IH]; simpl; [reflexivity | exact IH].
Qed.

Lemma length_append (a b : string) :
  String.length (String.append a b) = (String.length a + String.length b)%nat.
Proof.
  induction a as [| x t IH]; simpl; [reflexivity | rewrite IH; reflexivity].
Qed.

Lemma indexOfChar_found (c : ascii) (s : string) (i : nat) :
  indexOfChar c s = Some i ->
  (i < String.length s)%nat
  /\ indexOfChar c (substring 0 i s) = None
  /\ exists rest, s = String.append (substring 0 i s) (String c rest).
Proof.
  revert i. induction s as [| x t IH]; intros i; simpl; [discriminate |].
  destruct (Ascii.eqb x c) eqn:E.
  - intros H. injection H as <-. apply Ascii.eqb_eq in E. subst x.
    split; [lia |]. split; [reflexivity |]. exists t. reflexivity.
  - destruct (indexOfChar c t) as [i' |] eqn:Et; [| discriminate].
    intros H. injection H as <-.
    destruct (IH i' eq_refl) as (Hlt & Hnone & rest & Hrest).
    split; [lia |]. split.
    + simpl. rewrite E, Hnone. reflexivity.
    + exists rest. simpl. rewrite <- Hrest. reflexivity.
Qed.

(** X18. [rootDeviceName] returns the part of the device name before its
    first space: the result has no space in it, the device name is the
    result followed by nothing or by a space and more, a name without a
    space is returned as it is, and applying the function again changes
    nothing. *)
Theorem rootDeviceName_is_the_part_before_the_first_space (deviceName : QString) :
  indexOfChar " "%char (qchars (rootDeviceName deviceName)) = None
  /\ (rootDeviceName deviceName = deviceName
      \/ exists rest,
           qchars deviceName
           = String.append (qchars (rootDeviceName deviceName)) (String " "%char rest))
  /\ (indexOfChar " "%char (qchars deviceName) = None ->
      rootDeviceName deviceName = deviceName)
  /\ rootDeviceName (rootDeviceName deviceName) = rootDeviceName deviceName.
Proof.
  assert (Hnone : forall q, indexOfChar " "%char (qchars q) = None -> rootDeviceName q = q).
  { intros q H. unfold rootDeviceName, QString_indexOf. rewrite H. reflexivity. }
  assert (Hcases :
            (indexOfChar " "%char (qchars deviceName) = None
             /\ rootDeviceName deviceName = deviceName)
            \/ (exists i rest,
                  rootDeviceName deviceName = QStr (substring 0 i (qchars deviceName))
                  /\ indexOfChar " "%char (substring 0 i (qchars deviceName)) = None
                  /\ qchars deviceName
                     = String.append (substring 0 i (qchars deviceName))
                                     (String " "%char rest))).
  { destruct (indexOfChar " "%char (qchars deviceName)) as [i |] eqn:E.
    - right. destruct (indexOfChar_found _ _ E) as (Hlt & Hsub & rest & Hrest).
      exists i, rest. split; [| split; assumption].
      unfold rootDeviceName, QString_indexOf, QString_left, QString_size. rewrite E.
      replace (Z.of_nat i <? 0) with false by (symmetry; apply Z.ltb_ge; lia).
      replace (Z.of_nat i >=? Z.of_nat (String.length (qchars deviceName))) with false
        by (symmetry; rewrite Z.geb_leb; apply Z.leb_gt; lia).
      simpl. rewrite Nat2Z.id. reflexivity.
    - left. split; [reflexivity | apply Hnone; exact E]. }
  destruct Hcases as [[Hno Heq] | (i & rest & Heq & Hsub & Hrest)].
  - rewrite Heq. split; [exact Hno |]. split; [left; reflexivity |].
    split; [intros _; reflexivity | apply Hnone; exact Hno].
  - rewrite Heq. simpl qchars. split; [exact Hsub |].
    split; [right; exists rest; exact Hrest |].
    split; [intros Hno; rewrite <- Heq; apply Hnone; exact Hno |].
    apply Hnone. exact Hsub.
Qed.

Lemma removeChar_chars (c : ascii) (s : string) :
  list_ascii_of_string (removeChar c s)
  = List.filter (fun x => negb (Ascii.eqb x c)) (list_ascii_of_string s).
Proof.
  induction s as [| x t IH]; simpl; [reflexivity |].
  destruct (Ascii.eqb x c); simpl; rewrite IH; reflexivity.
Qed.

Lemma replaceChar_chars (before after : ascii) (s : string) :
  list_ascii_of_string (replaceChar before after s)
  = map (fun x => if Ascii.eqb x before then after else x) (list_ascii_of_string s).
Proof.
  induction s as [| x t IH]; simpl; [reflexivity | rewrite IH; reflexivity].
Qed.

Lemma removeChars_chars (cs : list ascii) :
  forall s,
    list_ascii_of_string
      (fold_left (fun fileName character => removeChar character fileName) cs s)
    = List.filter (fun x => negb (existsb (Ascii.eqb x) cs)) (list_ascii_of_string s).
Proof.
  induction cs as [| c rest IH]; intros s; simpl.
  - symmetry. apply forallb_filter_id. apply forallb_forall. reflexivity.
  - rewrite IH, removeChar_chars.
    induction (list_ascii_of_string s) as [| x t IHl]; simpl; [reflexivity |].
    destruct (Ascii.eqb x c); simpl.
    + exact IHl.
    + destruct (existsb (Ascii.eqb x) rest); simpl; rewrite IHl; reflexivity.
Qed.

(** X11. The file name that [saveDefaultForEffect] makes from an effect id
    is the id with every slash turned into a dash and every character among
    less-than, greater-than, colon, the two quotes, bar, question mark,
    asterisk and backslash left out, all other characters kept in their
    order: no slash and none of these characters is in the file name. *)
Theorem defaultFileName_is_clean (effectId : QString) :
  list_ascii_of_string (defaultFileName effectId)
  = List.filter (fun c => negb (existsb (Ascii.eqb c) forbiddenCharacters))
      (map (fun c => if Ascii.eqb c "/"%char then "-"%char else c)
           (list_ascii_of_string (qchars effectId)))
  /\ (forall c, In c (list_ascii_of_string (defaultFileName effectId)) ->
        c <> "/"%char /\ ~ In c forbiddenCharacters).
Proof.
  assert (Hchars :
            list_ascii_of_string (defaultFileName effectId)
            = List.filter (fun c => negb (existsb (Ascii.eqb c) forbiddenCharacters))
                (map (fun c => if Ascii.eqb c "/"%char then "-"%char else c)
                     (list_ascii_of_string (qchars effectId)))).
  { unfold defaultFileName. rewrite removeChars_chars, replaceChar_chars. reflexivity. }
  split; [exact Hchars |].
  intros c Hin. rewrite Hchars in Hin. apply filter_In in Hin. destruct Hin as [Hmap Hkeep].
  split.
  - apply in_map_iff in Hmap. destruct Hmap as (x & Hx & _).
    destruct (Ascii.eqb x "/"%char) eqn:E.
    + subst c. discriminate.
    + subst c. apply Ascii.eqb_neq. exact E.
  - intros Hforbidden. apply negb_true_iff in Hkeep.
    assert (Hex : existsb (Ascii.eqb c) forbiddenCharacters = true).
    { apply existsb_exists. exists c. split; [exact Hforbidden | apply Ascii.eqb_refl]. }
    rewrite Hex in Hkeep. discriminate.
Qed.

(** ** Manifests by unique id, defaults, standard chains *)

Lemma lastIndexOfChar_app (c : ascii) (a t : string) :
  lastIndexOfChar c t = None ->
  lastIndexOfChar c (String.append a (String c t)) = Some (String.length a).
Proof.
  intros Ht. induction a as [| x a' IH]; simpl.
  - rewrite Ht, Ascii.eqb_refl. reflexivity.
  - rewrite IH. reflexivity.
Qed.

Section CoordinatorMore.

Context {double EffectProcessor EffectChainMixMode : Type}.
Context {RT : Runtime}.

Local Notation "'Manager'" := (@EffectsManager double EffectProcessor EffectChainMixMode).

Variable backendTypeFromString : QString -> EffectBackendType.
Variable adoptMetaknobFromPreset_default : bool.

(** X8. A unique id made of an effect id, a space and the name of a
    backend type (which has no space in it) is taken apart again: when the
    name stands for a backend type other than Unknown and a backend of that
    type is registered, [getManifestFromUniqueId] returns what that backend
    has for exactly the effect id, also when the effect id has spaces in
    it; an empty effect id is handed over as the null string. *)
Theorem getManifestFromUniqueId_splits_at_last_space (m : Manager)
    (effectId typeName : string) (pBackend : @EffectsBackend EffectProcessor) :
  lastIndexOfChar " "%char typeName = None ->
  EffectBackendType_eqb (backendTypeFromString (QStr typeName)) Unknown = false ->
  m_effectsBackends m (backendTypeFromString (QStr typeName)) = Some pBackend ->
  getManifestFromUniqueId backendTypeFromString m
    (QStr (String.append effectId (String " "%char typeName)))
  = Done (getManifest pBackend
            (match effectId with
             | EmptyString => QNull
             | String _ _ => QStr effectId
             end)).
Proof.
  intros Hspace Hknown Hbackend. unfold getManifestFromUniqueId.
  assert (Hnonempty : isEmpty (QStr (String.append effectId (String " "%char typeName)))
                      = false)
    by (unfold isEmpty; simpl; destruct effectId; reflexivity).
  rewrite Hnonempty. unfold QString_lastIndexOf. simpl qchars.
  rewrite (lastIndexOfChar_app _ effectId _ Hspace).
  set (uid := String.append effectId (String " "%char typeName)).
  assert (Hsize : QString_size (QStr uid)
                  = Z.of_nat (String.length effectId) + 1
                    + Z.of_nat (String.length typeName)).
  { unfold QString_size, uid. simpl qchars. rewrite length_append. simpl. lia. }
  assert (Htype : QString_mid (QStr uid) (Z.of_nat (String.length effectId) + 1) (-1)
                  = QStr typeName).
  { unfold QString_mid. rewrite Hsize.
    replace (Z.of_nat (String.length effectId) + 1 + Z.of_nat (String.length typeName)
             <? Z.of_nat (String.length effectId) + 1) with false
      by (symmetry; apply Z.ltb_ge; lia).
    replace (Z.of_nat (String.length effectId) + 1 <? 0) with false
      by (symmetry; apply Z.ltb_ge; lia).
    simpl orb. cbv iota.
    replace (Z.of_nat (String.length effectId) + 1 =? 0) with false
      by (symmetry; apply Z.eqb_neq; lia).
    simpl andb. cbv iota.
    replace (Z.of_nat (String.length effectId) + 1 + Z.of_nat (String.length typeName)
             - (Z.of_nat (String.length effectId) + 1))
      with (Z.of_nat (String.length typeName)) by lia.
    destruct typeName as [| x t]; [reflexivity |].
    replace (0 <? Z.of_nat (String.length (String x t))) with true
      by (symmetry; apply Z.ltb_lt; simpl; lia).
    f_equal. simpl qchars. rewrite Nat2Z.id.
    replace (Z.to_nat (Z.of_nat (String.length effectId) + 1))
      with (String.length (String.append effectId (String " "%char EmptyString)))
      by (rewrite length_append; simpl; lia).
    unfold uid.
    replace (String.append effectId (String " "%char (String x t)))
      with (String.append (String.append effectId (String " "%char EmptyString))
                          (String x t)).
    - rewrite substring_skip_app. apply substring_0_length.
    - clear. induction effectId as [| y e IH]; simpl; [reflexivity |].
      rewrite IH. reflexivity. }
  assert (Hid : QString_mid (QStr uid) (-1) (Z.of_nat (String.length effectId) + 1)
                = match effectId with
                  | EmptyString => QNull
                  | String _ _ => QStr effectId
                  end).
  { unfold QString_mid. rewrite Hsize.
    replace (Z.of_nat (String.length effectId) + 1 + Z.of_nat (String.length typeName)
             <? -1) with false by (symmetry; apply Z.ltb_ge; lia).
    replace (-1 <? 0) with true by reflexivity.
    replace (Z.of_nat (String.length effectId) + 1 <? 0) with false
      by (symmetry; apply Z.ltb_ge; lia).
    replace (Z.of_nat (String.length effectId) + 1 + -1)
      with (Z.of_nat (String.length effectId)) by lia.
    replace (Z.of_nat (String.length effectId) + 1 + Z.of_nat (String.length typeName)
             <=? Z.of_nat (String.length effectId)) with false
      by (symmetry; apply Z.leb_gt; lia).
    simpl orb. cbv iota.
    destruct effectId as [| y e]; [reflexivity |].
    replace (Z.of_nat (String.length (String y e)) <=? 0) with false
      by (symmetry; apply Z.leb_gt; simpl; lia).
    replace (Z.of_nat (String.length (String y e))
             =? Z.of_nat (String.length (String y e)) + 1
                + Z.of_nat (String.length typeName)) with false
      by (symmetry; apply Z.eqb_neq; lia).
    simpl andb. cbv iota.
    replace (0 <? Z.of_nat (String.length (String y e))) with true
      by (symmetry; apply Z.ltb_lt; simpl; lia).
    f_equal. simpl qchars. rewrite Nat2Z.id. unfold uid.
    change (Z.to_nat 0) with 0%nat. apply substring_0_app. }
  rewrite Htype, Hknown, Hbackend, Hid. reflexivity.
Qed.

(** The other ways through [getManifestFromUniqueId]: an empty unique
    id gives the null manifest without any backend being asked; a unique id
    whose part after the last space (the whole of it when it has no space)
    names no known backend type is looked up unchanged in the built-in
    backend; and in both lookups a backend that is not registered is
    dereferenced all the same, which is a fault. *)
Theorem getManifestFromUniqueId_fallbacks (m : Manager) (uid : QString) :
  (isEmpty uid = true -> getManifestFromUniqueId backendTypeFromString m uid = Done None)
  /\ (isEmpty uid = false ->
      backendTypeFromString
        (QString_mid uid (QString_lastIndexOf uid " "%char + 1) (-1)) = Unknown ->
      (forall builtIn, m_effectsBackends m BuiltIn = Some builtIn ->
         getManifestFromUniqueId backendTypeFromString m uid
         = Done (getManifest builtIn uid))
      /\ (m_effectsBackends m BuiltIn = None ->
          getManifestFromUniqueId backendTypeFromString m uid = Fault NullDereference))
  /\ (isEmpty uid = false ->
      backendTypeFromString
        (QString_mid uid (QString_lastIndexOf uid " "%char + 1) (-1)) <> Unknown ->
      m_effectsBackends m
        (backendTypeFromString
           (QString_mid uid (QString_lastIndexOf uid " "%char + 1) (-1))) = None ->
      getManifestFromUniqueId backendTypeFromString m uid = Fault NullDereference).
Proof.
  unfold getManifestFromUniqueId. split; [| split].
  - intros ->. reflexivity.
  - intros -> ->. simpl. split.
    + intros builtIn ->. reflexivity.
    + intros ->. reflexivity.
  - intros -> Hknown Hnone.
    destruct (backendTypeFromString
                (QString_mid uid (QString_lastIndexOf uid " "%char + 1) (-1))) eqn:E;
      try congruence; simpl; rewrite Hnone; reflexivity.
Qed.

Lemma EffectManifestPointer_eqb_refl (p : EffectManifestPointer) :
  EffectManifestPointer_eqb p p = true.
Proof. destruct p; simpl; [apply Nat.eqb_refl | reflexivity]. Qed.

(** X10. A default that has been saved is the default that is loaded:
    after [saveDefaultForEffect] of a preset that is not empty and whose
    backend is registered, [loadEffect] without a preset, for the manifest
    the backend has for the preset's id, forwards this very preset to the
    chain slot; the defaults of all other manifests and the rest of the
    coordinator are as before, and the file written is the one named after
    the preset's id in the defaults directory. *)
Theorem saved_default_is_loaded (m : Manager) (settingsPath : QString)
    (pEffectPreset : @EffectPreset double) (pBackend : @EffectsBackend EffectProcessor) :
  preset_isEmpty pEffectPreset = false ->
  m_effectsBackends m (preset_backendType pEffectPreset) = Some pBackend ->
  exists m',
    saveDefaultForEffect m settingsPath pEffectPreset
    = Done (m', Some (defaultFilePath settingsPath (preset_id pEffectPreset)))
    /\ (forall iEffectSlotNumber adopt,
          loadEffect m' iEffectSlotNumber
                     (getManifest pBackend (preset_id pEffectPreset)) None adopt
          = ChainSlot_loadEffect iEffectSlotNumber
              (getManifest pBackend (preset_id pEffectPreset))
              (createProcessor m (getManifest pBackend (preset_id pEffectPreset)))
              (Some pEffectPreset) adopt)
    /\ (forall pManifest,
          EffectManifestPointer_eqb pManifest
            (getManifest pBackend (preset_id pEffectPreset)) = false ->
          m_defaultPresets m' pManifest = m_defaultPresets m pManifest)
    /\ m_availableEffectManifests m' = m_availableEffectManifests m
    /\ m_visibleEffectManifests m' = m_visibleEffectManifests m
    /\ emitted m' = emitted m.
Proof.
  intros Hnonempty Hbackend. unfold saveDefaultForEffect.
  rewrite Hnonempty, Hbackend. simpl.
  eexists. split; [reflexivity |]. simpl.
  split; [| split; [| repeat split]].
  - intros iEffectSlotNumber adopt. unfold loadEffect, defaultPresets_insert. simpl.
    rewrite EffectManifestPointer_eqb_refl. reflexivity.
  - intros pManifest Hother. unfold defaultPresets_insert. rewrite Hother. reflexivity.
Qed.

(** What [saveDefaultForEffect] does at its edges: for an empty preset
    it returns at once, with the coordinator unchanged and no file written;
    for a preset that is not empty and whose backend type has no registered
    backend it dereferences the null backend pointer, where
    [loadEffectChainPreset] skips the same preset. *)
Theorem saveDefaultForEffect_edges (m : Manager) (settingsPath : QString)
    (pEffectPreset : @EffectPreset double) :
  (preset_isEmpty pEffectPreset = true ->
     saveDefaultForEffect m settingsPath pEffectPreset = Done (m, None))
  /\ (preset_isEmpty pEffectPreset = false ->
      m_effectsBackends m (preset_backendType pEffectPreset) = None ->
      saveDefaultForEffect m settingsPath pEffectPreset = Fault NullDereference
      /\ forall effectSlot, loadEffectPresets m effectSlot [pEffectPreset] = []).
Proof.
  unfold saveDefaultForEffect. split.
  - intros ->. reflexivity.
  - intros Hnonempty Hnone. rewrite Hnonempty, Hnone. split; [reflexivity |].
    intros effectSlot. simpl. rewrite Hnonempty, Hnone. reflexivity.
Qed.

Lemma QList_at_nth_error (A : Type) (l : list A) (i : Z) (x : A) :
  0 <= i < QList_size l -> nth_error l (Z.to_nat i) = Some x -> QList_at l i = Done x.
Proof.
  intros Hi Hx. unfold QList_at.
  replace (0 <=? i) with true by (symmetry; apply Z.leb_le; lia).
  replace (i <? QList_size l) with true by (symmetry; apply Z.ltb_lt; lia).
  simpl. rewrite Hx. reflexivity.
Qed.

(** X13. The callers that pick a standard chain slot by number rely on the
    number being in range. In range, [loadStandardEffect] makes on that
    chain slot the one [loadEffect] call with the cached default preset and
    [loadPresetToStandardChain] the calls of the chain preset; out of range
    both read the list of chain slots out of bounds, and
    [loadStandardEffect] never gets to its test for a null chain slot. *)
Theorem standard_chain_number_is_taken_on_trust (m : Manager)
    (chainNumber iEffectSlotNumber : Z) (pManifest : EffectManifestPointer)
    (pPreset : option (@EffectChainPreset double EffectChainMixMode)) :
  (forall chainSlot,
     0 <= chainNumber < QList_size (m_standardEffectChainSlots m) ->
     nth_error (m_standardEffectChainSlots m) (Z.to_nat chainNumber) = Some chainSlot ->
     loadStandardEffect adoptMetaknobFromPreset_default m chainNumber iEffectSlotNumber
                        pManifest
     = Done (Some (chainSlot,
                   ChainSlot_loadEffect iEffectSlotNumber pManifest
                     (createProcessor m pManifest) (m_defaultPresets m pManifest)
                     adoptMetaknobFromPreset_default))
     /\ loadPresetToStandardChain m chainNumber pPreset
        = Done (chainSlot, loadEffectChainPreset m true pPreset))
  /\ (chainNumber < 0 \/ QList_size (m_standardEffectChainSlots m) <= chainNumber ->
      loadStandardEffect adoptMetaknobFromPreset_default m chainNumber iEffectSlotNumber
                         pManifest
      = Fault IndexOutOfRange
      /\ loadPresetToStandardChain m chainNumber pPreset = Fault IndexOutOfRange).
Proof.
  unfold loadStandardEffect, loadPresetToStandardChain.
  rewrite getStandardEffectChainSlot_unguarded. split.
  - intros chainSlot Hrange Hnth. rewrite (@QList_at_nth_error _ _ _ _ Hrange Hnth).
    split; reflexivity.
  - intros Hout. rewrite (QList_at_outside _ Hout). split; reflexivity.
Qed.

Lemma readStandardEffectChainPresets_nth (m : Manager)
    (presets : list (option (@EffectChainPreset double EffectChainMixMode))) :
  forall (k i : nat) pPreset,
    nth_error presets i = Some pPreset ->
    nth_error (readStandardEffectChainPresets m (Z.of_nat k) presets) i
    = Some (QList_value (m_standardEffectChainSlots m) (Z.of_nat (k + i)),
            loadEffectChainPreset m
              (match QList_value (m_standardEffectChainSlots m) (Z.of_nat (k + i)) with
               | Some _ => true
               | None => false
               end) pPreset).
Proof.
  induction presets as [| p rest IH]; intros k i pPreset Hnth.
  - destruct i; discriminate.
  - destruct i as [| i']; simpl in Hnth.
    + injection Hnth as ->. simpl. rewrite Nat.add_0_r. reflexivity.
    + simpl. replace (Z.of_nat k + 1) with (Z.of_nat (S k)) by lia.
      rewrite (IH (S k) i' pPreset Hnth).
      replace (S k + i')%nat with (k + S i')%nat by lia. reflexivity.
Qed.

(** X17. When the stored effects are read back, the chain preset stored at
    position [i] is applied to standard chain slot [i], by the same calls
    as [loadEffectChainPreset]; a preset stored at a position for which
    there is no chain slot causes no call and no fault, and neither does a
    null preset. *)
Theorem stored_presets_without_chain_slot_are_dropped (m : Manager)
    (presets : list (option (@EffectChainPreset double EffectChainMixMode)))
    (i : nat) (pPreset : option (@EffectChainPreset double EffectChainMixMode)) :
  nth_error presets i = Some pPreset ->
  (forall chainSlot,
     nth_error (m_standardEffectChainSlots m) i = Some chainSlot ->
     nth_error (readStandardEffectChainPresets m 0 presets) i
     = Some (Some chainSlot, loadEffectChainPreset m true pPreset))
  /\ (nth_error (m_standardEffectChainSlots m) i = None ->
      nth_error (readStandardEffectChainPresets m 0 presets) i = Some (None, []))
  /\ (pPreset = None ->
      exists pChainSlot,
        nth_error (readStandardEffectChainPresets m 0 presets) i = Some (pChainSlot, [])).
Proof.
  intros Hnth.
  assert (Hread := readStandardEffectChainPresets_nth m presets 0 i Hnth).
  simpl Z.of_nat in Hread. simpl Nat.add in Hread.
  assert (Hvalue : QList_value (m_standardEffectChainSlots m) (Z.of_nat i)
                   = nth_error (m_standardEffectChainSlots m) i).
  { unfold QList_value, QList_size.
    replace (0 <=? Z.of_nat i) with true by (symmetry; apply Z.leb_le; lia).
    simpl. rewrite Nat2Z.id.
    destruct (Z.of_nat i <? Z.of_nat (List.length (m_standardEffectChainSlots m))) eqn:E;
      [reflexivity |].
    apply Z.ltb_ge in E. symmetry. apply nth_error_None. lia. }
  rewrite Hvalue in Hread. split; [| split].
  - intros chainSlot Hslot. rewrite Hread, Hslot. reflexivity.
  - intros Hnone. rewrite Hread, Hnone. reflexivity.
  - intros ->. rewrite Hread.
    exists (nth_error (m_standardEffectChainSlots m) i).
    destruct (nth_error (m_standardEffectChainSlots m) i); reflexivity.
Qed.

(** X19. A backend that has been added is the one that is asked: after
    [addEffectsBackend] has returned, [getManifest] for the backend's type
    answers with the manifest this backend has for the id, and processors
    for manifests of the backend's type are created by this backend, also
    when another backend had been registered for the type before; for the
    other backend types nothing changes. *)
Theorem added_backend_is_the_one_asked (m : Manager)
    (b : @EffectsBackend EffectProcessor) (manifests : list ManifestRef) :
  backendManifests b (getEffectIds b) = Done manifests ->
  exists m',
    addEffectsBackend m (Some b) = Done m'
    /\ (forall effectId,
          EffectsManager_getManifest m' effectId (getType b)
          = Done (getManifest b effectId))
    /\ (forall p, backendType p = getType b ->
          createProcessor m' (Some p) = backend_createProcessor b (Some p))
    /\ (forall type, type <> getType b ->
          m_effectsBackends m' type = m_effectsBackends m type).
Proof.
  intros Hmanifests. unfold addEffectsBackend. rewrite Hmanifests. simpl.
  eexists. split; [reflexivity |].
  assert (Hself : QHash_insert (m_effectsBackends m) (getType b) (Some b) (getType b)
                  = Some b).
  { unfold QHash_insert, EffectBackendType_eqb. rewrite Z.eqb_refl. reflexivity. }
  split; [| split].
  - intros effectId. unfold EffectsManager_getManifest. simpl. rewrite Hself. reflexivity.
  - intros p Hp. unfold createProcessor. simpl. rewrite Hp, Hself. reflexivity.
  - intros type Hother. simpl. unfold QHash_insert, EffectBackendType_eqb.
    destruct (Z.eqb_spec (backendTypeToInt type) (backendTypeToInt (getType b))) as [E | E].
    + exfalso. apply Hother. destruct type, (getType b); simpl in E;
        try reflexivity; discriminate.
    + reflexivity.
Qed.

End CoordinatorMore.

(** ** Registered channels *)

Section ChannelsMore.

Context {ChannelHandleAndGroup : Type}.
Variable ChannelHandleAndGroup_eqb : ChannelHandleAndGroup -> ChannelHandleAndGroup -> bool.

Hypothesis ChannelHandleAndGroup_eqb_spec :
  forall a b, ChannelHandleAndGroup_eqb a b = true <-> a = b.

Lemma QSet_contains_In (set : list ChannelHandleAndGroup) (x : ChannelHandleAndGroup) :
  QSet_contains ChannelHandleAndGroup_eqb set x = true <-> In x set.
Proof.
  unfold QSet_contains. rewrite existsb_exists. split.
  - intros (y & Hy & E). apply ChannelHandleAndGroup_eqb_spec in E. subst y. exact Hy.
  - intros Hin. exists x. split; [exact Hin | apply ChannelHandleAndGroup_eqb_spec; reflexivity].
Qed.

Lemma notifyChainSlots_In (C : Type) (chainSlots : list C) (x : ChannelHandleAndGroup) :
  forall chain i y,
    In (i, y) (notifyChainSlots chainSlots chain x)
    <-> y = x /\ (chain <= i < chain + List.length chainSlots)%nat.
Proof.
  induction chainSlots as [| c rest IH]; intros chain i y; simpl.
  - split; [tauto | lia].
  - rewrite IH. split.
    + intros [E | [-> H]]; [injection E as <- <-; split; [reflexivity | lia] |].
      split; [reflexivity | lia].
    + intros [-> H]. destruct (Nat.eq_dec chain i) as [-> | Hne].
      * left. reflexivity.
      * right. split; [reflexivity | lia].
Qed.

Lemma notifyChainSlots_NoDup (C : Type) (chainSlots : list C) (x : ChannelHandleAndGroup) :
  forall chain, NoDup (notifyChainSlots chainSlots chain x).
Proof.
  induction chainSlots as [| c rest IH]; intros chain; simpl; constructor.
  - rewrite notifyChainSlots_In. lia.
  - apply IH.
Qed.

(** X14. Over any run of [registerInputChannel] calls that starts from a
    set without repetitions, no standard chain slot is handed the same
    input channel twice, and none is handed a channel that was registered
    before the run; every chain slot is handed every channel that is new
    in the run; the set of registered input channels stays without
    repetitions and holds the old and the new channels; the output channels
    are not touched. *)
Theorem input_channels_are_handed_out_once (C : Type) (standardEffectChainSlots : list C)
    (channels : list ChannelHandleAndGroup) :
  forall r : RegisteredChannels,
    NoDup (m_registeredInputChannels r) ->
    NoDup (m_registeredInputChannels
             (fst (registerInputChannels ChannelHandleAndGroup_eqb
                     standardEffectChainSlots r channels)))
    /\ NoDup (snd (registerInputChannels ChannelHandleAndGroup_eqb
                     standardEffectChainSlots r channels))
    /\ (forall chain x,
          In (chain, x) (snd (registerInputChannels ChannelHandleAndGroup_eqb
                                standardEffectChainSlots r channels))
          <-> (chain < List.length standardEffectChainSlots)%nat
              /\ In x channels /\ ~ In x (m_registeredInputChannels r))
    /\ (forall x,
          In x (m_registeredInputChannels
                  (fst (registerInputChannels ChannelHandleAndGroup_eqb
                          standardEffectChainSlots r channels)))
          <-> In x (m_registeredInputChannels r) \/ In x channels)
    /\ m_registeredOutputChannels
         (fst (registerInputChannels ChannelHandleAndGroup_eqb
                 standardEffectChainSlots r channels))
       = m_registeredOutputChannels r.
Proof.
  induction channels as [| h rest IH]; intros r Hnd.
  - simpl. split; [exact Hnd |]. split; [constructor |].
    split; [intros chain x; tauto |]. split; [intros x; tauto | reflexivity].
  - simpl. unfold registerInputChannel.
    destruct (QSet_contains ChannelHandleAndGroup_eqb (m_registeredInputChannels r) h)
      eqn:Econtains.
    + apply QSet_contains_In in Econtains.
      destruct (IH r Hnd) as (Hnd' & Hcalls & Hin & Hset & Hout).
      destruct (registerInputChannels ChannelHandleAndGroup_eqb
                  standardEffectChainSlots r rest) as [r2 calls2].
      simpl in *. split; [exact Hnd' |]. split; [exact Hcalls |].
      split; [| split; [| exact Hout]].
      * intros chain x. rewrite Hin. split.
        -- intros (Hc & Hx & Hnew). tauto.
        -- intros (Hc & [-> | Hx] & Hnew); [contradiction | tauto].
      * intros x. rewrite Hset. split; [tauto |].
        intros [Hx | [-> | Hx]]; tauto.
    + assert (Hnew : ~ In h (m_registeredInputChannels r)).
      { intros Hin. apply QSet_contains_In in Hin. congruence. }
      set (r1 := {| m_registeredInputChannels := h :: m_registeredInputChannels r;
                    m_registeredOutputChannels := m_registeredOutputChannels r |}).
      assert (Hnd1 : NoDup (m_registeredInputChannels r1))
        by (simpl; constructor; assumption).
      destruct (IH r1 Hnd1) as (Hnd' & Hcalls & Hin & Hset & Hout).
      destruct (registerInputChannels ChannelHandleAndGroup_eqb
                  standardEffectChainSlots r1 rest) as [r2 calls2].
      simpl in *. split; [exact Hnd' |]. split; [| split; [| split; [| exact Hout]]].
      * apply NoDup_app; [apply notifyChainSlots_NoDup | exact Hcalls |].
        intros [chain x] H1 H2. apply notifyChainSlots_In in H1. destruct H1 as [-> _].
        apply Hin in H2. tauto.
      * intros chain x. rewrite in_app_iff, notifyChainSlots_In, Hin. split.
        -- intros [[-> Hc] | (Hc & Hx & Hnew')].
           ++ split; [lia |]. split; [left; reflexivity | exact Hnew].
           ++ tauto.
        -- intros (Hc & Hx & Hnew').
           destruct (ChannelHandleAndGroup_eqb x h) eqn:E.
           ++ apply ChannelHandleAndGroup_eqb_spec in E. subst x.
              left. split; [reflexivity | lia].
           ++ assert (Hne : x <> h).
              { intros ->. rewrite (proj2 (ChannelHandleAndGroup_eqb_spec h h) eq_refl) in E.
                discriminate. }
              right. split; [exact Hc |]. split.
              ** destruct Hx as [-> | Hx]; [congruence | exact Hx].
              ** intros [-> | Hold]; [congruence | contradiction].
      * intros x. rewrite Hset. split.
        -- intros [[<- | Hx] | Hx]; tauto.
        -- intros [Hx | [<- | Hx]]; tauto.
Qed.

(** X9. [registerOutputChannel] keeps the set of output channels without
    repetitions: afterwards the channel is registered, registering it again
    changes nothing, and the input channels are never touched. *)
Theorem output_channel_is_registered_once (r : RegisteredChannels)
    (handle_group : ChannelHandleAndGroup) :
  NoDup (m_registeredOutputChannels r) ->
  NoDup (m_registeredOutputChannels
           (registerOutputChannel ChannelHandleAndGroup_eqb r handle_group))
  /\ (forall x,
        In x (m_registeredOutputChannels
                (registerOutputChannel ChannelHandleAndGroup_eqb r handle_group))
        <-> x = handle_group \/ In x (m_registeredOutputChannels r))
  /\ registerOutputChannel ChannelHandleAndGroup_eqb
       (registerOutputChannel ChannelHandleAndGroup_eqb r handle_group) handle_group
     = registerOutputChannel ChannelHandleAndGroup_eqb r handle_group
  /\ m_registeredInputChannels
       (registerOutputChannel ChannelHandleAndGroup_eqb r handle_group)
     = m_registeredInputChannels r.
Proof.
  intros Hnd. unfold registerOutputChannel.
  destruct (QSet_contains ChannelHandleAndGroup_eqb (m_registeredOutputChannels r)
                          handle_group) eqn:E.
  - rewrite E. apply QSet_contains_In in E.
    split; [exact Hnd |]. split; [| split; reflexivity].
    intros x. split; [tauto |]. intros [-> | Hx]; assumption.
  - assert (Hnew : ~ In handle_group (m_registeredOutputChannels r)).
    { intros Hin. apply QSet_contains_In in Hin. congruence. }
    assert (Hnow : QSet_contains ChannelHandleAndGroup_eqb
                     (handle_group :: m_registeredOutputChannels r) handle_group = true)
      by (apply QSet_contains_In; left; reflexivity).
    cbn [m_registeredOutputChannels m_registeredInputChannels].
    rewrite Hnow.
    split; [constructor; assumption |]. split; [| split; reflexivity].
    intros x. split; [intros [<- | Hx]; tauto | intros [-> | Hx]; [left | right]; tauto].
Qed.

End ChannelsMore.

(** ** Keys of effect slots *)

Lemma split_chars_single (sep : ascii) (a : string) :
  indexOfChar sep a = None -> split_chars sep a = [a].
Proof.
  induction a as [| x t IH]; simpl; [reflexivity |].
  destruct (Ascii.eqb x sep); [discriminate |].
  destruct (indexOfChar sep t); [discriminate |].
  intros _. rewrite IH; reflexivity.
Qed.

Lemma split_chars_app (sep : ascii) (a rest : string) :
  indexOfChar sep a = None ->
  split_chars sep (String.append a (String sep rest)) = a :: split_chars sep rest.
Proof.
  induction a as [| x t IH]; simpl.
  - intros _. rewrite Ascii.eqb_refl. reflexivity.
  - destruct (Ascii.eqb x sep); [discriminate |].
    destruct (indexOfChar sep t); [discriminate |].
    intros _. rewrite IH; reflexivity.
Qed.

Lemma append_assoc (a b c : string) :
  String.append (String.append a b) c = String.append a (String.append b c).
Proof.
  induction a as [| x t IH]; simpl; [reflexivity | rewrite IH; reflexivity].
Qed.

Section KeysMore.

Context {double EffectProcessor EffectChainMixMode : Type}.

Local Notation "'Manager'" := (@EffectsManager double EffectProcessor EffectChainMixMode).

(** X15. A key put together from three parts without separator in them --
    rack, unit and effect part, joined by the separator -- is taken apart
    into these parts again. When the effect part is made of a stretch
    without digit, a run of decimal digits and a rest that does not go on
    with a digit, and the chain slot is registered under rack, separator,
    unit and the closing bracket, [getEffectSlot] returns the effect slot of
    that chain slot whose number is the number written by the run less one;
    a number beyond the largest [int] counts as 0. *)
Theorem getEffectSlot_takes_keys_apart (m : Manager)
    (rack unit before digits after : string) (d : ascii) (number : Z)
    (pChainSlot : @EffectChainSlot double EffectProcessor EffectChainMixMode) :
  indexOfChar kEffectGroupSeparator rack = None ->
  indexOfChar kEffectGroupSeparator unit = None ->
  indexOfChar kEffectGroupSeparator
    (String.append before (String.append (String d digits) after)) = None ->
  noDigit before = true ->
  parseDigits (String d digits) 0 = Some number ->
  startsWithDigit after = false ->
  m_effectChainSlotsByGroup m
    (QStr (String.append rack
             (String kEffectGroupSeparator (String.append unit "]"%string))))
  = Some pChainSlot ->
  getEffectSlot m
    (QStr (String.append rack
             (String kEffectGroupSeparator
                (String.append unit
                   (String kEffectGroupSeparator
                      (String.append before
                         (String.append (String d digits) after)))))))
  = Done (ChainSlot_getEffectSlot pChainSlot
            ((if number <=? INT_MAX then number else 0) - 1)).
Proof.
  intros Hrack Hunit Heffect Hbefore Hparse Hafter Hchain.
  unfold getEffectSlot, QString_split.
  cbn [qchars].
  rewrite (split_chars_app _ rack _ Hrack), (split_chars_app _ unit _ Hunit),
    (split_chars_single _ _ Heffect).
  cbn [map]. rewrite QList_at_0, QList_at_1, QList_at_2.
  cbv beta iota zeta delta [bind].
  assert (Hgroup :
            QString_append
              (QString_append
                 (QString_append (QStr rack)
                    (QStr (String kEffectGroupSeparator EmptyString)))
                 (QStr unit))
              kGroupClose
            = QStr (String.append rack
                      (String kEffectGroupSeparator (String.append unit "]"%string)))).
  { unfold QString_append, kGroupClose. simpl qchars. f_equal.
    rewrite !append_assoc. reflexivity. }
  unfold getEffectChainSlot. rewrite Hgroup, Hchain.
  unfold intRegEx_cap1. cbn [qchars].
  rewrite (@firstDigitRun_run before digits after d number Hbefore Hparse Hafter).
  unfold toInt. cbn [qchars]. rewrite Hparse. reflexivity.
Qed.

End KeysMore.

(** ** The chain slot after a chain preset *)

Section PresetState.

Context {double EffectProcessor EffectChainMixMode : Type}.
Context {RT : Runtime}.

Variable parameterDefaults : ManifestRef -> list (QString * double).
Variable presetSuperValue : @EffectPreset double -> double.

Local Notation "'Manager'" := (@EffectsManager double EffectProcessor EffectChainMixMode).
Local Notation "'Chain'" := (@EffectChainSlot double EffectProcessor EffectChainMixMode).
Local Notation "'Slot'" := (@EffectSlot double EffectProcessor).

Lemma replaceSlot_nth_error (slots : list Slot) (i j : nat) (s : Slot) :
  (j < List.length slots)%nat ->
  nth_error (replaceSlot slots i s) j = if Nat.eqb j i then Some s else nth_error slots j.
Proof.
  revert i j. induction slots as [| s0 rest IH]; intros i j Hj; simpl in Hj; [lia |].
  destruct i as [| i']; destruct j as [| j']; simpl; try reflexivity.
  apply IH. lia.
Qed.

(** One entry of the chain preset, loaded at slot number [k] of a chain
    slot whose slot [k] is empty. *)
Lemma entry_call_slots (m : Manager) (c : Chain) (k : nat) (e : @EffectPreset double) :
  (forall j, (k <= j < List.length (effectSlots c))%nat ->
             nth_error (effectSlots c) j = Some emptyEffectSlot) ->
  List.length
    (effectSlots (ChainSlot_calls parameterDefaults presetSuperValue c
                    (loadEffectPresets m (Z.of_nat k) [e])))
  = List.length (effectSlots c)
  /\ forall j, (j < List.length (effectSlots c))%nat ->
       nth_error
         (effectSlots (ChainSlot_calls parameterDefaults presetSuperValue c
                         (loadEffectPresets m (Z.of_nat k) [e]))) j
       = if Nat.eqb j k then Some (entrySlot parameterDefaults m e)
         else nth_error (effectSlots c) j.
Proof.
  intros Hempty.
  assert (Hkeep : forall j, (j < List.length (effectSlots c))%nat ->
            entrySlot parameterDefaults m e = emptyEffectSlot ->
            nth_error (effectSlots c) j
            = if Nat.eqb j k then Some (entrySlot parameterDefaults m e)
              else nth_error (effectSlots c) j).
  { intros j Hj He. destruct (Nat.eqb j k) eqn:E; [| reflexivity].
    apply Nat.eqb_eq in E. subst j. rewrite He. apply Hempty. lia. }
  assert (Hload : forall pManifest pProcessor (pPreset : option (@EffectPreset double)),
            loadedEffectSlot parameterDefaults pManifest pProcessor pPreset
            = entrySlot parameterDefaults m e ->
            List.length
              (effectSlots (ChainSlot_call parameterDefaults presetSuperValue c
                 (ChainSlot_loadEffect (Z.of_nat k) pManifest pProcessor pPreset true)))
            = List.length (effectSlots c)
            /\ forall j, (j < List.length (effectSlots c))%nat ->
                 nth_error
                   (effectSlots (ChainSlot_call parameterDefaults presetSuperValue c
                      (ChainSlot_loadEffect (Z.of_nat k) pManifest pProcessor pPreset true)))
                   j
                 = if Nat.eqb j k then Some (entrySlot parameterDefaults m e)
                   else nth_error (effectSlots c) j).
  { intros pManifest pProcessor pPreset Hslot. simpl. unfold QList_size.
    replace (0 <=? Z.of_nat k) with true by (symmetry; apply Z.leb_le; lia).
    destruct (Z.of_nat k <? Z.of_nat (List.length (effectSlots c))) eqn:E; simpl.
    - rewrite Nat2Z.id, Hslot. split; [apply replaceSlot_length |].
      intros j Hj. apply replaceSlot_nth_error. exact Hj.
    - apply Z.ltb_ge in E. split; [reflexivity |].
      intros j Hj. replace (Nat.eqb j k) with false by (symmetry; apply Nat.eqb_neq; lia).
      reflexivity. }
  unfold ChainSlot_calls. simpl loadEffectPresets. unfold entrySlot in *.
  destruct (preset_isEmpty e).
  - cbn [fold_left]. apply Hload. reflexivity.
  - destruct (m_effectsBackends m (preset_backendType e)) as [pBackend |].
    + cbn [fold_left]. apply Hload. reflexivity.
    + cbn [fold_left]. split; [reflexivity |].
      intros j Hj. apply Hkeep; [exact Hj | reflexivity].
Qed.

Lemma loadEffectPresets_cons (m : Manager) (effectSlot : Z) (e : @EffectPreset double)
    (rest : list (@EffectPreset double)) :
  loadEffectPresets m effectSlot (e :: rest)
  = loadEffectPresets m effectSlot [e] ++ loadEffectPresets m (effectSlot + 1) rest.
Proof.
  simpl. destruct (preset_isEmpty e); [reflexivity |].
  destruct (m_effectsBackends m (preset_backendType e)); reflexivity.
Qed.

Lemma entries_calls_slots (m : Manager) (entries : list (@EffectPreset double)) :
  forall (k : nat) (c : Chain),
    (forall j, (k <= j < List.length (effectSlots c))%nat ->
               nth_error (effectSlots c) j = Some emptyEffectSlot) ->
    List.length
      (effectSlots (ChainSlot_calls parameterDefaults presetSuperValue c
                      (loadEffectPresets m (Z.of_nat k) entries)))
    = List.length (effectSlots c)
    /\ forall j, (j < List.length (effectSlots c))%nat ->
         nth_error
           (effectSlots (ChainSlot_calls parameterDefaults presetSuperValue c
                           (loadEffectPresets m (Z.of_nat k) entries))) j
         = if Nat.ltb j k then nth_error (effectSlots c) j
           else Some (match nth_error entries (j - k) with
                      | Some e => entrySlot parameterDefaults m e
                      | None => emptyEffectSlot
                      end).
Proof.
  induction entries as [| e rest IH]; intros k c Hempty.
  - simpl. split; [reflexivity |]. intros j Hj.
    destruct (Nat.ltb j k) eqn:E; [reflexivity |].
    apply Nat.ltb_ge in E. rewrite Hempty by lia.
    destruct (j - k)%nat; reflexivity.
  - rewrite loadEffectPresets_cons. unfold ChainSlot_calls. rewrite fold_left_app.
    fold (ChainSlot_calls parameterDefaults presetSuperValue c
            (loadEffectPresets m (Z.of_nat k) [e])).
    destruct (@entry_call_slots m c k e Hempty) as [Hlen1 Hnth1].
    set (c1 := ChainSlot_calls parameterDefaults presetSuperValue c
                 (loadEffectPresets m (Z.of_nat k) [e])) in *.
    replace (Z.of_nat k + 1) with (Z.of_nat (S k)) by lia.
    fold (ChainSlot_calls parameterDefaults presetSuperValue c1
            (loadEffectPresets m (Z.of_nat (S k)) rest)).
    assert (Hempty1 : forall j, (S k <= j < List.length (effectSlots c1))%nat ->
                                nth_error (effectSlots c1) j = Some emptyEffectSlot).
    { intros j Hj. rewrite Hnth1 by lia.
      replace (Nat.eqb j k) with false by (symmetry; apply Nat.eqb_neq; lia).
      apply Hempty. lia. }
    destruct (IH (S k) c1 Hempty1) as [Hlen2 Hnth2].
    split; [congruence |].
    intros j Hj. rewrite Hnth2 by lia.
    destruct (Nat.ltb j (S k)) eqn:E1.
    + apply Nat.ltb_lt in E1. rewrite Hnth1 by exact Hj.
      destruct (Nat.eqb j k) eqn:E2.
      * apply Nat.eqb_eq in E2. subst j.
        replace (Nat.ltb k k) with false by (symmetry; apply Nat.ltb_ge; lia).
        rewrite Nat.sub_diag. reflexivity.
      * apply Nat.eqb_neq in E2.
        replace (Nat.ltb j k) with true by (symmetry; apply Nat.ltb_lt; lia).
        reflexivity.
    + apply Nat.ltb_ge in E1.
      replace (Nat.ltb j k) with false by (symmetry; apply Nat.ltb_ge; lia).
      replace (j - k)%nat with (S (j - S k)) by lia. reflexivity.
Qed.

(** X16. The chain slot after a chain preset has been applied, with the
    chain slot as the spec describes it: group and number of slots are as
    before; mix mode, super-parameter default and value, preset name and
    loaded-preset index are those of the preset; and every slot holds what
    the entry of the preset at its position asks for -- the loaded effect
    with the entry's parameter values, or nothing for an empty entry, for an
    entry whose backend is not registered or whose id the backend does not
    know, and for a slot past the last entry. Entries past the last slot
    are ignored. *)
Theorem applyChainPreset_result (m : Manager) (c : Chain)
    (preset : @EffectChainPreset double EffectChainMixMode) :
  group (applyChainPreset parameterDefaults presetSuperValue m c preset) = group c
  /\ List.length (effectSlots (applyChainPreset parameterDefaults presetSuperValue m c preset))
     = List.length (effectSlots c)
  /\ chain_mixMode (applyChainPreset parameterDefaults presetSuperValue m c preset)
     = mixMode preset
  /\ chain_superParameterDefault
       (applyChainPreset parameterDefaults presetSuperValue m c preset) = superKnob preset
  /\ chain_superParameter (applyChainPreset parameterDefaults presetSuperValue m c preset)
     = superKnob preset
  /\ presetName (applyChainPreset parameterDefaults presetSuperValue m c preset)
     = name preset
  /\ loadedPresetIndex (applyChainPreset parameterDefaults presetSuperValue m c preset)
     = presetIndex (m_pChainPresetManager m) preset
  /\ (forall j, (j < List.length (effectSlots c))%nat ->
        nth_error
          (effectSlots (applyChainPreset parameterDefaults presetSuperValue m c preset)) j
        = Some (match nth_error (effectPresets preset) j with
                | Some e => entrySlot parameterDefaults m e
                | None => emptyEffectSlot
                end)).
Proof.
  unfold applyChainPreset, loadEffectChainPreset. simpl negb. cbv iota.
  rewrite calls_cons_app.
  set (c0 := ChainSlot_call parameterDefaults presetSuperValue c (slotControlClear 1)).
  assert (Hlen0 : List.length (effectSlots c0) = List.length (effectSlots c))
    by (unfold c0; simpl; apply length_map).
  assert (Hempty0 : forall j, (0 <= j < List.length (effectSlots c0))%nat ->
                              nth_error (effectSlots c0) j = Some emptyEffectSlot).
  { intros j Hj. unfold c0. simpl. rewrite nth_error_map.
    destruct (nth_error (effectSlots c) j) eqn:E; [reflexivity |].
    apply nth_error_None in E. lia. }
  destruct (@entries_calls_slots m (effectPresets preset) 0%nat c0 Hempty0) as [Hlen1 Hnth1].
  simpl Z.of_nat in Hlen1, Hnth1.
  destruct (calls_shape parameterDefaults presetSuperValue
              (loadEffectPresets m 0 (effectPresets preset)) c0) as [Hgroup1 _].
  set (c1 := ChainSlot_calls parameterDefaults presetSuperValue c0
               (loadEffectPresets m 0 (effectPresets preset))) in *.
  unfold ChainSlot_calls at 1 2 3 4 5 6 7 8. simpl.
  split; [rewrite Hgroup1; reflexivity |].
  split; [congruence |].
  repeat (split; [reflexivity |]).
  intros j Hj. rewrite Hnth1 by lia. simpl. rewrite Nat.sub_0_r. reflexivity.
Qed.

End PresetState.

(** * The code at work in the studio *)

Lemma codePointCompare_asym (a b : string) :
  Studio.codePointCompare a b < 0 -> 0 <= Studio.codePointCompare b a.
Proof.
  revert b. induction a as [| x a' IH]; intros [| y b']; simpl; try lia.
  destruct (Z.eqb_spec (Z.of_nat (nat_of_ascii x) - Z.of_nat (nat_of_ascii y)) 0);
    destruct (Z.eqb_spec (Z.of_nat (nat_of_ascii y) - Z.of_nat (nat_of_ascii x)) 0);
    try lia.
  apply IH.
Qed.

Lemma codePointCompare_negtrans (a b c : string) :
  0 <= Studio.codePointCompare a b -> 0 <= Studio.codePointCompare b c ->
  0 <= Studio.codePointCompare a c.
Proof.
  revert b c. induction a as [| x a' IH]; intros [| y b'] [| z c']; simpl; try lia.
  destruct (Z.eqb_spec (Z.of_nat (nat_of_ascii x) - Z.of_nat (nat_of_ascii y)) 0);
    destruct (Z.eqb_spec (Z.of_nat (nat_of_ascii y) - Z.of_nat (nat_of_ascii z)) 0);
    destruct (Z.eqb_spec (Z.of_nat (nat_of_ascii x) - Z.of_nat (nat_of_ascii z)) 0);
    try lia.
  apply IH.
Qed.

Lemma studio_compare_asym (a b : QString) :
  localeAwareCompare a b < 0 -> 0 <= localeAwareCompare b a.
Proof. apply codePointCompare_asym. Qed.

Lemma studio_compare_negtrans (a b c : QString) :
  0 <= localeAwareCompare a b -> 0 <= localeAwareCompare b c ->
  0 <= localeAwareCompare a c.
Proof. apply codePointCompare_negtrans. Qed.

(** With four standard chain slots, unit number 4 is past the last one and
    the list is read out of bounds. *)
Lemma getStandardEffectChainSlot_past_the_last_unit :
  QList_size (m_standardEffectChainSlots (Studio.studio [])) = 4
  /\ getStandardEffectChainSlot (Studio.studio []) 4 = Fault IndexOutOfRange.
Proof.
  split; [reflexivity |].
  apply getStandardEffectChainSlot_reads_out_of_bounds. right. vm_compute. discriminate.
Defined.

(** Hiding "Reverb" while only "Echo" and "Filter" are visible changes
    nothing in the list and still emits the signal. *)
Lemma hiding_reverb_when_it_is_hidden :
  m_visibleEffectManifests
    (setEffectVisibility (Studio.studio [1; 0]%nat) 2%nat false) = [1; 0]%nat
  /\ emitted (setEffectVisibility (Studio.studio [1; 0]%nat) 2%nat false)
     = [visibleEffectsUpdated].
Proof.
  apply (@hiding_a_hidden_manifest_still_notifies _ _ _ _ (Studio.studio [1; 0]%nat) 2%nat).
  simpl. lia.
Defined.

(** C2 fails as stated. The group ["[Master]"] has no separator: it splits
    into one part, and reading the second part is out of bounds. And a
    string that is no documented key, with a fourth part and a third part
    that is not an effect name, resolves to a slot all the same. *)
Lemma getEffectSlot_reads_missing_parts :
  QString_split (QStr "[Master]") kEffectGroupSeparator = [QStr "[Master]"]
  /\ getEffectSlot (Studio.studio []) (QStr "[Master]") = Fault IndexOutOfRange
  /\ getEffectSlot (Studio.studio []) (QStr "[EffectRack1_EffectUnit1_knob2_x")
     = Done (Some Studio.echoSlot).
Proof.
  split; [reflexivity |]. split; reflexivity.
Qed.

(** The second effect of the first unit and the twelfth effect of the
    second unit are found by their keys. *)
Lemma getEffectSlot_effects_of_the_rack :
  getEffectSlot (Studio.studio []) (QStr "[EffectRack1_EffectUnit1_Effect2]")
  = Done (ChainSlot_getEffectSlot Studio.unit1
            (toInt (intRegEx_cap1 (QStr "Effect2]")) - 1))
  /\ ChainSlot_getEffectSlot Studio.unit1 (toInt (intRegEx_cap1 (QStr "Effect2]")) - 1)
     = Some Studio.echoSlot
  /\ getEffectSlot Studio.rack (QStr "[EffectRack1_EffectUnit2_Effect12]")
     = Done (ChainSlot_getEffectSlot Studio.unit2
               ((if 12 <=? INT_MAX then 12 else 0) - 1))
  /\ ChainSlot_getEffectSlot Studio.unit2 ((if 12 <=? INT_MAX then 12 else 0) - 1)
     = Some Studio.echoSlot.
Proof.
  split; [| split; [reflexivity | split; [| reflexivity]]].
  - destruct (getEffectSlot_on_split_parts (Studio.studio [])
                (QStr "[EffectRack1_EffectUnit1_Effect2]")) as [_ Hthree].
    destruct (Hthree (QStr "[EffectRack1") (QStr "EffectUnit1") (QStr "Effect2]") []
                Studio.unit1 eq_refl eq_refl) as [Hget _].
    exact Hget.
  - destruct (getEffectSlot_on_split_parts Studio.rack
                (QStr "[EffectRack1_EffectUnit2_Effect12]")) as [_ Hthree].
    destruct (Hthree (QStr "[EffectRack1") (QStr "EffectUnit2") (QStr "Effect12]") []
                Studio.unit2 eq_refl eq_refl) as [_ [_ [_ Hrun]]].
    exact (Hrun "Effect"%string "1"%char "2"%string "]"%string 12
             eq_refl eq_refl eq_refl eq_refl).
Defined.

(** C5 fails as stated. Registering the built-in backend a second time
    appends its manifests a second time: each of them is in the catalogue
    twice. *)
Lemma addEffectsBackend_twice_duplicates :
  (m1 <- addEffectsBackend Studio.fresh (Some Studio.builtIn) ;;
   m2 <- addEffectsBackend m1 (Some Studio.builtIn) ;;
   Done (m_availableEffectManifests m2))
  = Done [1; 1; 0; 0]%nat
  /\ count_occ Nat.eq_dec [1; 1; 0; 0]%nat 0%nat = 2%nat.
Proof.
  split; reflexivity.
Qed.

(** Registering the built-in backend with a fresh coordinator. *)
Lemma addEffectsBackend_builtIn_on_fresh :
  (exists m',
     addEffectsBackend Studio.fresh (Some Studio.builtIn) = Done m'
     /\ (forall p, In p [0; 1]%nat ->
           count_occ Nat.eq_dec (m_availableEffectManifests m') p = 1%nat)
     /\ Permutation (m_availableEffectManifests Studio.fresh ++ [0; 1]%nat)
                    (m_availableEffectManifests m')
     /\ builtInFirstThenByName (m_availableEffectManifests m')
     /\ m_pNumEffectsAvailable m' = QList_size (m_availableEffectManifests m')
     /\ m_effectsBackends m' (getType Studio.builtIn) = Some Studio.builtIn)
  /\ addEffectsBackend Studio.fresh None = Done Studio.fresh.
Proof.
  apply (@addEffectsBackend_extends_catalogue Z nat Studio.MixMode Studio.runtime
           studio_compare_asym studio_compare_negtrans
           Studio.fresh Studio.builtIn [0; 1]%nat).
  - reflexivity.
  - repeat constructor; simpl; lia.
  - simpl. tauto.
Defined.

(** C6 fails as stated. With both "filter" effects visible, the id
    ["filter"] is at positions 1 and 3. From position 3 the claim expects
    the next id to be the one at position 0 and the previous id to be the
    one at position 2; the code answers from position 1. *)
Lemma traversal_ignores_later_occurrence :
  map id [1; 0; 2; 3]%nat = [QStr "echo"; QStr "filter"; QStr "reverb"; QStr "filter"]
  /\ id (nth (nextPosition 4 3) [1; 0; 2; 3]%nat 0%nat) = QStr "echo"
  /\ getNextEffectId (Studio.studio [1; 0; 2; 3]%nat) (QStr "filter") = Done (QStr "reverb")
  /\ id (nth (prevPosition 4 3) [1; 0; 2; 3]%nat 0%nat) = QStr "reverb"
  /\ getPrevEffectId (Studio.studio [1; 0; 2; 3]%nat) (QStr "filter") = Done (QStr "echo").
Proof.
  repeat split; reflexivity.
Qed.

(** Stepping from "filter" among three visible effects. *)
Lemma traversal_from_filter :
  getNextEffectId (Studio.studio [1; 0; 2]%nat) (QStr "filter") = Done (QStr "reverb")
  /\ getPrevEffectId (Studio.studio [1; 0; 2]%nat) (QStr "filter") = Done (QStr "echo").
Proof.
  destruct (traversal_follows_first_occurrence (Studio.studio [1; 0; 2]%nat))
    as (_ & _ & Hat).
  apply (Hat (QStr "filter") 1%nat).
  - reflexivity.
  - repeat split.
    + simpl. lia.
    + intros j Hj. destruct j as [| j']; [reflexivity | lia].
Defined.

(** C7 fails as stated. The visible manifests have pairwise distinct ids,
    one of which is the null id, at the first position. Three steps
    forward from ["echo"] end at the null id, not at ["echo"]; and going
    back from ["echo"] and forward again ends at the null id as well. *)
Lemma traversal_sticks_at_null_id :
  map id [4; 1; 2]%nat = [QNull; QStr "echo"; QStr "reverb"]
  /\ iterateNextEffectId (Studio.studio [4; 1; 2]%nat) 3 (QStr "echo") = Done QNull
  /\ (prev <- getPrevEffectId (Studio.studio [4; 1; 2]%nat) (QStr "echo") ;;
      getNextEffectId (Studio.studio [4; 1; 2]%nat) prev) = Done QNull.
Proof.
  repeat split; reflexivity.
Qed.

(** Round the three visible effects, starting from "filter". *)
Lemma traversal_round_from_filter :
  iterateNextEffectId (Studio.studio [1; 0; 2]%nat) 3 (QStr "filter") = Done (QStr "filter")
  /\ (next <- getNextEffectId (Studio.studio [1; 0; 2]%nat) (QStr "filter") ;;
      getPrevEffectId (Studio.studio [1; 0; 2]%nat) next) = Done (QStr "filter")
  /\ (prev <- getPrevEffectId (Studio.studio [1; 0; 2]%nat) (QStr "filter") ;;
      getNextEffectId (Studio.studio [1; 0; 2]%nat) prev) = Done (QStr "filter").
Proof.
  refine (@traversal_is_a_cycle _ _ _ _ (Studio.studio [1; 0; 2]%nat) 1%nat _ _ _).
  - intros i j Hi Hj. simpl in Hi, Hj.
    destruct i as [| [| [| i]]]; destruct j as [| [| [| j]]];
      try lia; try reflexivity; simpl; discriminate.
  - intros p Hp. simpl in Hp.
    destruct Hp as [<- | [<- | [<- | []]]]; reflexivity.
  - simpl. lia.
Defined.

(** An id that no visible effect has. *)
Lemma traversal_from_unknown_id :
  getNextEffectId (Studio.studio [1; 0; 2]%nat) (QStr "flanger") = Done (QStr "echo")
  /\ getPrevEffectId (Studio.studio [1; 0; 2]%nat) (QStr "flanger") = Done (QStr "reverb").
Proof.
  refine (@unknown_effect_id_selects_the_ends _ _ _ _ (Studio.studio [1; 0; 2]%nat)
            (QStr "flanger") _ _ _).
  - discriminate.
  - reflexivity.
  - intros p Hp. simpl in Hp.
    destruct Hp as [<- | [<- | [<- | []]]]; reflexivity.
Defined.

(** A chain preset whose second entry belongs to a backend that is not
    registered: slot 1 gets no call, and the third entry is loaded into
    slot 2. *)
Example loadEffectChainPreset_skips_one_slot :
  loadEffectChainPreset (Studio.studio []) true (Some Studio.chainPreset)
  = [ slotControlClear 1;
      ChainSlot_loadEffect 0 None None None true;
      ChainSlot_loadEffect 2 (Some 1%nat) (Some 101%nat) (Some Studio.echoPreset) true;
      setMixMode Studio.DryPlusWet;
      setSuperParameterDefaultValue 1;
      setSuperParameter 1;
      setPresetName (QStr "Echo chamber");
      setLoadedPresetIndex 0 ].
Proof. reflexivity. Qed.

(** ** More runs in the studio *)

(** "Filter" is visible once among two effects. *)
Lemma visibility_of_filter_reads_back :
  getEffectVisibility (setEffectVisibility (Studio.studio [1; 0]%nat) 0%nat false) 0%nat
  = false
  /\ (forall q, q <> 0%nat ->
        getEffectVisibility (setEffectVisibility (Studio.studio [1; 0]%nat) 0%nat false) q
        = getEffectVisibility (Studio.studio [1; 0]%nat) q).
Proof.
  refine (@getEffectVisibility_reads_back _ _ _ _ (Studio.studio [1; 0]%nat) 0%nat false _).
  simpl. lia.
Defined.

(** Four requests on a coordinator that shows nothing yet. *)
Lemma visible_list_after_four_requests :
  builtInFirstThenByName
    (m_visibleEffectManifests
       (setEffectVisibilities (Studio.studio [])
          [(0, true); (2, true); (1, true); (0, false)]%nat))
  /\ NoDup
       (m_visibleEffectManifests
          (setEffectVisibilities (Studio.studio [])
             [(0, true); (2, true); (1, true); (0, false)]%nat))
  /\ (forall p,
        In p (m_visibleEffectManifests
                (setEffectVisibilities (Studio.studio [])
                   [(0, true); (2, true); (1, true); (0, false)]%nat))
        <-> match lastRequest p [(0, true); (2, true); (1, true); (0, false)]%nat with
            | Some visible => visible = true
            | None => In p (m_visibleEffectManifests (Studio.studio []))
            end).
Proof.
  refine (@visible_list_follows_last_request Z nat Studio.MixMode Studio.runtime
            studio_compare_asym studio_compare_negtrans (Studio.studio [])
            [(0, true); (2, true); (1, true); (0, false)]%nat _ _).
  - intros i j Hij Hj. simpl in Hj. lia.
  - constructor.
Defined.

(** Showing "Reverb" and hiding it again. *)
Lemma show_then_hide_reverb :
  m_visibleEffectManifests
    (setEffectVisibility (setEffectVisibility (Studio.studio [1; 0]%nat) 2%nat true)
                         2%nat false)
  = [1; 0]%nat
  /\ emitted
       (setEffectVisibility (setEffectVisibility (Studio.studio [1; 0]%nat) 2%nat true)
                            2%nat false)
     = [visibleEffectsUpdated; visibleEffectsUpdated].
Proof.
  refine (@show_then_hide_restores_list _ _ _ _ (Studio.studio [1; 0]%nat) 2%nat _).
  simpl. lia.
Defined.

(** Showing "Filter" in a visible list that is out of order. *)
Lemma showing_filter_in_a_list_out_of_order :
  exists before after,
    [2; 1]%nat = before ++ after
    /\ m_visibleEffectManifests (setEffectVisibility (Studio.studio [2; 1]%nat) 0%nat true)
       = before ++ 0%nat :: after
    /\ List.length before
       = std_lower_bound [2; 1]%nat 0%nat alphabetizeEffectManifests.
Proof.
  refine (@showing_inserts_in_place _ _ _ _ (Studio.studio [2; 1]%nat) 0%nat _).
  simpl. lia.
Defined.

(** The comparator of the studio, where names are compared by code
    points. *)
Lemma studio_comparator_is_a_strict_weak_order :
  (forall x, alphabetizeEffectManifests x x = false)
  /\ (forall x y z,
        alphabetizeEffectManifests x y = true ->
        alphabetizeEffectManifests y z = true ->
        alphabetizeEffectManifests x z = true)
  /\ (forall x y z,
        alphabetizeEffectManifests x y = false /\ alphabetizeEffectManifests y x = false ->
        alphabetizeEffectManifests y z = false /\ alphabetizeEffectManifests z y = false ->
        alphabetizeEffectManifests x z = false /\ alphabetizeEffectManifests z x = false)
  /\ (forall x y,
        backendType x = BuiltIn -> backendType y = LV2 ->
        alphabetizeEffectManifests x y = true /\ alphabetizeEffectManifests y x = false).
Proof.
  exact (@alphabetizeEffectManifests_strict_weak_order Studio.runtime
           studio_compare_asym studio_compare_negtrans).
Defined.

(** The unique id of the built-in echo. *)
Lemma unique_id_of_echo :
  getManifestFromUniqueId Studio.backendTypeFromString (Studio.studio [])
    (QStr "echo BuiltIn")
  = Done (Some 1%nat).
Proof.
  refine (@getManifestFromUniqueId_splits_at_last_space _ _ _
            Studio.backendTypeFromString (Studio.studio []) "echo" "BuiltIn"
            Studio.builtIn _ _ _); reflexivity.
Defined.

(** Saving a default for the echo and loading the echo without a preset. *)
Lemma saved_echo_default_is_loaded :
  exists m',
    saveDefaultForEffect (Studio.studio []) (QStr "/home/dj/.mixxx") Studio.echoPreset
    = Done (m', Some (defaultFilePath (QStr "/home/dj/.mixxx") (QStr "echo")))
    /\ (forall iEffectSlotNumber adopt,
          loadEffect m' iEffectSlotNumber (Some 1%nat) None adopt
          = ChainSlot_loadEffect iEffectSlotNumber (Some 1%nat) (Some 101%nat)
              (Some Studio.echoPreset) adopt)
    /\ (forall pManifest,
          EffectManifestPointer_eqb pManifest (Some 1%nat) = false ->
          m_defaultPresets m' pManifest = m_defaultPresets (Studio.studio []) pManifest)
    /\ m_availableEffectManifests m' = m_availableEffectManifests (Studio.studio [])
    /\ m_visibleEffectManifests m' = m_visibleEffectManifests (Studio.studio [])
    /\ emitted m' = emitted (Studio.studio []).
Proof.
  refine (@saved_default_is_loaded _ _ _ _ (Studio.studio []) (QStr "/home/dj/.mixxx")
            Studio.echoPreset Studio.builtIn _ _); reflexivity.
Defined.

(** Stepping from an id that is not visible, among two effects. *)
Lemma traversal_stays_among_two_effects :
  (exists p, In p [1; 0]%nat
             /\ getNextEffectId (Studio.studio [1; 0]%nat) (QStr "reverb") = Done (id p))
  /\ (exists p, In p [1; 0]%nat
                /\ getPrevEffectId (Studio.studio [1; 0]%nat) (QStr "reverb") = Done (id p)).
Proof.
  refine (@traversal_stays_in_the_list _ _ _ _ (Studio.studio [1; 0]%nat)
            (QStr "reverb") _).
  discriminate.
Defined.

(** Two chain slots and three registrations, one of them a repetition. *)
Lemma two_channels_for_two_chain_slots :
  NoDup (m_registeredInputChannels
           (fst (registerInputChannels Nat.eqb [tt; tt]
                   {| m_registeredInputChannels := []; m_registeredOutputChannels := [] |}
                   [5; 6; 5]%nat)))
  /\ NoDup (snd (registerInputChannels Nat.eqb [tt; tt]
                   {| m_registeredInputChannels := []; m_registeredOutputChannels := [] |}
                   [5; 6; 5]%nat))
  /\ (forall chain x,
        In (chain, x)
           (snd (registerInputChannels Nat.eqb [tt; tt]
                   {| m_registeredInputChannels := []; m_registeredOutputChannels := [] |}
                   [5; 6; 5]%nat))
        <-> (chain < List.length [tt; tt])%nat
            /\ In x [5; 6; 5]%nat /\ ~ In x (@nil nat))
  /\ (forall x,
        In x (m_registeredInputChannels
                (fst (registerInputChannels Nat.eqb [tt; tt]
                        {| m_registeredInputChannels := [];
                           m_registeredOutputChannels := [] |}
                        [5; 6; 5]%nat)))
        <-> In x (@nil nat) \/ In x [5; 6; 5]%nat)
  /\ m_registeredOutputChannels
       (fst (registerInputChannels Nat.eqb [tt; tt]
               {| m_registeredInputChannels := []; m_registeredOutputChannels := [] |}
               [5; 6; 5]%nat))
     = [].
Proof.
  refine (@input_channels_are_handed_out_once nat Nat.eqb Nat.eqb_eq unit [tt; tt]
            [5; 6; 5]%nat
            {| m_registeredInputChannels := []; m_registeredOutputChannels := [] |} _).
  constructor.
Defined.

(** The key of the twelfth effect of the second unit. *)
Lemma key_of_twelfth_effect_of_unit2 :
  getEffectSlot Studio.rack (QStr "[EffectRack1_EffectUnit2_Effect12]")
  = Done (ChainSlot_getEffectSlot Studio.unit2 ((if 12 <=? INT_MAX then 12 else 0) - 1))
  /\ ChainSlot_getEffectSlot Studio.unit2 ((if 12 <=? INT_MAX then 12 else 0) - 1)
     = nth_error (effectSlots Studio.unit2) 11
  /\ nth_error (effectSlots Studio.unit2) 11 = Some Studio.echoSlot.
Proof.
  split; [| split; reflexivity].
  refine (@getEffectSlot_takes_keys_apart _ _ _ Studio.rack
            "[EffectRack1" "EffectUnit2" "Effect" "2" "]" "1"%char 12 Studio.unit2
            _ _ _ _ _ _ _);
    reflexivity.
Defined.

(** What the group of the pattern captures in some parts, and the slot
    number read off them. *)
Lemma intRegEx_cap1_of_some_parts :
  intRegEx_cap1 (QStr "Effect12]") = QStr "12"
  /\ toInt (intRegEx_cap1 (QStr "Effect12]")) - 1 = 11
  /\ intRegEx_cap1 (QStr "knob2x31") = QStr "2"
  /\ intRegEx_cap1 (QStr "Effect]") = QStr EmptyString
  /\ toInt (intRegEx_cap1 (QStr "Effect]")) - 1 = -1
  /\ toInt (intRegEx_cap1 (QStr "Effect2147483648]")) - 1 = -1
  /\ toInt (intRegEx_cap1 (QStr "Effect2147483647]")) - 1 = 2147483646.
Proof.
  repeat split; reflexivity.
Qed.

(** Two stored chain presets for the four chain slots of the studio. *)
Lemma second_stored_preset_goes_to_second_chain_slot :
  (forall chainSlot,
     nth_error (m_standardEffectChainSlots (Studio.studio [])) 1 = Some chainSlot ->
     nth_error (readStandardEffectChainPresets (Studio.studio []) 0
                  [None; Some Studio.chainPreset]) 1
     = Some (Some chainSlot,
             loadEffectChainPreset (Studio.studio []) true (Some Studio.chainPreset)))
  /\ (nth_error (m_standardEffectChainSlots (Studio.studio [])) 1 = None ->
      nth_error (readStandardEffectChainPresets (Studio.studio []) 0
                   [None; Some Studio.chainPreset]) 1
      = Some (None, []))
  /\ (Some Studio.chainPreset = None ->
      exists pChainSlot,
        nth_error (readStandardEffectChainPresets (Studio.studio []) 0
                     [None; Some Studio.chainPreset]) 1
        = Some (pChainSlot, [])).
Proof.
  refine (@stored_presets_without_chain_slot_are_dropped _ _ _ _ (Studio.studio [])
            [None; Some Studio.chainPreset] 1%nat (Some Studio.chainPreset) _).
  reflexivity.
Defined.

(** Registering output channel 7 next to 3. *)
Lemma output_channel_seven :
  NoDup (m_registeredOutputChannels
           (registerOutputChannel Nat.eqb
              {| m_registeredInputChannels := []; m_registeredOutputChannels := [3]%nat |}
              7%nat))
  /\ (forall x,
        In x (m_registeredOutputChannels
                (registerOutputChannel Nat.eqb
                   {| m_registeredInputChannels := [];
                      m_registeredOutputChannels := [3]%nat |} 7%nat))
        <-> x = 7%nat \/ In x [3]%nat)
  /\ registerOutputChannel Nat.eqb
       (registerOutputChannel Nat.eqb
          {| m_registeredInputChannels := []; m_registeredOutputChannels := [3]%nat |}
          7%nat) 7%nat
     = registerOutputChannel Nat.eqb
         {| m_registeredInputChannels := []; m_registeredOutputChannels := [3]%nat |}
         7%nat
  /\ m_registeredInputChannels
       (registerOutputChannel Nat.eqb
          {| m_registeredInputChannels := []; m_registeredOutputChannels := [3]%nat |}
          7%nat)
     = [].
Proof.
  refine (@output_channel_is_registered_once nat Nat.eqb Nat.eqb_eq
            {| m_registeredInputChannels := []; m_registeredOutputChannels := [3]%nat |}
            7%nat _).
  repeat constructor. simpl. lia.
Defined.

(** The built-in backend, added to a fresh coordinator. *)
Lemma builtIn_backend_is_asked_after_adding :
  exists m',
    addEffectsBackend Studio.fresh (Some Studio.builtIn) = Done m'
    /\ (forall effectId,
          EffectsManager_getManifest m' effectId (getType Studio.builtIn)
          = Done (getManifest Studio.builtIn effectId))
    /\ (forall p, backendType p = getType Studio.builtIn ->
          createProcessor m' (Some p) = backend_createProcessor Studio.builtIn (Some p))
    /\ (forall type, type <> getType Studio.builtIn ->
          m_effectsBackends m' type = m_effectsBackends Studio.fresh type).
Proof.
  refine (@added_backend_is_the_one_asked _ _ _ _ Studio.fresh Studio.builtIn
            [0; 1]%nat _).
  reflexivity.
Defined.
